(** * Swym wishlist icon injector: a shallow embedding of [inherit-styling.js]

    The development follows the class [WishlistInjectorPOC]:
    - [JsNum]: the numbers the script computes with;
    - [JsStr]: the string operations it calls ([toLowerCase], [includes],
      [trim], [split]) and the token lists behind [classList];
    - [Dom]: element trees, attributes, selectors, clone / insert / replace;
    - [Env]: what the script asks the browser, and the console;
    - [Injector]: [createHeartSvg], [_getIconInfo], [_matchIconScale] and
      [inject], written in the order of the source;
    - [Spec]: the scale and the pivot as the specification words them;
    - [Observe]: what the statements say about a document or a run;
    - [Sample]: a host and small documents the model runs on.
    The properties come after the definitions: first what was settled for
    each numbered claim of the specification, then further properties of
    the script.

    Modelling conventions.
    - A JavaScript number is an exact rational or one of +Infinity, -Infinity,
      NaN.  Binary64 rounding, overflow and the sign of zero are not
      represented: arithmetic on finite values is exact.
    - A string is a sequence of 8-bit code units.
    - A child list holds the element children of a node; text and comment
      nodes are never observed by the script.
    - A node has an identity, a number; the nodes a call creates take
      identities above those of the document.
    - What the browser alone decides (layout measurements, computed style,
      the meaning of a caller-supplied selector, number/string conversion)
      is a field of the [Host] record. *)

From Stdlib Require Import List String Ascii Bool Arith ZArith QArith Qround
  Qabs Qminmax Qpower Lia Lqa.
Import ListNotations.

Set Implicit Arguments.

Local Open Scope string_scope.
Local Open Scope list_scope.

(* ================================================================== *)
(** ** Numbers *)

Module JsNum.

Inductive jsnum : Type :=
| Fin (q : Q)
| PInf
| NInf
| NaN.

(** Finite results are kept in lowest terms, so that equal numbers are
    equal terms. *)
Definition fin (q : Q) : jsnum := Fin (Qred q).

Definition Qltb (a b : Q) : bool := negb (Qle_bool b a).

Definition isFinite (a : jsnum) : bool :=
  match a with Fin _ => true | _ => false end.

Definition isNaN (a : jsnum) : bool :=
  match a with NaN => true | _ => false end.

(** ToBoolean on a number: false for 0 and NaN. *)
Definition truthy (a : jsnum) : bool :=
  match a with
  | Fin q => negb (Qeq_bool q 0)
  | NaN => false
  | PInf | NInf => true
  end.

Definition jneg (a : jsnum) : jsnum :=
  match a with
  | Fin q => fin (- q)
  | PInf => NInf
  | NInf => PInf
  | NaN => NaN
  end.

Definition jadd (a b : jsnum) : jsnum :=
  match a, b with
  | NaN, _ | _, NaN => NaN
  | Fin x, Fin y => fin (x + y)
  | PInf, NInf | NInf, PInf => NaN
  | PInf, _ | _, PInf => PInf
  | NInf, _ | _, NInf => NInf
  end.

Definition jsub (a b : jsnum) : jsnum := jadd a (jneg b).

Definition jmul (a b : jsnum) : jsnum :=
  match a, b with
  | NaN, _ | _, NaN => NaN
  | Fin x, Fin y => fin (x * y)
  | Fin x, PInf | PInf, Fin x =>
      if Qeq_bool x 0 then NaN else if Qltb 0 x then PInf else NInf
  | Fin x, NInf | NInf, Fin x =>
      if Qeq_bool x 0 then NaN else if Qltb 0 x then NInf else PInf
  | PInf, PInf | NInf, NInf => PInf
  | PInf, NInf | NInf, PInf => NInf
  end.

(** Division; a zero divisor counts as +0. *)
Definition jdiv (a b : jsnum) : jsnum :=
  match a, b with
  | NaN, _ | _, NaN => NaN
  | Fin x, Fin y =>
      if Qeq_bool y 0
      then (if Qeq_bool x 0 then NaN else if Qltb 0 x then PInf else NInf)
      else fin (x / y)
  | Fin _, PInf | Fin _, NInf => Fin 0
  | PInf, Fin y => if Qle_bool 0 y then PInf else NInf
  | NInf, Fin y => if Qle_bool 0 y then NInf else PInf
  | PInf, PInf | PInf, NInf | NInf, PInf | NInf, NInf => NaN
  end.

(** [a > b]; false as soon as one side is NaN. *)
Definition jgt (a b : jsnum) : bool :=
  match a, b with
  | NaN, _ | _, NaN => false
  | Fin x, Fin y => Qltb y x
  | PInf, PInf => false
  | PInf, _ => true
  | _, PInf => false
  | NInf, _ => false
  | Fin _, NInf => true
  end.

Definition Math_max (a b : jsnum) : jsnum :=
  match a, b with
  | NaN, _ | _, NaN => NaN
  | _, _ => if jgt b a then b else a
  end.

Definition Math_min (a b : jsnum) : jsnum :=
  match a, b with
  | NaN, _ | _, NaN => NaN
  | _, _ => if jgt a b then b else a
  end.

(** [Math.round]: the nearest integer, ties towards +Infinity. *)
Definition Math_round (a : jsnum) : jsnum :=
  match a with
  | Fin q => fin (inject_Z (Qfloor (q + (1 # 2))))
  | _ => a
  end.

(** [Math.pow(10, n)] for an integer exponent. *)
Definition Math_pow10 (n : Z) : jsnum := fin (Qpower (10 # 1) n).


End JsNum.
Export JsNum.

(* ================================================================== *)
(** ** Strings *)

Module JsStr.

Local Open Scope nat_scope.

Definition code (c : ascii) : nat := nat_of_ascii c.

(** [String.prototype.toLowerCase] on 8-bit code units: A-Z and the
    Latin-1 capitals are moved down by 32. *)
Definition lowerChar (c : ascii) : ascii :=
  let n := code c in
  if ((65 <=? n) && (n <=? 90))
     || ((192 <=? n) && (n <=? 222) && negb (n =? 215))
  then ascii_of_nat (n + 32) else c.

Fixpoint toLowerCase (s : string) : string :=
  match s with
  | EmptyString => EmptyString
  | String c r => String (lowerChar c) (toLowerCase r)
  end.

(** [s.includes(sub)] *)
Fixpoint includes (sub s : string) : bool :=
  prefix sub s ||
  match s with
  | EmptyString => false
  | String _ r => includes sub r
  end.

(** ASCII whitespace of the DOM standard: TAB, LF, FF, CR, SPACE. *)
Definition isAsciiWs (c : ascii) : bool :=
  let n := code c in
  (n =? 9) || (n =? 10) || (n =? 12) || (n =? 13) || (n =? 32).

(** White space of ECMAScript ([\s], [trim]) among 8-bit code units. *)
Definition isJsWs (c : ascii) : bool :=
  let n := code c in
  (n =? 9) || (n =? 10) || (n =? 11) || (n =? 12) || (n =? 13)
  || (n =? 32) || (n =? 160).

Fixpoint trimStart (s : string) : string :=
  match s with
  | EmptyString => EmptyString
  | String c r => if isJsWs c then trimStart r else s
  end.

Fixpoint revStr (acc s : string) : string :=
  match s with
  | EmptyString => acc
  | String c r => revStr (String c acc) r
  end.

Definition trim (s : string) : string :=
  revStr "" (trimStart (revStr "" (trimStart s))).

Definition isEmpty (s : string) : bool :=
  match s with EmptyString => true | _ => false end.

(** [vb.split(/\s+|,/)]: a separator is a maximal run of white space, or
    one comma; every separator closes one (possibly empty) piece.  [cur] is
    the piece being read, reversed; [inWs] tells that the previous character
    was white space, whose run has already closed a piece. *)
Fixpoint splitViewBox (inWs : bool) (cur : string) (s : string)
  : list string :=
  match s with
  | EmptyString => [revStr "" cur]
  | String c r =>
      if isJsWs c then
        if inWs then splitViewBox true "" r
        else revStr "" cur :: splitViewBox true "" r
      else if code c =? 44 then revStr "" cur :: splitViewBox false "" r
      else splitViewBox false (String c cur) r
  end.

(** Splitting an attribute value on ASCII whitespace (DOM standard); no
    piece is empty. *)
Fixpoint splitAsciiWs (cur : string) (s : string) : list string :=
  match s with
  | EmptyString => if isEmpty cur then [] else [revStr "" cur]
  | String c r =>
      if isAsciiWs c then
        if isEmpty cur then splitAsciiWs "" r
        else revStr "" cur :: splitAsciiWs "" r
      else splitAsciiWs (String c cur) r
  end.

(** An ordered set keeps the first occurrence of each token. *)
Fixpoint orderedSet (l : list string) : list string :=
  match l with
  | [] => []
  | x :: r => x :: filter (fun y => negb (y =? x)%string) (orderedSet r)
  end.

(** The ordered-set parser and serializer of the DOM standard, used by
    [classList]. *)
Definition parseTokens (s : string) : list string :=
  orderedSet (splitAsciiWs "" s).

Fixpoint serializeTokens (l : list string) : string :=
  match l with
  | [] => ""
  | [x] => x
  | x :: r => x ++ " " ++ serializeTokens r
  end.

(** The code units of a string. *)
Fixpoint chars (s : string) : list ascii :=
  match s with
  | EmptyString => []
  | String c r => c :: chars r
  end.

(** A token: not empty, no ASCII whitespace inside. *)
Definition token (t : string) : Prop :=
  t <> "" /\ Forall (fun c => isAsciiWs c = false) (chars t).

End JsStr.
Export JsStr.

(* ================================================================== *)
(** ** The document tree *)

Module Dom.

Local Open Scope nat_scope.

(** The click handler [inject] attaches: it prevents the default action,
    stops propagation and navigates to [url]. *)
Inductive handler : Type :=
| NavigateTo (url : string).

Local Unset Elimination Schemes.

(** An element: [nid] is the identity of the node (the object reference
    in the script), [tagName] is the name as the DOM reports it (upper case
    for HTML elements), [attrs] are the content attributes in order,
    [inlineStyle] the declarations of [el.style], [onclick] the handler
    property. *)
Inductive elem : Type :=
  Elem { nid : nat;
         tagName : string;
         attrs : list (string * string);
         inlineStyle : list (string * string);
         onclick : option handler;
         children : list elem }.

Local Set Elimination Schemes.

Definition withAttrs (e : elem) (a : list (string * string)) : elem :=
  Elem (nid e) (tagName e) a (inlineStyle e) (onclick e) (children e).

Definition withChildren (e : elem) (cs : list elem) : elem :=
  Elem (nid e) (tagName e) (attrs e) (inlineStyle e) (onclick e) cs.

(** *** Attributes *)

Fixpoint lookup (name : string) (l : list (string * string))
  : option string :=
  match l with
  | [] => None
  | (k, v) :: r => if (k =? name)%string then Some v else lookup name r
  end.

(** Setting keeps the position of an attribute that exists and appends a
    new one. *)
Fixpoint assign (name value : string) (l : list (string * string))
  : list (string * string) :=
  match l with
  | [] => [(name, value)]
  | (k, v) :: r =>
      if (k =? name)%string then (k, value) :: r
      else (k, v) :: assign name value r
  end.

Definition unassign (name : string) (l : list (string * string))
  : list (string * string) :=
  filter (fun kv => negb (fst kv =? name)%string) l.

Definition getAttribute (name : string) (e : elem) : option string :=
  lookup name (attrs e).

Definition setAttribute (name value : string) (e : elem) : elem :=
  withAttrs e (assign name value (attrs e)).

Definition removeAttribute (name : string) (e : elem) : elem :=
  withAttrs e (unassign name (attrs e)).

(** Conversion of a script value to the string an attribute stores:
    [null] becomes the four letters null. *)
Definition toDOMString (v : option string) : string :=
  match v with
  | Some s => s
  | None => "null"
  end.

(** [el.classList]: the ordered set of tokens of the class attribute. *)
Definition classList (e : elem) : list string :=
  match getAttribute "class" e with
  | Some v => parseTokens v
  | None => []
  end.

(** [el.classList.remove(...tokens)] followed by the update steps: the
    attribute is rewritten from the remaining set, unless the attribute is
    absent and the set is empty. *)
Definition classList_remove (tokens : list string) (e : elem) : elem :=
  let keep :=
    filter (fun t => negb (existsb (String.eqb t) tokens)) (classList e) in
  match getAttribute "class" e, keep with
  | None, [] => e
  | _, _ => setAttribute "class" (serializeTokens keep) e
  end.

(** *** Selectors written in the script *)

Inductive simple : Type :=
| TypeSel (name : string)                (* [name] *)
| HasAttr (name : string)                (* [[name]] *)
| AttrContains (name sub : string).      (* [[name*="sub"]] *)

(** A compound selector is a conjunction, a selector list a disjunction. *)
Definition compound : Type := list simple.
Definition selector : Type := list compound.

Definition matchSimple (e : elem) (s : simple) : bool :=
  match s with
  | TypeSel name => (toLowerCase (tagName e) =? name)%string
  | HasAttr name =>
      match getAttribute name e with Some _ => true | None => false end
  | AttrContains name sub =>
      match getAttribute name e with
      | Some v => negb (isEmpty sub) && includes sub v
      | None => false
      end
  end.

Definition matches (sel : selector) (e : elem) : bool :=
  existsb (forallb (matchSimple e)) sel.

(** *** Traversal *)

(** The descendants of [e] in tree order, [e] excluded. *)
Fixpoint descendants (e : elem) : list elem :=
  flat_map (fun c => c :: descendants c) (children e).

(** Every node of the tree under [e] in tree order with its ancestors,
    nearest first; [anc] are the ancestors of [e]. *)
Fixpoint walk (anc : list elem) (e : elem) : list (list elem * elem) :=
  (anc, e) :: flat_map (walk (e :: anc)) (children e).

Definition querySelector (sel : selector) (e : elem) : option elem :=
  find (matches sel) (descendants e).

Definition hasId (id : string) (e : elem) : bool :=
  match getAttribute "id" e with
  | Some v => (v =? id)%string
  | None => false
  end.

(** [document.getElementById(id)] on the document whose root is [doc]. *)
Definition getElementById (id : string) (doc : elem) : option elem :=
  find (hasId id) (doc :: descendants doc).

(** The node of identity [n], with its ancestors. *)
Definition nodeById (n : nat) (doc : elem) : option (list elem * elem) :=
  find (fun ae => nid (snd ae) =? n) (walk [] doc).

Fixpoint maxId (e : elem) : nat :=
  fold_right Nat.max (nid e) (map maxId (children e)).

(** *** Mutation *)

(** [el.cloneNode(true)]: a copy of the subtree made of new nodes (the
    identity of a copy is [base] plus that of its source); attributes and
    inline style are copied, handler properties are not. *)
Fixpoint cloneNode (base : nat) (e : elem) : elem :=
  Elem (base + nid e) (tagName e) (attrs e) (inlineStyle e) None
       (map (cloneNode base) (children e)).

(** Applies [f] to every descendant of a node ([querySelectorAll] followed
    by [forEach]); [mapTree] includes the node itself. *)
Fixpoint mapTree (f : elem -> elem) (e : elem) : elem :=
  f (withChildren e (map (mapTree f) (children e))).

Definition mapDescendants (f : elem -> elem) (e : elem) : elem :=
  withChildren e (map (mapTree f) (children e)).

(** Mutation of the node of identity [n]. *)
Definition updateNode (n : nat) (f : elem -> elem) (e : elem) : elem :=
  mapTree (fun x => if nid x =? n then f x else x) e.

Section Splice.
Variable ref : nat.
Variable put : elem -> list elem.
Variable inside : elem -> option elem.

(** Rewrites the first node of identity [ref] reached in tree order
    among the trees of [l] into the list [put] gives. *)
Fixpoint spliceList (l : list elem) : option (list elem) :=
  match l with
  | [] => None
  | c :: r =>
      if nid c =? ref then Some (put c ++ r)
      else match inside c with
           | Some c' => Some (c' :: r)
           | None => option_map (cons c) (spliceList r)
           end
  end.
End Splice.

(** [None] when no proper descendant of [e] has identity [ref]. *)
Fixpoint splice (ref : nat) (put : elem -> list elem) (e : elem)
  : option elem :=
  option_map (withChildren e)
             (spliceList ref put (splice ref put) (children e)).

(** [parent.insertBefore(new, child)], [parent] being the parent of the
    node of identity [child]. *)
Definition insertBefore (new : elem) (child : nat) (e : elem)
  : option elem :=
  splice child (fun c => [new; c]) e.

(** [parent.replaceChild(new, old)], [parent] being the parent of the node
    of identity [old]. *)
Definition replaceChild (new : elem) (old : nat) (e : elem) : option elem :=
  splice old (fun _ => [new]) e.

Definition appendChild (new : elem) (e : elem) : elem :=
  withChildren e (children e ++ [new]).

End Dom.
Export Dom.

(* ================================================================== *)
(** ** The host environment *)

Module Env.

(** A [DOMRect] / [SVGRect]. *)
Record box : Type :=
  Box { x : jsnum; y : jsnum; width : jsnum; height : jsnum }.

(** What the browser decides.  The measurements are those of the node of
    the given identity in the given document; [None] stands for a call
    that throws. *)
Record Host : Type :=
  { compileSelector : string -> option (list elem -> elem -> bool);
      (* the meaning of a caller's selector: a test on a node and its
         ancestors, [None] when the selector does not parse *)
    getBBox : elem -> nat -> option box;
    getBoundingClientRect : elem -> nat -> option box;
    getComputedStyle : elem -> nat -> option (string -> string);
      (* the [getPropertyValue] of the computed style *)
    toNumber : string -> jsnum;          (* [Number(s)] *)
    parseFloat : string -> jsnum;
    numToString : jsnum -> string        (* number to string conversion *)
  }.

Inductive exn : Type :=
| SyntaxError      (* [querySelector] on a selector that does not parse *)
| TypeError        (* a property read on [null] *)
| HostError.       (* a measurement that throws *)

Inductive console : Type :=
| Log (msg : string)
| Warn (msg : string)
| Error (msg : string)
| LogScaled (finalScale : jsnum) (appliedTransform : string)
    (* [console.log('Swym Scaler: Heart icon scaled.', {...})] *)
| ErrorCaught (e : exn).
    (* [console.error('Swym: Error injecting wishlist icon:', error)] *)

End Env.
Export Env.

(* ================================================================== *)
(** ** The class [WishlistInjectorPOC] *)

Module Injector.

Local Open Scope nat_scope.

(** *** Configuration fields *)

Definition wishlistButtonId : string := "swym-wishlist-header-button".
Definition wishlistPageUrl : string := "/apps/wishlist".
Definition wishlistAriaLabel : string := "Wishlist (0 items)".

(** The element children [tempDiv.innerHTML = heartIconSVGString] gives to
    [tempDiv]: one [svg] holding one [path]; the two new nodes take the
    identities [base] and [base + 1]. *)
Definition heartIconSVG (base : nat) : list elem :=
  [ Elem base "svg"
      [ ("xmlns", "http://www.w3.org/2000/svg");
        ("viewBox", "0 0 24 24");
        ("fill", "none");
        ("stroke", "currentColor");
        ("stroke-linecap", "round");
        ("stroke-linejoin", "round");
        ("aria-hidden", "true");
        ("focusable", "false");
        ("role", "presentation") ]
      [] None
      [ Elem (base + 1) "path"
          [ ("d", "M20.84 4.61a5.5 5.5 0 0 0-7.78 0L12 5.67l-1.06-1.06a5.5 5.5 0 0 0-7.78 7.78l1.06 1.06L12 21.23l7.78-7.78 1.06-1.06a5.5 5.5 0 0 0 0-7.78z") ]
          [] None [] ] ].

(** *** [createHeartSvg] *)

Definition createHeartSvg (base : nat) (referenceIcon : option elem)
  : option elem * list console :=
  match hd_error (heartIconSVG base) with
  | None => (None, [Error "Swym: Heart SVG string is invalid."])
  | Some newSvg =>
      match referenceIcon with
      | Some r =>
          (Some (setAttribute "class" (toDOMString (getAttribute "class" r))
                              newSvg), [])
      | None => (Some newSvg, [])
      end
  end.

(** *** [_getIconInfo] *)

Inductive outcome (A : Type) : Type :=
| Ok (a : A)
| Throw (e : exn).
Arguments Ok {A} a.
Arguments Throw {A} e.

Definition bind {A B : Type} (m : outcome A) (k : A -> outcome B)
  : outcome B :=
  match m with
  | Ok a => k a
  | Throw e => Throw e
  end.

Notation "x <- m ;; k" := (bind m (fun x => k))
  (at level 61, m at next level, right associativity).

Record iconInfo : Type :=
  { el : elem;
    svg : option elem;
    bbox : option box;
    rect : option box;
    cstyle : option (string -> string);
    transformAttr : option string;
    svgViewBox : option string;
    svgRect : option box;
    svgSizeAttrs : option (option string * option string) }.

Definition isSvg (e : elem) : bool := matches [[TypeSel "svg"]] e.

Definition ancestorsOf (doc : elem) (n : nat) : list elem :=
  match nodeById n doc with
  | Some (anc, _) => anc
  | None => []
  end.

(** [el.ownerSVGElement || el.closest('svg')] *)
Definition svgOf (doc : elem) (e : elem) : option elem :=
  let anc := ancestorsOf doc (nid e) in
  match find isSvg anc with
  | Some s => Some s
  | None => find isSvg (e :: anc)
  end.

Definition _getIconInfo (h : Host) (doc : elem) (el : option elem)
  : outcome (option iconInfo) :=
  match el with
  | None => Ok None
  | Some e =>
      let svg := svgOf doc e in
      let bbox := getBBox h doc (nid e) in
      let rect := getBoundingClientRect h doc (nid e) in
      let cstyle := getComputedStyle h doc (nid e) in
      let transformAttr := getAttribute "transform" e in
      let svgViewBox :=
        match svg with Some s => getAttribute "viewBox" s | None => None end in
      svgRect <-
        match svg with
        | Some s =>
            match getBoundingClientRect h doc (nid s) with
            | Some r => Ok (Some r)
            | None => Throw HostError
            end
        | None => Ok None
        end ;;
      let svgSizeAttrs :=
        match svg with
        | Some s => Some (getAttribute "width" s, getAttribute "height" s)
        | None => None
        end in
      Ok (Some {| el := e; svg := svg; bbox := bbox; rect := rect;
                  cstyle := cstyle; transformAttr := transformAttr;
                  svgViewBox := svgViewBox; svgRect := svgRect;
                  svgSizeAttrs := svgSizeAttrs |})
  end.

(** *** [_matchIconScale], block by block *)

(** [i.rect && i.rect.width ? i.rect.width : (i.bbox ? i.bbox.width : null)]
    for the dimension [dim]. *)
Definition renderedSize (dim : box -> jsnum) (i : iconInfo)
  : option jsnum :=
  match rect i with
  | Some r => if truthy (dim r) then Some (dim r) else option_map dim (bbox i)
  | None => option_map dim (bbox i)
  end.

Definition desiredScale (refWidthPx heartWidthPx refHeightPx heartHeightPx
                         : jsnum) : jsnum :=
  let desiredScaleX := jdiv refWidthPx heartWidthPx in
  let desiredScaleY := jdiv refHeightPx heartHeightPx in
  Math_max desiredScaleX desiredScaleY.

(** The stroke width in pixels and the [vector-effect] of the heart path. *)
Definition strokeOf (h : Host) (cs : option (string -> string))
  : jsnum * option string :=
  match cs with
  | Some getPropertyValue =>
      let sw := getPropertyValue "stroke-width" in
      let parsed := parseFloat h sw in
      (if isFinite parsed then parsed else Fin 1,
       Some (trim (getPropertyValue "vector-effect")))
  | None => (Fin 1, None)
  end.

(** [vectorEffect && vectorEffect.indexOf('non-scaling-stroke') !== -1] *)
Definition nonScalingStroke (vectorEffect : option string) : bool :=
  match vectorEffect with
  | Some v => negb (isEmpty v) && includes "non-scaling-stroke" v
  | None => false
  end.

Definition maxScaleBy (vectorEffect : option string)
           (svgBox heartPx strokeWidthPx : jsnum) : jsnum :=
  if nonScalingStroke vectorEffect
  then jdiv (jsub svgBox strokeWidthPx) heartPx
  else jdiv svgBox (jadd heartPx strokeWidthPx).

(** [if (!(isFinite(m) && m > 0)) m = desiredScale] *)
Definition reasonable (desired m : jsnum) : jsnum :=
  if isFinite m && jgt m (Fin 0) then m else desired.

Definition clampScale (desired : jsnum) (svgRect : option box)
           (vectorEffect : option string)
           (strokeWidthPx heartWidthPx heartHeightPx : jsnum) : jsnum :=
  match svgRect with
  | Some r =>
      if truthy (width r) && truthy (height r) then
        let maxScaleByWidth :=
          reasonable desired
            (maxScaleBy vectorEffect (width r) heartWidthPx strokeWidthPx) in
        let maxScaleByHeight :=
          reasonable desired
            (maxScaleBy vectorEffect (height r) heartHeightPx strokeWidthPx) in
        let maxAllowedScale := Math_min maxScaleByWidth maxScaleByHeight in
        Math_min desired maxAllowedScale
      else desired
  | None => desired
  end.

(** [maxScaleDecimals || 3], the parameter defaulting to 3 when omitted. *)
Definition decimals (maxScaleDecimals : option Z) : Z :=
  let d := match maxScaleDecimals with Some d => d | None => 3%Z end in
  if (d =? 0)%Z then 3%Z else d.

Definition finalScale (clamp : jsnum) (maxScaleDecimals : option Z)
  : jsnum :=
  let pow := Math_pow10 (decimals maxScaleDecimals) in
  jdiv (Math_round (jmul clamp pow)) pow.

(** The centre the scaling is applied about, in user units. *)
Definition pivot (h : Host) (vb : option string) (bbox : option box)
  : jsnum * jsnum :=
  let fromBBox :=
    match bbox with
    | Some b => (jadd (x b) (jdiv (width b) (Fin 2)),
                 jadd (y b) (jdiv (height b) (Fin 2)))
    | None => (Fin 12, Fin 12)
    end in
  match vb with
  | Some v =>
      if isEmpty v then fromBBox
      else
        let parts := map (toNumber h) (splitViewBox false "" v) in
        match parts with
        | [minx; miny; w; hgt] =>
            if forallb (fun n => negb (isNaN n)) parts
            then (jadd minx (jdiv w (Fin 2)), jadd miny (jdiv hgt (Fin 2)))
            else (Fin 12, Fin 12)
        | _ => (Fin 12, Fin 12)
        end
  | None => fromBBox
  end.

Definition centeredScale (h : Host) (cx cy finalScale : jsnum) : string :=
  "translate(" ++ numToString h cx ++ " " ++ numToString h cy
  ++ ") scale(" ++ numToString h finalScale
  ++ ") translate(" ++ numToString h (jneg cx) ++ " "
  ++ numToString h (jneg cy) ++ ")".

(** The value written to the [transform] attribute: the new transform
    followed by the one already there. *)
Definition prepended (newTransform : string) (existing : string) : string :=
  newTransform ++ (if isEmpty existing then "" else " " ++ existing).

Definition pathSel : selector := [[TypeSel "path"]].

(** A reference the script holds: [None] is [null]; a reference that names
    no node of the document counts as [null] too. *)
Definition deref (doc : elem) (r : option nat) : option elem :=
  match r with
  | Some n => option_map snd (nodeById n doc)
  | None => None
  end.

Definition orEmpty (v : option string) : string :=
  match v with Some s => s | None => "" end.

(** *** [_matchIconScale]

    The result is the document after the call and what was logged. *)
Definition _matchIconScale (h : Host) (doc : elem)
           (referenceIcon heartSvg : option nat)
           (maxScaleDecimals : option Z)
  : outcome (elem * list console) :=
  match deref doc referenceIcon, deref doc heartSvg with
  | Some referenceIcon, Some heartSvg =>
    match querySelector pathSel referenceIcon with
    | None =>
        Ok (doc, [Warn "Swym Scaler: No <path> found in reference icon. Cannot apply path-based scaling."])
    | Some refEl =>
    match querySelector pathSel heartSvg with
    | None =>
        Ok (doc, [Warn "Swym Scaler: No <path> found in new heart icon. Cannot scale."])
    | Some heartEl =>
      ref <- _getIconInfo h doc (Some refEl) ;;
      heart <- _getIconInfo h doc (Some heartEl) ;;
      match ref, heart with
      | Some ref, Some heart =>
        match renderedSize width ref, renderedSize width heart,
              renderedSize height ref, renderedSize height heart with
        | Some refWidthPx, Some heartWidthPx,
          Some refHeightPx, Some heartHeightPx =>
          if negb (truthy refWidthPx) || negb (truthy heartWidthPx)
             || negb (truthy refHeightPx) || negb (truthy heartHeightPx)
          then
            Ok (doc, [Warn "Swym Scaler: Could not determine widths/heights for scaling. Check getBoundingClientRect/getBBox."])
          else
            let desired :=
              desiredScale refWidthPx heartWidthPx
                           refHeightPx heartHeightPx in
            let '(strokeWidthPx, vectorEffect) := strokeOf h (cstyle heart) in
            let clamp :=
              clampScale desired (svgRect heart) vectorEffect
                         strokeWidthPx heartWidthPx heartHeightPx in
            let final := finalScale clamp maxScaleDecimals in
            match svg heart with
            | None => Ok (doc, [Warn "Swym Scaler: Heart svg not found."])
            | Some svg =>
                let '(cx, cy) :=
                  pivot h (getAttribute "viewBox" svg) (bbox heart) in
                let existing := orEmpty (getAttribute "transform" heartEl) in
                let newTransform := centeredScale h cx cy final in
                Ok (updateNode (nid heartEl)
                      (setAttribute "transform"
                                    (prepended newTransform existing)) doc,
                    [LogScaled final newTransform])
            end
        | _, _, _, _ =>
            Ok (doc, [Warn "Swym Scaler: Could not determine widths/heights for scaling. Check getBoundingClientRect/getBBox."])
        end
      | _, _ => Throw TypeError
      end
    end
    end
  | _, _ =>
      Ok (doc, [Warn "Swym Scaler: Missing reference or heart icon. Skipping scaling."])
  end.

(** *** [inject] *)

Definition iconSelector : selector :=
  [ [TypeSel "svg"];
    [TypeSel "i"; AttrContains "class" "icon"];
    [TypeSel "i"; AttrContains "class" "fa-"];
    [TypeSel "img"] ].

(** [className.toLowerCase().includes('cart')] *)
Definition isCartClass (className : string) : bool :=
  includes "cart" (toLowerCase className).

(** [querySelectorAll(sel).forEach(el => el.removeAttribute(name))] *)
Definition stripIf (sel : selector) (name : string) (d : elem) : elem :=
  if matches sel d then removeAttribute name d else d.

Definition stripWhere (sel : selector) (name : string) (e : elem) : elem :=
  mapDescendants (stripIf sel name) e.

Definition aHrefCart : selector :=
  [[TypeSel "a"; AttrContains "href" "/cart"]].

(** Step 4 of [inject]: the changes made to the clone, from the identity
    marker to the accessible label. *)
Definition modifyClone (clone : elem) : elem :=
  let w := setAttribute "id" wishlistButtonId clone in
  let classesToRemove := filter isCartClass (classList w) in
  let w := classList_remove classesToRemove w in
  let w := stripWhere [[AttrContains "id" "cart"]] "id" w in
  let w := stripWhere [[HasAttr "data-cart-status"]] "data-cart-status" w in
  let w := if matches aHrefCart w then removeAttribute "href" w else w in
  let w := stripWhere aHrefCart "href" w in
  let w :=
    if (tagName w =? "A")%string
    then setAttribute "href" wishlistPageUrl w
    else Elem (nid w) (tagName w) (attrs w)
              (assign "cursor" "pointer" (inlineStyle w))
              (Some (NavigateTo wishlistPageUrl)) (children w) in
  setAttribute "aria-label" wishlistAriaLabel w.

(** Step 5: the icon inside the clone is replaced by the heart, or the
    heart is appended.  Gives the clone, [heartSvg] and the log. *)
Definition substituteIcon (base : nat) (wishlistElement : elem)
           (originalIcon referenceIcon : option elem)
  : elem * option elem * list console :=
  match originalIcon, referenceIcon with
  | Some o, Some r =>
      let '(heartSvg, l) := createHeartSvg base (Some r) in
      (match heartSvg with
       | Some s =>
           match replaceChild s (nid o) wishlistElement with
           | Some w => w
           | None => wishlistElement
           end
       | None => wishlistElement
       end, heartSvg, l)
  | _, _ =>
      let '(heartSvg, l) := createHeartSvg base None in
      (match heartSvg with
       | Some s => appendChild s wishlistElement
       | None => wishlistElement
       end, heartSvg,
       Warn "Swym: Could not find an icon (svg, i, img) inside the cloned cart element." :: l)
  end.

(** The body of the [try] block: the document, the log, and the exception
    that left the block, if any. *)
Definition injectBody (h : Host) (doc : elem) (cartSelector : string)
  : elem * list console * option exn :=
  match compileSelector h cartSelector with
  | None => (doc, [], Some SyntaxError)
  | Some test =>
    match find (fun ae => test (fst ae) (snd ae)) (walk [] doc) with
    | None =>
        (doc, [Error ("Swym: Could not find element with selector: "
                      ++ cartSelector)], None)
    | Some (anc, cartElement) =>
      match getElementById wishlistButtonId doc with
      | Some _ => (doc, [Log "Swym: Wishlist icon already present."], None)
      | None =>
        let base := S (maxId doc) in
        let wishlistElement := modifyClone (cloneNode base cartElement) in
        let originalIcon := querySelector iconSelector wishlistElement in
        let referenceIcon := querySelector iconSelector cartElement in
        let '(wishlistElement, heartSvg, logs) :=
          substituteIcon (base + base) wishlistElement
                         originalIcon referenceIcon in
        match anc with
        | [] => (doc, logs, Some TypeError)
        | _ :: _ =>
          match insertBefore wishlistElement (nid cartElement) doc with
          | None => (doc, logs, Some TypeError)
          | Some doc1 =>
            let logs :=
              logs ++ [Log "Swym: Wishlist icon injected successfully."] in
            match referenceIcon, heartSvg with
            | Some r, Some s =>
                match _matchIconScale h doc1 (Some (nid r)) (Some (nid s))
                                      None with
                | Ok (doc2, l) => (doc2, logs ++ l, None)
                | Throw e => (doc1, logs, Some e)
                end
            | _, _ =>
                (doc1,
                 logs ++ [Warn "Swym Scaler: Could not scale icon, missing referenceIcon or heartSvg."],
                 None)
            end
          end
        end
      end
    end
  end.

(** [inject(cartSelector)]; [None] is a missing argument. *)
Definition inject (h : Host) (doc : elem) (cartSelector : option string)
  : elem * list console :=
  if isEmpty (orEmpty cartSelector)
  then (doc, [Error "Swym: No cart selector provided."])
  else
    let '(doc', logs, thrown) := injectBody h doc (orEmpty cartSelector) in
    match thrown with
    | Some e => (doc', logs ++ [ErrorCaught e])
    | None => (doc', logs)
    end.

(** *** The call at the end of the script *)

Definition themeSelector : string := "cart-drawer-component".

(** [swymInjector.inject(themeSelector)] on the document [doc]. *)
Definition main (h : Host) (doc : elem) : elem * list console :=
  inject h doc (Some themeSelector).

End Injector.
Export Injector.

(* ================================================================== *)
(** ** The Geometry Matcher as the specification words it *)

Module Spec.







(** A viewport is declared by a [viewBox] made of four numbers. *)
Definition declaredViewport (h : Host) (viewBox : string)
  : option (jsnum * jsnum * jsnum * jsnum) :=
  match map (toNumber h) (splitViewBox false "" viewBox) with
  | [minx; miny; w; hgt] =>
      if isNaN minx || isNaN miny || isNaN w || isNaN hgt then None
      else Some (minx, miny, w, hgt)
  | _ => None
  end.

(** The pivot of section 4.2: the centre of the declared viewport, else the
    centre of the geometry-only bounding box, else (12, 12). *)
Definition pivotOf (viewport : option (jsnum * jsnum * jsnum * jsnum))
           (bbox : option box) : jsnum * jsnum :=
  match viewport, bbox with
  | Some (minx, miny, w, hgt), _ =>
      (jadd minx (jdiv w (Fin 2)), jadd miny (jdiv hgt (Fin 2)))
  | None, Some b =>
      (jadd (x b) (jdiv (width b) (Fin 2)),
       jadd (y b) (jdiv (height b) (Fin 2)))
  | None, None => (Fin 12, Fin 12)
  end.

End Spec.

(* ================================================================== *)
(** ** Observations on documents and on a run of the matcher *)

Module Observe.

(** The nodes of the tree under [e] in tree order, [e] included. *)
Definition flatten (e : elem) : list elem := e :: descendants e.

Definition ids (e : elem) : list nat := map nid (flatten e).

(** The number of nodes of a tree. *)
Fixpoint size (e : elem) : nat := S (list_sum (map size (children e))).

Definition count {A : Type} (p : A -> bool) (l : list A) : nat :=
  List.length (filter p l).

(** How many nodes of the document satisfy [p]. *)
Definition countWhere (p : elem -> bool) (doc : elem) : nat :=
  count p (flatten doc).

(** A test on nodes that does not look at the children. *)
Definition shallow {A : Type} (p : elem -> A) : Prop :=
  forall e cs, p (withChildren e cs) = p e.

(** The caller's selector is understood and its first match in the
    document is [cartElement], under the ancestors [anc]. *)
Definition resolves (h : Host) (doc : elem) (cartSelector : string)
           (anc : list elem) (cartElement : elem) : Prop :=
  exists test,
    compileSelector h cartSelector = Some test
    /\ find (fun ae => test (fst ae) (snd ae)) (walk [] doc)
       = Some (anc, cartElement).

(** The element that carries the identity marker. *)
Definition inserted (doc : elem) : option elem :=
  getElementById wishlistButtonId doc.

Definition hasMarker : elem -> bool := hasId wishlistButtonId.

(** [e'] is [e], or [e] after a write to the [transform] attribute of one
    node. *)
Definition sameButTransform (e e' : elem) : Prop :=
  e' = e \/ exists n v, e' = updateNode n (setAttribute "transform" v) e.

(** What step 4 of [inject] does to each descendant of the clone. *)
Definition sanitizeDescendant (d : elem) : elem :=
  mapTree (stripIf aHrefCart "href")
    (mapTree (stripIf [[HasAttr "data-cart-status"]] "data-cart-status")
       (mapTree (stripIf [[AttrContains "id" "cart"]] "id") d)).

(** The node itself, without its children. *)
Definition shell (e : elem) : elem := withChildren e [].

(** What [_matchIconScale] has measured when it reaches the computation of
    the scale, under the names of the source. *)
Record measurement : Type :=
  { refEl : elem;
    heartEl : elem;
    ref : iconInfo;
    heart : iconInfo;
    refWidthPx : jsnum;
    heartWidthPx : jsnum;
    refHeightPx : jsnum;
    heartHeightPx : jsnum }.

Definition measures (h : Host) (doc : elem)
           (referenceIcon heartSvg : option nat) (m : measurement) : Prop :=
  exists r s,
    deref doc referenceIcon = Some r
    /\ deref doc heartSvg = Some s
    /\ querySelector pathSel r = Some (refEl m)
    /\ querySelector pathSel s = Some (heartEl m)
    /\ _getIconInfo h doc (Some (refEl m)) = Ok (Some (ref m))
    /\ _getIconInfo h doc (Some (heartEl m)) = Ok (Some (heart m))
    /\ renderedSize width (ref m) = Some (refWidthPx m)
    /\ renderedSize width (heart m) = Some (heartWidthPx m)
    /\ renderedSize height (ref m) = Some (refHeightPx m)
    /\ renderedSize height (heart m) = Some (heartHeightPx m).

(** The measurement of a run, computed. *)
Definition measurementOf (h : Host) (doc : elem)
           (referenceIcon heartSvg : option nat) : option measurement :=
  match deref doc referenceIcon, deref doc heartSvg with
  | Some r, Some s =>
    match querySelector pathSel r, querySelector pathSel s with
    | Some refEl, Some heartEl =>
      match _getIconInfo h doc (Some refEl),
            _getIconInfo h doc (Some heartEl) with
      | Ok (Some ref), Ok (Some heart) =>
        match renderedSize width ref, renderedSize width heart,
              renderedSize height ref, renderedSize height heart with
        | Some rw, Some hw, Some rh, Some hh =>
            Some {| refEl := refEl; heartEl := heartEl;
                    ref := ref; heart := heart;
                    refWidthPx := rw; heartWidthPx := hw;
                    refHeightPx := rh; heartHeightPx := hh |}
        | _, _, _, _ => None
        end
      | _, _ => None
      end
    | _, _ => None
    end
  | _, _ => None
  end.

(** The desired scale, the stroke width and the stroke mode of a
    measurement. *)
Definition desiredOf (m : measurement) : jsnum :=
  desiredScale (refWidthPx m) (heartWidthPx m)
               (refHeightPx m) (heartHeightPx m).

Definition strokeWidthOf (h : Host) (m : measurement) : jsnum :=
  fst (strokeOf h (cstyle (heart m))).


(** The scale and the pivot the matcher computes from a measurement. *)
Definition scaleOf (h : Host) (m : measurement) (maxScaleDecimals : option Z)
  : jsnum :=
  finalScale
    (clampScale (desiredOf m) (svgRect (heart m))
                (snd (strokeOf h (cstyle (heart m)))) (strokeWidthOf h m)
                (heartWidthPx m) (heartHeightPx m))
    maxScaleDecimals.

Definition pivotIn (h : Host) (m : measurement) (svg : elem)
  : jsnum * jsnum :=
  pivot h (getAttribute "viewBox" svg) (bbox (heart m)).

(** The document after the transform [t] has been put before the
    transform of the heart path. *)
Definition transformed (m : measurement) (t : string) (doc : elem) : elem :=
  updateNode (nid (heartEl m))
    (setAttribute "transform"
       (prepended t (orEmpty (getAttribute "transform" (heartEl m)))))
    doc.

(** Steps 3 to 5 of [inject] for the anchor [cartElement]: the element
    that will be inserted, [heartSvg] and the log. *)
Abbreviation built doc cartElement :=
  (substituteIcon (S (maxId doc) + S (maxId doc))
     (modifyClone (cloneNode (S (maxId doc)) cartElement))
     (querySelector iconSelector
        (modifyClone (cloneNode (S (maxId doc)) cartElement)))
     (querySelector iconSelector cartElement)).

(** The message logged once the element is in the document, and two
    warnings of the matcher. *)
Definition injectedMsg : console :=
  Log "Swym: Wishlist icon injected successfully.".

Definition noPathMsg : console :=
  Warn "Swym Scaler: No <path> found in reference icon. Cannot apply path-based scaling.".

Definition sizesMsg : console :=
  Warn "Swym Scaler: Could not determine widths/heights for scaling. Check getBoundingClientRect/getBBox.".

(** The host reads a selector as a type selector. *)
Definition typeSelector (h : Host) (name : string) : Prop :=
  exists test,
    compileSelector h name = Some test
    /\ forall anc e, test anc e = (toLowerCase (tagName e) =? name)%string.

(** A simple selector that does not name the [transform] attribute. *)
Definition avoidsTransform (s : simple) : Prop :=
  match s with
  | TypeSel _ => True
  | HasAttr k | AttrContains k _ => k <> "transform"
  end.

(** An entry of [walk] under further ancestors, and the test of
    [nodeById]. *)
Definition liftAnc (anc : list elem) (ae : list elem * elem)
  : list elem * elem :=
  (fst ae ++ anc, snd ae).

Definition hasNid (n : nat) (ae : list elem * elem) : bool :=
  Nat.eqb (nid (snd ae)) n.

(** A piece of a [viewBox] value: not empty, without white space and
    without comma. *)
Definition piece (t : string) : Prop :=
  t <> ""
  /\ Forall (fun c => isJsWs c = false /\ Nat.eqb (code c) 44%nat = false)
            (chars t).

(** A separator of the pieces: one comma, or a run of white space. *)
Definition separator (s : string) : Prop :=
  s = "," \/ (s <> "" /\ Forall (fun c => isJsWs c = true) (chars s)).

End Observe.
Export Observe.

(* ================================================================== *)
(** ** A host and documents to run the model on *)

Module Sample.

Local Open Scope Z_scope.

Definition isDigit (c : ascii) : bool :=
  ((48 <=? code c) && (code c <=? 57))%nat.

Definition digit (c : ascii) : Z := Z.of_nat (code c) - 48.

(** The value of the digits [s] starts with, after [acc]; [seen] tells
    that a digit was read. *)
Fixpoint leadingDigits (seen : bool) (acc : Z) (s : string) : option Z :=
  match s with
  | EmptyString => if seen then Some acc else None
  | String c r =>
      if isDigit c then leadingDigits true (10 * acc + digit c) r
      else if seen then Some acc else None
  end.

Fixpoint allDigits (s : string) : bool :=
  match s with
  | EmptyString => true
  | String c r => isDigit c && allDigits r
  end.

(** [Number(s)] on unsigned decimal integers; the empty string is 0. *)
Definition sampleToNumber (s : string) : jsnum :=
  if allDigits s
  then match leadingDigits true 0 s with
       | Some z => Fin (inject_Z z)
       | None => NaN
       end
  else NaN.

(** [parseFloat(s)] on strings that start with an unsigned integer. *)
Definition sampleParseFloat (s : string) : jsnum :=
  match leadingDigits false 0 s with
  | Some z => Fin (inject_Z z)
  | None => NaN
  end.

Definition digitChar (d : Z) : string :=
  String (ascii_of_nat (Z.to_nat (48 + d))) "".

Fixpoint natDigits (fuel : nat) (n : Z) : string :=
  match fuel with
  | O => ""
  | S f => if n <? 10 then digitChar n
           else (natDigits f (n / 10) ++ digitChar (n mod 10))%string
  end.

(** Decimal notation with at most three decimals. *)
Definition sampleNumToString (a : jsnum) : string :=
  match a with
  | NaN => "NaN"
  | PInf => "Infinity"
  | NInf => "-Infinity"
  | Fin q =>
      let t := Qfloor (Qabs q * 1000) in
      let ip := t / 1000 in
      let fp := t mod 1000 in
      let d1 := fp / 100 in
      let d2 := (fp / 10) mod 10 in
      let d3 := fp mod 10 in
      let frac :=
        if negb (d3 =? 0)
        then (digitChar d1 ++ digitChar d2 ++ digitChar d3)%string
        else if negb (d2 =? 0) then (digitChar d1 ++ digitChar d2)%string
        else if negb (d1 =? 0) then digitChar d1
        else "" in
      ((if Qltb q 0 then "-" else "")
       ++ natDigits 40 ip
       ++ (if isEmpty frac then "" else "." ++ frac))%string
  end.

Definition tableGet {A : Type} (t : list (nat * A)) (n : nat) : option A :=
  option_map snd (find (fun kv => Nat.eqb (fst kv) n) t).

(** A selector is understood when it is a bare element name. *)
Definition sampleCompile (s : string)
  : option (list elem -> elem -> bool) :=
  if includes " " s || includes "[" s then None
  else Some (fun _ e => (toLowerCase (tagName e) =? s)%string).

(** A host whose measurements are read from tables indexed by node. *)
Definition tableHost (rects bboxes : list (nat * box))
           (styles : list (nat * list (string * string))) : Host :=
  {| compileSelector := sampleCompile;
     getBBox := fun _ n => tableGet bboxes n;
     getBoundingClientRect := fun _ n => tableGet rects n;
     getComputedStyle := fun _ n =>
       option_map (fun decls name => orEmpty (lookup name decls))
                  (tableGet styles n);
     toNumber := sampleToNumber;
     parseFloat := sampleParseFloat;
     numToString := sampleNumToString |}.

Definition sized (w h : Z) : box :=
  Box (Fin 0) (Fin 0) (Fin (inject_Z w)) (Fin (inject_Z h)).

Local Open Scope nat_scope.

(** A header whose cart control is a custom element holding an svg icon. *)
Definition themeCart : elem :=
  Elem 2 "CART-DRAWER-COMPONENT"
    [ ("class", "header__icon header__icon--cart  Cart-Toggle link");
      ("data-cart-status", "empty") ]
    [] None
    [ Elem 3 "svg"
        [("class", "icon icon-cart"); ("viewBox", "0 0 40 40")]
        [] None
        [ Elem 4 "path" [("d", "M0 0h40v40z")] [] None [] ] ].

Definition themeHeader : elem :=
  Elem 1 "HEADER" [("class", "header")] [] None [themeCart].

Definition themeDoc : elem := Elem 0 "HTML" [] [] None [themeHeader].

(** The nodes [inject] creates in [themeDoc]: the clone is 7, the heart
    icon 10 and its path 11; the reference path is 4. *)
Definition themeHost : Host :=
  tableHost
    [ (3, sized 22 22); (4, sized 20 20);
      (10, sized 24 24); (11, sized 18 16) ]
    []
    [ (11, [("stroke-width", "2px")]) ].

(** A header whose cart control is a link without any icon. *)
Definition linkAnchor : elem :=
  Elem 2 "A"
    [ ("href", "/cart"); ("class", "site-nav__link cart-link") ]
    [] None
    [ Elem 3 "SPAN" [("id", "cart-count")] [] None [] ].

Definition linkNav : elem := Elem 1 "NAV" [] [] None [linkAnchor].

Definition linkDoc : elem := Elem 0 "HTML" [] [] None [linkNav].

Definition noLayout : Host := tableHost [] [] [].

(** Two icons side by side: the reference icon is 1 (path 2), the new icon
    is 3 (path 4, already rotated) and declares [viewBox]. *)
Definition iconsDoc (viewBox : string) : elem :=
  Elem 0 "DIV" [] [] None
    [ Elem 1 "svg" [("viewBox", "0 0 20 20")] [] None
        [ Elem 2 "path" [("d", "M0 0h20v20z")] [] None [] ];
      Elem 3 "svg" [("viewBox", viewBox)] [] None
        [ Elem 4 "path" [("d", "M0 0h10v10z"); ("transform", "rotate(45)")]
            [] None [] ] ].


(** The new path is 16 by 16 in a box of 24 by 24. *)
Definition squareBoxHost : Host :=
  tableHost
    [ (1, sized 20 20); (2, sized 20 20); (3, sized 24 24); (4, sized 16 16) ]
    []
    [ (4, [("stroke-width", "2px")]) ].

(** The bounding rectangle of the new path cannot be read; its geometry
    box is 10 by 10 at (2, 2). *)
Definition noRectHost : Host :=
  tableHost
    [ (1, sized 20 20); (2, sized 20 20); (3, sized 24 24) ]
    [ (4, Box (Fin 2) (Fin 2) (Fin 10) (Fin 10)) ]
    [].

(** A header whose cart control is a link holding an image. *)
Definition imgAnchor : elem :=
  Elem 2 "A"
    [ ("href", "/cart"); ("class", "header__cart") ]
    [] None
    [ Elem 3 "IMG" [("src", "/cart.png"); ("class", "cart-img")] [] None [] ].

Definition imgHeader : elem := Elem 1 "HEADER" [] [] None [imgAnchor].

Definition imgDoc : elem := Elem 0 "HTML" [] [] None [imgHeader].

End Sample.

(* ================================================================== *)
(** * Properties *)

Import Sample.

Local Open Scope nat_scope.

(* ------------------------------------------------------------------ *)
(** ** Numbers *)














(* ------------------------------------------------------------------ *)
(** ** Lists *)

Lemma find_map {A B : Type} (p : B -> bool) (m : A -> B) (l : list A) :
  find p (map m l) = option_map m (find (fun x => p (m x)) l).
Proof.
  induction l as [|a l IH]; [reflexivity|]. simpl.
  destruct (p (m a)); [reflexivity|exact IH].
Qed.

Lemma find_app {A : Type} (p : A -> bool) (l1 l2 : list A) :
  find p (l1 ++ l2)
  = match find p l1 with Some x => Some x | None => find p l2 end.
Proof.
  induction l1 as [|a l IH]; [reflexivity|]. simpl.
  destruct (p a); [reflexivity|exact IH].
Qed.

Lemma find_none_iff {A : Type} (p : A -> bool) (l : list A) :
  find p l = None <-> forall x, In x l -> p x = false.
Proof.
  split.
  - intros H x Hx. now apply (find_none p l H).
  - induction l as [|a l IH]; [reflexivity|]. intros H. simpl.
    rewrite (H a (or_introl eq_refl)). apply IH. intros x Hx.
    apply H. now right.
Qed.

Lemma find_ext_in {A : Type} (p q : A -> bool) (l : list A) :
  (forall x, In x l -> p x = q x) -> find p l = find q l.
Proof.
  induction l as [|a l IH]; intros H; [reflexivity|]. simpl.
  rewrite (H a (or_introl eq_refl)). destruct (q a); [reflexivity|].
  apply IH. intros x Hx. apply H. now right.
Qed.

Lemma flat_map_map {A B C : Type} (f : B -> list C) (g : A -> B) l :
  flat_map f (map g l) = flat_map (fun x => f (g x)) l.
Proof.
  induction l as [|a l IH]; [reflexivity|]. simpl. now rewrite IH.
Qed.

Lemma map_flat_map {A B C : Type} (f : A -> list B) (g : B -> C) l :
  map g (flat_map f l) = flat_map (fun x => map g (f x)) l.
Proof.
  induction l as [|a l IH]; [reflexivity|]. simpl.
  now rewrite map_app, IH.
Qed.

Lemma flat_map_ext_Forall {A B : Type} (f g : A -> list B) l :
  Forall (fun x => f x = g x) l -> flat_map f l = flat_map g l.
Proof.
  induction 1 as [|a l E _ IH]; [reflexivity|]. simpl. now rewrite E, IH.
Qed.

Lemma filter_id {A : Type} (p : A -> bool) (l : list A) :
  (forall x, In x l -> p x = true) -> filter p l = l.
Proof.
  induction l as [|a l IH]; intros H; simpl; [reflexivity|].
  rewrite (H a (or_introl eq_refl)). f_equal. apply IH.
  intros x Hx. apply H. now right.
Qed.

Lemma Forall_filter {A : Type} (P : A -> Prop) (p : A -> bool) l :
  Forall P l -> Forall P (filter p l).
Proof.
  rewrite !Forall_forall. intros H x Hx. apply H.
  now apply filter_In in Hx.
Qed.


Lemma count_app {A : Type} (p : A -> bool) (l1 l2 : list A) :
  count p (l1 ++ l2) = count p l1 + count p l2.
Proof. unfold count. now rewrite filter_app, length_app. Qed.

Lemma count_zero {A : Type} (p : A -> bool) (l : list A) :
  count p l = 0 <-> forall x, In x l -> p x = false.
Proof.
  unfold count. induction l as [|a l IH]; simpl.
  - split; [intros _ x []|reflexivity].
  - destruct (p a) eqn:E; simpl.
    + split; [discriminate|]. intros H.
      rewrite (H a (or_introl eq_refl)) in E. discriminate.
    + rewrite IH. split.
      * intros H x [<-|Hx]; [exact E|now apply H].
      * intros H x Hx. apply H. now right.
Qed.

Lemma count_cons {A : Type} (p : A -> bool) (a : A) (l : list A) :
  count p (a :: l) = (if p a then 1 else 0) + count p l.
Proof. unfold count. simpl. now destruct (p a). Qed.

(* ------------------------------------------------------------------ *)
(** ** Trees *)

Lemma elem_induction (P : elem -> Prop) :
  (forall n t a s o cs, Forall P cs -> P (Elem n t a s o cs)) ->
  forall e, P e.
Proof.
  intros H. fix IH 1. intros [n t a s o cs]. apply H.
  induction cs as [|c r IHr]; constructor; [apply IH | exact IHr].
Qed.

Lemma descendants_eq (e : elem) :
  descendants e = flat_map flatten (children e).
Proof. destruct e. reflexivity. Qed.

Lemma count_flatten (p : elem -> bool) (e : elem) :
  count p (flatten e) = (if p e then 1 else 0) + count p (descendants e).
Proof. apply count_cons. Qed.

(** A change of nodes that keeps the child lists commutes with the
    enumeration of the tree. *)
Lemma flatten_mapTree (g : elem -> elem) :
  (forall x, children (g x) = children x) ->
  forall e, flatten (mapTree g e) = map (mapTree g) (flatten e).
Proof.
  intros Hg. induction e as [n t a s o cs IH] using elem_induction.
  unfold flatten at 1. rewrite descendants_eq.
  cbn [mapTree children withChildren]. rewrite Hg. cbn [children].
  unfold flatten at 2. cbn [map]. f_equal.
  rewrite descendants_eq. unfold withChildren. cbn [children].
  rewrite flat_map_map, map_flat_map. now apply flat_map_ext_Forall.
Qed.

Lemma flatten_cloneNode (base : nat) (e : elem) :
  flatten (cloneNode base e) = map (cloneNode base) (flatten e).
Proof.
  induction e as [n t a s o cs IH] using elem_induction.
  unfold flatten. rewrite !descendants_eq. cbn [cloneNode children map].
  f_equal. rewrite flat_map_map, map_flat_map.
  now apply flat_map_ext_Forall.
Qed.

Lemma walk_snd (e : elem) : forall anc, map snd (walk anc e) = flatten e.
Proof.
  induction e as [n t a s o cs IH] using elem_induction. intros anc.
  unfold flatten. rewrite descendants_eq. cbn [walk map snd children].
  f_equal. rewrite map_flat_map. apply flat_map_ext_Forall.
  eapply Forall_impl; [|exact IH]. intros c Hc. apply Hc.
Qed.

Lemma flatten_sub (c : elem) :
  forall e, In c (flatten e) -> incl (flatten c) (flatten e).
Proof.
  induction e as [n t a s o cs IH] using elem_induction.
  intros [<-|Hin]; [apply incl_refl|].
  rewrite descendants_eq in Hin. cbn [children] in Hin.
  apply in_flat_map in Hin. destruct Hin as (x & Hx & Hin).
  rewrite Forall_forall in IH. intros y Hy. right.
  rewrite descendants_eq. cbn [children]. apply in_flat_map.
  exists x. split; [exact Hx|]. now apply (IH x Hx Hin).
Qed.

Lemma walk_proper_descendant doc test p anc cart :
  find (fun ae => test (fst ae) (snd ae)) (walk [] doc)
  = Some (p :: anc, cart) ->
  In cart (descendants doc).
Proof.
  intros H. apply find_some in H. destruct H as [Hin _].
  destruct doc as [n t a s o cs]. cbn [walk] in Hin.
  destruct Hin as [Hin|Hin]; [discriminate|].
  apply in_flat_map in Hin. destruct Hin as (c & Hc & Hin).
  rewrite descendants_eq. cbn [children]. apply in_flat_map.
  exists c. split; [exact Hc|]. rewrite <- (walk_snd c [Elem n t a s o cs]).
  apply in_map_iff. now exists (p :: anc, cart).
Qed.

Lemma walk_node doc test anc cart :
  find (fun ae => test (fst ae) (snd ae)) (walk [] doc) = Some (anc, cart) ->
  In cart (flatten doc).
Proof.
  intros H. apply find_some in H. destruct H as [Hin _].
  rewrite <- (walk_snd doc []). apply in_map_iff. now exists (anc, cart).
Qed.

Lemma matches_shallow (sel : selector) : shallow (matches sel).
Proof. intros e cs. reflexivity. Qed.

Lemma hasId_shallow (id : string) : shallow (hasId id).
Proof. intros e cs. reflexivity. Qed.

(* ------------------------------------------------------------------ *)
(** ** Insertion and replacement *)

Lemma splice_eq ref put e :
  splice ref put e
  = option_map (withChildren e)
               (spliceList ref put (splice ref put) (children e)).
Proof. destruct e. reflexivity. Qed.

(** Where a splice succeeds it rewrites one descendant [c] of identity
    [ref]; the nodes counted by a shallow test change accordingly. *)
Lemma splice_count (ref : nat) (put : elem -> list elem)
      (P : elem -> bool) :
  shallow P ->
  forall e e', splice ref put e = Some e' ->
  P e' = P e /\
  exists c, nid c = ref /\ In c (descendants e)
    /\ count P (descendants e') + count P (flatten c)
       = count P (descendants e) + count P (flat_map flatten (put c)).
Proof.
  intros HP. induction e as [n t a s o cs IH] using elem_induction.
  intros e'. rewrite splice_eq. cbn [children].
  destruct (spliceList ref put (splice ref put) cs) as [cs'|] eqn:E;
    [|discriminate].
  cbn [option_map]. intros [= <-]. split; [apply HP|].
  rewrite !descendants_eq. unfold withChildren. cbn [children].
  clear n t a s o. revert cs' E.
  induction cs as [|c r IHr]; intros cs' E; [discriminate|].
  inversion IH as [|? ? IHc IHrest]; subst. cbn [spliceList] in E.
  destruct (nid c =? ref) eqn:Eid.
  - injection E as <-. exists c. apply Nat.eqb_eq in Eid.
    split; [exact Eid|]. split; [cbn; now left|].
    cbn [flat_map]. rewrite flat_map_app, !count_app. lia.
  - destruct (splice ref put c) as [c'|] eqn:Ec.
    + injection E as <-.
      destruct (IHc c' eq_refl) as (Hp & x & Hx & Hin & Hcount).
      exists x. split; [exact Hx|]. split.
      { cbn [flat_map]. apply in_or_app. left. now right. }
      cbn [flat_map]. rewrite !count_app.
      rewrite (count_flatten P c'), (count_flatten P c), Hp. lia.
    + destruct (spliceList ref put (splice ref put) r) as [r'|] eqn:Er;
        [|discriminate].
      injection E as <-.
      destruct (IHr IHrest r' eq_refl) as (x & Hx & Hin & Hcount).
      exists x. split; [exact Hx|]. split.
      { cbn [flat_map]. apply in_or_app. now right. }
      cbn [flat_map]. rewrite !count_app. lia.
Qed.

(** A splice at the identity of a descendant succeeds. *)
Lemma splice_some (ref : nat) (put : elem -> list elem) (x : elem) :
  forall e, In x (descendants e) -> nid x = ref ->
  exists e', splice ref put e = Some e'.
Proof.
  induction e as [n t a s o cs IH] using elem_induction.
  rewrite descendants_eq, splice_eq. cbn [children]. intros Hin Hx.
  enough (exists cs', spliceList ref put (splice ref put) cs = Some cs')
    as [cs' ->] by (eexists; reflexivity).
  clear n t a s o.
  induction cs as [|c r IHr]; [destruct Hin|].
  inversion IH as [|? ? IHc IHrest]; subst. cbn [spliceList].
  destruct (nid c =? nid x) eqn:Eid; [eexists; reflexivity|].
  cbn [flat_map] in Hin. apply in_app_or in Hin.
  destruct Hin as [[->|Hin]|Hin].
  - rewrite Nat.eqb_refl in Eid. discriminate.
  - destruct (IHc Hin eq_refl) as [c' ->]. eexists; reflexivity.
  - destruct (splice (nid x) put c); [eexists; reflexivity|].
    destruct (IHr IHrest Hin) as [r' ->]. eexists; reflexivity.
Qed.

(** After [insertBefore] into a tree where no node passes the shallow test
    [P], the first node that passes it is the first one of the new
    subtree. *)
Lemma insertBefore_find (P : elem -> bool) (new : elem) (ref : nat) :
  shallow P ->
  forall e e', (forall x, In x (flatten e) -> P x = false) ->
  insertBefore new ref e = Some e' ->
  find P (flatten e') = find P (flatten new).
Proof.
  intros HP. unfold insertBefore.
  induction e as [n t a s o cs IH] using elem_induction.
  intros e' Hno. rewrite splice_eq. cbn [children].
  destruct (spliceList ref _ _ cs) as [cs'|] eqn:E; [|discriminate].
  cbn [option_map]. intros [= <-].
  unfold flatten at 1. cbn [find]. rewrite HP.
  rewrite (Hno _ (or_introl eq_refl)).
  assert (Hd : forall x, In x (flat_map flatten cs) -> P x = false).
  { intros x Hx. apply Hno. right. now rewrite descendants_eq. }
  rewrite descendants_eq. unfold withChildren. cbn [children].
  clear Hno n t a s o. revert cs' E.
  induction cs as [|c r IHr]; intros cs' E; [discriminate|].
  inversion IH as [|? ? IHc IHrest]; subst. cbn [spliceList] in E.
  assert (Hc : forall x, In x (flatten c) -> P x = false).
  { intros x Hx. apply Hd. cbn [flat_map]. apply in_or_app. now left. }
  assert (Hr : forall x, In x (flat_map flatten r) -> P x = false).
  { intros x Hx. apply Hd. cbn [flat_map]. apply in_or_app. now right. }
  destruct (nid c =? ref).
  - injection E as <-. cbn [app flat_map]. rewrite find_app.
    destruct (find P (flatten new)); [reflexivity|].
    apply find_none_iff. exact Hd.
  - destruct (splice ref _ c) as [c'|] eqn:Ec.
    + injection E as <-. cbn [flat_map]. rewrite find_app.
      rewrite (IHc c' Hc eq_refl).
      destruct (find P (flatten new)) eqn:En; [reflexivity|].
      now apply find_none_iff.
    + destruct (spliceList ref _ _ r) as [r'|] eqn:Er; [|discriminate].
      injection E as <-. cbn [flat_map]. rewrite find_app.
      rewrite (proj2 (find_none_iff P (flatten c)) Hc).
      now apply IHr.
Qed.

(* ------------------------------------------------------------------ *)
(** ** Attribute lists *)

Lemma lookup_assign_same name v l : lookup name (assign name v l) = Some v.
Proof.
  induction l as [|[k w] l IH]; simpl.
  - now rewrite String.eqb_refl.
  - destruct (k =? name)%string eqn:E; simpl; rewrite E; [reflexivity|exact IH].
Qed.

Lemma lookup_assign_other name other v l :
  name <> other -> lookup name (assign other v l) = lookup name l.
Proof.
  intros Hne. induction l as [|[k w] l IH]; simpl.
  - destruct (other =? name)%string eqn:E; [|reflexivity].
    apply String.eqb_eq in E. congruence.
  - destruct (k =? other)%string eqn:E; simpl.
    + apply String.eqb_eq in E. subst k.
      destruct (other =? name)%string eqn:E'; [|reflexivity].
      apply String.eqb_eq in E'. congruence.
    + destruct (k =? name)%string; [reflexivity|exact IH].
Qed.

Lemma lookup_unassign_other name other l :
  name <> other -> lookup name (unassign other l) = lookup name l.
Proof.
  intros Hne. induction l as [|[k w] l IH]; simpl; [reflexivity|].
  destruct (k =? other)%string eqn:E; simpl.
  - apply String.eqb_eq in E. subst k.
    destruct (other =? name)%string eqn:E'; [|exact IH].
    apply String.eqb_eq in E'. congruence.
  - destruct (k =? name)%string; [reflexivity|exact IH].
Qed.

Lemma lookup_unassign_same name l : lookup name (unassign name l) = None.
Proof.
  induction l as [|[k w] l IH]; simpl; [reflexivity|].
  destruct (k =? name)%string eqn:E; simpl; [exact IH|]. now rewrite E.
Qed.

(* ------------------------------------------------------------------ *)
(** ** Class tokens *)

Lemma chars_revStr (s acc : string) :
  chars (revStr acc s) = rev (chars s) ++ chars acc.
Proof.
  revert acc. induction s as [|c s IH]; intros acc; simpl; [reflexivity|].
  rewrite IH. simpl. now rewrite <- app_assoc.
Qed.

Lemma chars_inj (s t : string) : chars s = chars t -> s = t.
Proof.
  revert t. induction s as [|c s IH]; intros [|d t]; simpl; try discriminate.
  - reflexivity.
  - intros [= -> H]. f_equal. now apply IH.
Qed.

Lemma revStr_involutive (s : string) : revStr "" (revStr "" s) = s.
Proof.
  apply chars_inj. rewrite !chars_revStr. simpl.
  now rewrite !app_nil_r, rev_involutive.
Qed.

Lemma isEmpty_chars (s : string) : isEmpty s = true <-> chars s = [].
Proof. destruct s; simpl; split; congruence. Qed.

Lemma splitAsciiWs_tokens (s : string) : forall cur,
  Forall (fun c => isAsciiWs c = false) (chars cur) ->
  Forall token (splitAsciiWs cur s).
Proof.
  assert (Hemit : forall cur,
             Forall (fun c => isAsciiWs c = false) (chars cur) ->
             isEmpty cur = false -> token (revStr "" cur)).
  { intros cur Hc He. split.
    - intros E. apply (f_equal chars) in E. rewrite chars_revStr in E.
      simpl in E. rewrite app_nil_r in E.
      apply (f_equal (@rev ascii)) in E. rewrite rev_involutive in E.
      simpl in E. apply isEmpty_chars in E. congruence.
    - rewrite chars_revStr. simpl. rewrite app_nil_r.
      now apply Forall_rev. }
  induction s as [|c s IH]; intros cur Hc; simpl.
  - destruct (isEmpty cur) eqn:E; constructor; [now apply Hemit|constructor].
  - destruct (isAsciiWs c) eqn:Ews.
    + destruct (isEmpty cur) eqn:E; [apply IH; constructor|].
      constructor; [now apply Hemit|apply IH; constructor].
    + apply IH. simpl. now constructor.
Qed.

(** Reading the characters of a token pushes them on the piece in hand. *)
Lemma splitAsciiWs_push (t rest : string) : forall cur,
  Forall (fun c => isAsciiWs c = false) (chars t) ->
  splitAsciiWs cur (t ++ rest) = splitAsciiWs (revStr cur t) rest.
Proof.
  induction t as [|c t IH]; intros cur H; simpl; [reflexivity|].
  inversion H as [|? ? Hc Ht]; subst. rewrite Hc. now apply IH.
Qed.

Lemma revStr_nonempty (t : string) : t <> "" -> isEmpty (revStr "" t) = false.
Proof.
  intros H. destruct (isEmpty (revStr "" t)) eqn:E; [|reflexivity].
  apply isEmpty_chars in E. rewrite chars_revStr in E. simpl in E.
  rewrite app_nil_r in E. apply (f_equal (@rev ascii)) in E.
  rewrite rev_involutive in E. simpl in E. exfalso. apply H.
  now apply chars_inj.
Qed.

Lemma append_empty (t : string) : (t ++ "")%string = t.
Proof. induction t as [|c t IH]; simpl; [reflexivity|now rewrite IH]. Qed.

(** Parsing what the serializer wrote gives the tokens back. *)
Lemma split_serialize (l : list string) :
  Forall token l -> splitAsciiWs "" (serializeTokens l) = l.
Proof.
  induction 1 as [|t l [Hne Hws] Hl IH]; [reflexivity|].
  destruct l as [|u l].
  - cbn [serializeTokens]. rewrite <- (append_empty t) at 1.
    rewrite splitAsciiWs_push by assumption. simpl.
    now rewrite revStr_nonempty, revStr_involutive.
  - change (serializeTokens (t :: u :: l))
      with (t ++ " " ++ serializeTokens (u :: l))%string.
    rewrite splitAsciiWs_push by assumption.
    change (" " ++ serializeTokens (u :: l))%string
      with (String " " (serializeTokens (u :: l))).
    cbn [splitAsciiWs]. change (isAsciiWs " ") with true. cbv iota.
    now rewrite revStr_nonempty, revStr_involutive, IH.
Qed.

Lemma orderedSet_In (l : list string) (x : string) :
  In x (orderedSet l) -> In x l.
Proof.
  revert x. induction l as [|a l IH]; intros x; simpl; [tauto|].
  intros [->|H]; [now left|]. right. apply IH.
  now apply filter_In in H.
Qed.

Lemma orderedSet_NoDup (l : list string) : NoDup (orderedSet l).
Proof.
  induction l as [|a l IH]; simpl; constructor.
  - intros H. apply filter_In in H. destruct H as [_ H].
    now rewrite String.eqb_refl in H.
  - now apply NoDup_filter.
Qed.

Lemma orderedSet_id (l : list string) : NoDup l -> orderedSet l = l.
Proof.
  induction 1 as [|a l Hnotin _ IH]; simpl; [reflexivity|].
  rewrite IH. f_equal. apply filter_id. intros x Hx.
  destruct (x =? a)%string eqn:E; [|reflexivity].
  apply String.eqb_eq in E. subst x. contradiction.
Qed.

Lemma parseTokens_tokens (v : string) : Forall token (parseTokens v).
Proof.
  apply Forall_forall. intros x Hx. apply orderedSet_In in Hx.
  pose proof (splitAsciiWs_tokens v "" (Forall_nil _)) as H.
  rewrite Forall_forall in H. now apply H.
Qed.

Lemma parse_serialize (l : list string) :
  Forall token l -> NoDup l -> parseTokens (serializeTokens l) = l.
Proof.
  intros Ht Hn. unfold parseTokens. rewrite split_serialize by assumption.
  now apply orderedSet_id.
Qed.

Lemma classList_tokens (e : elem) :
  Forall token (classList e) /\ NoDup (classList e).
Proof.
  unfold classList. destruct (getAttribute "class" e).
  - split; [apply parseTokens_tokens|apply orderedSet_NoDup].
  - split; constructor.
Qed.

(** The class list after [classList.remove]: the tokens that were not
    named, in their order. *)
Lemma classList_remove_spec (tokens : list string) (e : elem) :
  classList (classList_remove tokens e)
  = filter (fun t => negb (existsb (String.eqb t) tokens)) (classList e).
Proof.
  unfold classList_remove.
  set (keep := filter _ (classList e)).
  assert (Hkeep : classList (setAttribute "class" (serializeTokens keep) e)
                  = keep).
  { unfold classList, getAttribute, setAttribute. cbn [attrs withAttrs].
    rewrite lookup_assign_same. destruct (classList_tokens e) as [Ht Hn].
    apply parse_serialize; [now apply Forall_filter|now apply NoDup_filter]. }
  destruct (getAttribute "class" e) eqn:E; [exact Hkeep|].
  destruct keep as [|k r] eqn:Ek; [|exact Hkeep].
  subst keep. unfold classList in *. rewrite E in *. reflexivity.
Qed.

Lemma existsb_eqb_filter (p : string -> bool) (l : list string) (t : string) :
  In t l -> existsb (String.eqb t) (filter p l) = p t.
Proof.
  intros Hin. destruct (p t) eqn:E.
  - apply existsb_exists. exists t. split; [|apply String.eqb_refl].
    apply filter_In. now split.
  - destruct (existsb _ _) eqn:Ex; [|reflexivity].
    apply existsb_exists in Ex. destruct Ex as (x & Hx & Heq).
    apply String.eqb_eq in Heq. subst x. apply filter_In in Hx.
    destruct Hx as [_ Hx]. congruence.
Qed.

Lemma classList_remove_where (p : string -> bool) (e : elem) :
  classList (classList_remove (filter p (classList e)) e)
  = filter (fun t => negb (p t)) (classList e).
Proof.
  rewrite classList_remove_spec. apply filter_ext_in. intros t Ht.
  now rewrite existsb_eqb_filter.
Qed.

Lemma classList_attrs (e e' : elem) :
  getAttribute "class" e' = getAttribute "class" e ->
  classList e' = classList e.
Proof. unfold classList. now intros ->. Qed.

Lemma classList_remove_shape (tokens : list string) (e : elem) :
  exists a, classList_remove tokens e = withAttrs e a
    /\ forall name, name <> "class" -> lookup name a = lookup name (attrs e).
Proof.
  unfold classList_remove.
  destruct (getAttribute "class" e), (filter _ (classList e));
    try (eexists; split; [reflexivity|];
         intros name Hn; now apply lookup_assign_other).
  exists (attrs e). split; [now destruct e|reflexivity].
Qed.

(* ------------------------------------------------------------------ *)
(** ** The write to one node *)

Lemma updateNode_root (n : nat) (v : string) (e : elem) :
  exists cs,
    updateNode n (setAttribute "transform" v) e
    = withChildren
        (if nid e =? n then setAttribute "transform" v e else e) cs.
Proof.
  destruct e as [k t a s o cs]. unfold updateNode. cbn [mapTree].
  cbn [withChildren nid]. destruct (k =? n); eexists; reflexivity.
Qed.

Lemma updateNode_nid (n : nat) (v : string) (e : elem) :
  nid (updateNode n (setAttribute "transform" v) e) = nid e.
Proof.
  destruct (updateNode_root n v e) as [cs ->]. now destruct (nid e =? n).
Qed.

Lemma updateNode_tagName (n : nat) (v : string) (e : elem) :
  tagName (updateNode n (setAttribute "transform" v) e) = tagName e.
Proof.
  destruct (updateNode_root n v e) as [cs ->]. now destruct (nid e =? n).
Qed.

(** Only the [transform] attribute can differ, and only on node [n]. *)
Lemma updateNode_attrs (n : nat) (v : string) (e : elem) :
  attrs (updateNode n (setAttribute "transform" v) e)
  = if nid e =? n then assign "transform" v (attrs e) else attrs e.
Proof.
  destruct (updateNode_root n v e) as [cs ->]. now destruct (nid e =? n).
Qed.

Lemma updateNode_getAttribute (n : nat) (v : string) (k : string) (e : elem) :
  k <> "transform" ->
  getAttribute k (updateNode n (setAttribute "transform" v) e)
  = getAttribute k e.
Proof.
  intros Hk. unfold getAttribute. rewrite updateNode_attrs.
  destruct (nid e =? n); [now apply lookup_assign_other|reflexivity].
Qed.

Lemma flatten_updateNode (n : nat) (v : string) (e : elem) :
  flatten (updateNode n (setAttribute "transform" v) e)
  = map (updateNode n (setAttribute "transform" v)) (flatten e).
Proof.
  unfold updateNode. apply flatten_mapTree.
  intros x. now destruct (nid x =? n).
Qed.

(** A tree without node [n] is left as it is. *)
Lemma updateNode_absent (n : nat) (v : string) (e : elem) :
  ~ In n (ids e) -> updateNode n (setAttribute "transform" v) e = e.
Proof.
  induction e as [k t a s o cs IH] using elem_induction.
  unfold ids, flatten. rewrite descendants_eq. cbn [map nid children].
  intros Hn.
  assert (Hk : (k =? n) = false).
  { apply Nat.eqb_neq. intros ->. apply Hn. now left. }
  assert (Hcs : map (updateNode n (setAttribute "transform" v)) cs = cs).
  { assert (Hin : forall c, In c cs -> ~ In n (ids c)).
    { intros c Hc Hin. apply Hn. right. apply in_map_iff.
      apply in_map_iff in Hin. destruct Hin as (x & Hx & Hin).
      exists x. split; [exact Hx|]. apply in_flat_map. now exists c. }
    clear Hn. induction cs as [|c r IHr]; [reflexivity|].
    inversion IH as [|? ? IHc IHrest]; subst. cbn [map]. f_equal.
    - apply IHc, Hin. now left.
    - apply IHr; [exact IHrest|]. intros x Hx. apply Hin. now right. }
  unfold updateNode in *. cbn [mapTree children].
  set (g := fun x => if nid x =? n then setAttribute "transform" v x else x)
    in *.
  change (map (mapTree g) cs) with (map (fun e => mapTree g e) cs).
  rewrite Hcs.
  cbn [withChildren nid tagName attrs inlineStyle onclick].
  now rewrite Hk.
Qed.

Lemma deref_updateNode (n : nat) (v : string) (doc : elem) (k : nat) :
  deref (updateNode n (setAttribute "transform" v) doc) (Some k)
  = option_map (updateNode n (setAttribute "transform" v)) (deref doc (Some k)).
Proof.
  unfold deref, nodeById.
  assert (E : forall (d : elem),
             option_map snd
               (find (fun ae => nid (snd ae) =? k) (walk [] d))
             = find (fun e => nid e =? k) (flatten d)).
  { intros d. rewrite <- (walk_snd d []).
    generalize (walk [] d). intros l.
    induction l as [|[a e] l IHl]; [reflexivity|]. cbn [map find snd].
    destruct (nid e =? k); [reflexivity|exact IHl]. }
  rewrite !E, flatten_updateNode, find_map. f_equal.
  apply find_ext_in. intros x _. now rewrite updateNode_nid.
Qed.

Lemma shell_updateNode n v (e : elem) :
  shell (updateNode n (setAttribute "transform" v) e)
  = if nid e =? n then shell (setAttribute "transform" v e) else shell e.
Proof.
  destruct (updateNode_root n v e) as [cs ->]. now destruct (nid e =? n).
Qed.

Lemma hasMarker_updateNode n v x :
  hasMarker (updateNode n (setAttribute "transform" v) x) = hasMarker x.
Proof.
  unfold hasMarker, hasId. now rewrite updateNode_getAttribute.
Qed.


Lemma sameButTransform_count (P : elem -> bool) (e e' : elem) :
  (forall n v x, P (updateNode n (setAttribute "transform" v) x) = P x) ->
  sameButTransform e e' -> countWhere P e' = countWhere P e.
Proof.
  intros HP [->|(n & v & ->)]; [reflexivity|].
  unfold countWhere, count. rewrite flatten_updateNode.
  generalize (flatten e). intros l.
  induction l as [|a l IH]; [reflexivity|]. cbn [map filter].
  rewrite HP. destruct (P a); cbn [List.length]; now rewrite IH.
Qed.

(** The element found by its marker after a write to a [transform]. *)
Lemma sameButTransform_inserted (doc doc' w : elem) :
  sameButTransform doc doc' -> inserted doc = Some w ->
  exists w', inserted doc' = Some w' /\ sameButTransform w w'.
Proof.
  intros [->|(n & v & ->)] H.
  - exists w. split; [exact H|now left].
  - exists (updateNode n (setAttribute "transform" v) w).
    split; [|right; eauto].
    unfold inserted, getElementById in *. fold (flatten doc) in H.
    fold (flatten (updateNode n (setAttribute "transform" v) doc)).
    rewrite flatten_updateNode, find_map.
    rewrite (find_ext_in _ (hasId wishlistButtonId)); [now rewrite H|].
    intros x _. apply hasMarker_updateNode.
Qed.

(* ------------------------------------------------------------------ *)
(** ** The runs of the matcher *)

(** The run of the matcher on a measurement whose four sizes are truthy. *)
Lemma matchIconScale_measured h doc r s p m sv :
  measures h doc r s m ->
  truthy (refWidthPx m) = true -> truthy (heartWidthPx m) = true ->
  truthy (refHeightPx m) = true -> truthy (heartHeightPx m) = true ->
  svg (heart m) = Some sv ->
  let f := scaleOf h m p in
  let t := centeredScale h (fst (pivotIn h m sv)) (snd (pivotIn h m sv)) f in
  _matchIconScale h doc r s p = Ok (transformed m t doc, [LogScaled f t]).
Proof.
  intros (ri & hs & Hr & Hs & Hre & Hhe & Hri & Hhi & H1 & H2 & H3 & H4)
         T1 T2 T3 T4 Hsv f t.
  unfold _matchIconScale. rewrite Hr, Hs, Hre, Hhe, Hri, Hhi.
  cbn [bind]. rewrite H1, H2, H3, H4, T1, T2, T3, T4. cbn [negb orb].
  rewrite Hsv.
  subst f t. unfold scaleOf, strokeWidthOf, pivotIn, transformed, desiredOf.
  destruct (strokeOf h (cstyle (heart m))) as [sw ve]. cbn [fst snd].
  destruct (pivot h (getAttribute "viewBox" sv) (bbox (heart m))) as [cx cy].
  reflexivity.
Qed.


Lemma getIconInfo_some h doc e :
  (exists i, _getIconInfo h doc (Some e) = Ok (Some i))
  \/ _getIconInfo h doc (Some e) = Throw HostError.
Proof.
  unfold _getIconInfo. destruct (svgOf doc e) as [s|]; cbn [bind].
  - destruct (getBoundingClientRect h doc (nid s)); cbn [bind].
    + left. eexists. reflexivity.
    + now right.
  - left. eexists. reflexivity.
Qed.

Lemma matchIconScale_cases h doc r s p :
  (exists e, _matchIconScale h doc r s p = Throw e)
  \/ (exists msg, _matchIconScale h doc r s p = Ok (doc, [Warn msg]))
  \/ (exists m sv,
        measures h doc r s m
        /\ truthy (refWidthPx m) = true /\ truthy (heartWidthPx m) = true
        /\ truthy (refHeightPx m) = true /\ truthy (heartHeightPx m) = true
        /\ svg (heart m) = Some sv).
Proof.
  unfold _matchIconScale.
  destruct (deref doc r) as [ri|] eqn:Hr; [|right; left; eexists; reflexivity].
  destruct (deref doc s) as [hs|] eqn:Hs; [|right; left; eexists; reflexivity].
  destruct (querySelector pathSel ri) as [refEl|] eqn:Hre;
    [|right; left; eexists; reflexivity].
  destruct (querySelector pathSel hs) as [heartEl|] eqn:Hhe;
    [|right; left; eexists; reflexivity].
  destruct (getIconInfo_some h doc refEl) as [[ref Hri]|Hri];
    rewrite Hri; cbn [bind]; [|left; eexists; reflexivity].
  destruct (getIconInfo_some h doc heartEl) as [[heart Hhi]|Hhi];
    rewrite Hhi; cbn [bind]; [|left; eexists; reflexivity].
  destruct (renderedSize width ref) as [rw|] eqn:H1;
    [|right; left; eexists; reflexivity].
  destruct (renderedSize width heart) as [hw|] eqn:H2;
    [|right; left; eexists; reflexivity].
  destruct (renderedSize height ref) as [rh|] eqn:H3;
    [|right; left; eexists; reflexivity].
  destruct (renderedSize height heart) as [hh|] eqn:H4;
    [|right; left; eexists; reflexivity].
  destruct (truthy rw) eqn:T1; [|right; left; eexists; reflexivity].
  destruct (truthy hw) eqn:T2; [|right; left; eexists; reflexivity].
  destruct (truthy rh) eqn:T3; [|right; left; eexists; reflexivity].
  destruct (truthy hh) eqn:T4; [|right; left; eexists; reflexivity].
  cbn [negb orb].
  destruct (strokeOf h (cstyle heart)) as [sw ve].
  destruct (svg heart) as [sv|] eqn:Hsv;
    [|right; left; eexists; reflexivity].
  right; right.
  exists {| refEl := refEl; heartEl := heartEl; ref := ref; heart := heart;
            refWidthPx := rw; heartWidthPx := hw;
            refHeightPx := rh; heartHeightPx := hh |}, sv.
  repeat split; try assumption.
  exists ri, hs. cbn. repeat split; assumption.
Qed.

Lemma matchIconScale_doc h doc r s p doc' l :
  _matchIconScale h doc r s p = Ok (doc', l) ->
  doc' = doc
  \/ exists n v, doc' = updateNode n (setAttribute "transform" v) doc.
Proof.
  intros H.
  destruct (matchIconScale_cases h doc r s p)
    as [[e He]|[[msg Hm]|(m & sv & Hmeas & T1 & T2 & T3 & T4 & Hsv)]].
  - congruence.
  - left. congruence.
  - right. rewrite (matchIconScale_measured p Hmeas T1 T2 T3 T4 Hsv) in H.
    injection H as <- _. unfold transformed. eauto.
Qed.

Lemma measurementOf_measures h doc r s m :
  measurementOf h doc r s = Some m -> measures h doc r s m.
Proof.
  unfold measurementOf, measures.
  destruct (deref doc r) as [ri|]; [|discriminate].
  destruct (deref doc s) as [hs|]; [|discriminate].
  destruct (querySelector pathSel ri) as [re|] eqn:E1; [|discriminate].
  destruct (querySelector pathSel hs) as [he|] eqn:E2; [|discriminate].
  destruct (_getIconInfo h doc (Some re)) as [[ref|]|] eqn:E3;
    try discriminate.
  destruct (_getIconInfo h doc (Some he)) as [[heart|]|] eqn:E4;
    try discriminate.
  destruct (renderedSize width ref) eqn:E5; [|discriminate].
  destruct (renderedSize width heart) eqn:E6; [|discriminate].
  destruct (renderedSize height ref) eqn:E7; [|discriminate].
  destruct (renderedSize height heart) eqn:E8; [|discriminate].
  intros [= <-]. exists ri, hs. cbn. repeat split; assumption.
Qed.

(** The heart path is a node of the document. *)
Lemma measures_heartEl h doc r s m :
  measures h doc r s m -> In (heartEl m) (flatten doc).
Proof.
  intros (ri & hs & _ & Hs & _ & He & _).
  destruct s as [k|]; [|discriminate]. unfold deref in Hs.
  destruct (nodeById k doc) as [[anc e]|] eqn:En; [|discriminate].
  injection Hs as <-. unfold nodeById in En. apply find_some in En.
  destruct En as [Hin _].
  assert (Hhs : In e (flatten doc)).
  { rewrite <- (walk_snd doc []). apply in_map_iff. now exists (anc, e). }
  apply (flatten_sub Hhs). right. unfold querySelector in He.
  apply find_some in He. tauto.
Qed.

Lemma pivot_cases (h : Host) (vb : option string) (bb : option box) :
  pivot h vb bb
  = match vb with
    | Some v =>
        if isEmpty v then Spec.pivotOf None bb
        else match Spec.declaredViewport h v with
             | Some vp => Spec.pivotOf (Some vp) bb
             | None => (Fin 12, Fin 12)
             end
    | None => Spec.pivotOf None bb
    end.
Proof.
  unfold pivot, Spec.pivotOf, Spec.declaredViewport.
  destruct vb as [v|]; [|now destruct bb].
  destruct (isEmpty v); [now destruct bb|].
  destruct (map (toNumber h) (splitViewBox false "" v))
    as [|a [|b [|c [|d [|e l]]]]]; try reflexivity.
  cbn [forallb]. destruct (isNaN a), (isNaN b), (isNaN c), (isNaN d);
    reflexivity.
Qed.

(* ------------------------------------------------------------------ *)
(** ** The clone and the heart icon *)

Lemma modifyClone_shape (c : elem) :
  exists (b : bool) a2 s o,
    let w1 := setAttribute "id" wishlistButtonId c in
    classList_remove (filter isCartClass (classList w1)) w1 = withAttrs w1 a2
    /\ modifyClone c
       = Elem (nid c) (tagName c)
              (assign "aria-label" wishlistAriaLabel
                 (let a5 := if b then unassign "href" a2 else a2 in
                  if (tagName c =? "A")%string
                  then assign "href" wishlistPageUrl a5 else a5))
              s o (map sanitizeDescendant (children c)).
Proof.
  unfold modifyClone. cbv zeta.
  set (w1 := setAttribute "id" wishlistButtonId c).
  destruct (classList_remove_shape (filter isCartClass (classList w1)) w1)
    as (a2 & -> & _).
  unfold stripWhere, mapDescendants.
  match goal with |- context [if matches aHrefCart ?w then _ else _] =>
    exists (matches aHrefCart w); destruct (matches aHrefCart w) end;
  exists a2; cbn [withAttrs withChildren setAttribute removeAttribute
                  nid tagName attrs inlineStyle onclick children w1];
  destruct (tagName c =? "A")%string;
  cbn [withAttrs withChildren setAttribute removeAttribute
                  nid tagName attrs inlineStyle onclick children];
  do 2 eexists; (split; [reflexivity|]);
  unfold sanitizeDescendant; rewrite !map_map; reflexivity.
Qed.

Lemma stripIf_children sel name x : children (stripIf sel name x) = children x.
Proof. unfold stripIf. now destruct (matches sel x). Qed.

(** The node a strip leaves, seen without its children. *)
Lemma mapTree_stripIf_root sel name (e : elem) :
  exists cs,
    mapTree (stripIf sel name) e
    = withChildren (if matches sel e then removeAttribute name e else e) cs.
Proof.
  destruct e as [n t a s o cs]. cbn [mapTree]. unfold stripIf.
  rewrite matches_shallow. destruct (matches sel _); eexists; reflexivity.
Qed.

Lemma flatten_sanitizeDescendant (d : elem) :
  flatten (sanitizeDescendant d) = map sanitizeDescendant (flatten d).
Proof.
  unfold sanitizeDescendant.
  rewrite !flatten_mapTree by apply stripIf_children.
  now rewrite !map_map.
Qed.

(** Sanitizing keeps the name and the class of a node, and gives it no
    identifier it did not have. *)
Lemma sanitizeDescendant_root (d : elem) :
  tagName (sanitizeDescendant d) = tagName d
  /\ getAttribute "class" (sanitizeDescendant d) = getAttribute "class" d
  /\ getAttribute "transform" (sanitizeDescendant d)
     = getAttribute "transform" d
  /\ (getAttribute "id" (sanitizeDescendant d) = getAttribute "id" d
      \/ getAttribute "id" (sanitizeDescendant d) = None).
Proof.
  unfold sanitizeDescendant.
  destruct (mapTree_stripIf_root [[AttrContains "id" "cart"]] "id" d)
    as [cs1 ->].
  set (d1 := withChildren _ cs1).
  destruct (mapTree_stripIf_root [[HasAttr "data-cart-status"]]
              "data-cart-status" d1) as [cs2 ->].
  set (d2 := withChildren _ cs2).
  destruct (mapTree_stripIf_root aHrefCart "href" d2) as [cs3 ->].
  assert (H1 : tagName d1 = tagName d
               /\ getAttribute "class" d1 = getAttribute "class" d
               /\ getAttribute "transform" d1 = getAttribute "transform" d
               /\ (getAttribute "id" d1 = getAttribute "id" d
                   \/ getAttribute "id" d1 = None)).
  { subst d1. destruct (matches _ d); unfold getAttribute;
      cbn [withChildren removeAttribute withAttrs attrs tagName].
    - rewrite !lookup_unassign_other by discriminate.
      rewrite lookup_unassign_same. auto.
    - auto. }
  assert (H2 : tagName d2 = tagName d1
               /\ forall k, k <> "data-cart-status" ->
                            getAttribute k d2 = getAttribute k d1).
  { subst d2. destruct (matches _ d1); unfold getAttribute;
      cbn [withChildren removeAttribute withAttrs attrs tagName];
      split; try reflexivity.
    intros k Hk. now apply lookup_unassign_other. }
  destruct H1 as (T1 & C1 & R1 & I1), H2 as (T2 & K2).
  assert (H3 : forall k, k <> "href" ->
               getAttribute k (withChildren
                 (if matches aHrefCart d2 then removeAttribute "href" d2
                  else d2) cs3) = getAttribute k d2).
  { intros k Hk. destruct (matches _ d2); unfold getAttribute;
      cbn [withChildren removeAttribute withAttrs attrs tagName];
      [now apply lookup_unassign_other|reflexivity]. }
  split.
  { destruct (matches aHrefCart d2);
      cbn [withChildren removeAttribute withAttrs tagName]; congruence. }
  rewrite !H3, !K2 by discriminate. auto.
Qed.

Lemma cloneNode_root base (e : elem) :
  nid (cloneNode base e) = base + nid e
  /\ tagName (cloneNode base e) = tagName e
  /\ attrs (cloneNode base e) = attrs e.
Proof. now destruct e. Qed.

Lemma children_cloneNode base (e : elem) :
  children (cloneNode base e) = map (cloneNode base) (children e).
Proof. now destruct e. Qed.

(** The descendants of the clone after step 4, from those of the anchor. *)
Lemma descendants_modifyClone base (cart : elem) :
  descendants (modifyClone (cloneNode base cart))
  = map (fun d => sanitizeDescendant (cloneNode base d)) (descendants cart).
Proof.
  destruct (modifyClone_shape (cloneNode base cart))
    as (b & a2 & s & o & _ & ->).
  rewrite !descendants_eq. cbn [children].
  rewrite children_cloneNode, map_map, flat_map_map, map_flat_map.
  apply flat_map_ext_Forall, Forall_forall. intros c _.
  now rewrite flatten_sanitizeDescendant, flatten_cloneNode, map_map.
Qed.

Lemma matches_tag_class (e e' : elem) :
  tagName e' = tagName e -> getAttribute "class" e' = getAttribute "class" e ->
  matches iconSelector e' = matches iconSelector e.
Proof.
  intros Ht Hc. unfold matches, iconSelector.
  cbn [existsb forallb matchSimple]. now rewrite Ht, Hc.
Qed.

(** No icon under the anchor, no icon under the clone. *)
Lemma querySelector_modifyClone base (cart : elem) :
  querySelector iconSelector cart = None ->
  querySelector iconSelector (modifyClone (cloneNode base cart)) = None.
Proof.
  unfold querySelector. rewrite descendants_modifyClone, find_map.
  intros H. rewrite (find_ext_in _ (matches iconSelector)); [now rewrite H|].
  intros x _. destruct (sanitizeDescendant_root (cloneNode base x))
    as (Ht & Hc & _). destruct (cloneNode_root base x) as (_ & Ht' & Ha').
  apply matches_tag_class; [congruence|].
  rewrite Hc. unfold getAttribute. now rewrite Ha'.
Qed.

Lemma createHeartSvg_fresh base referenceIcon :
  exists hs p,
    createHeartSvg base referenceIcon = (Some hs, [])
    /\ nid hs = base /\ tagName hs = "svg"
    /\ flatten hs = [hs; p]
    /\ nid p = base + 1 /\ tagName p = "path"
    /\ getAttribute "transform" p = None
    /\ hasMarker hs = false /\ hasMarker p = false
    /\ getAttribute "viewBox" hs = Some "0 0 24 24"
    /\ getAttribute "class" hs
       = option_map (fun r => toDOMString (getAttribute "class" r))
                    referenceIcon.
Proof.
  destruct referenceIcon as [r|]; unfold createHeartSvg;
    cbn [heartIconSVG hd_error]; do 2 eexists;
    (split; [reflexivity|]); repeat split.
Qed.

Lemma modifyClone_root (c : elem) :
  nid (modifyClone c) = nid c
  /\ tagName (modifyClone c) = tagName c
  /\ hasMarker (modifyClone c) = true
  /\ classList (modifyClone c)
     = filter (fun t => negb (isCartClass t)) (classList c)
  /\ ((tagName c =? "A")%string = true ->
      getAttribute "href" (modifyClone c) = Some wishlistPageUrl).
Proof.
  destruct (modifyClone_shape c) as (b & a2 & s & o & Hrem & ->).
  cbv zeta in Hrem. set (w1 := setAttribute "id" wishlistButtonId c) in *.
  destruct (classList_remove_shape (filter isCartClass (classList w1)) w1)
    as (a & Ha & Hother).
  assert (a = a2) as -> by (rewrite Ha in Hrem; now injection Hrem).
  clear Ha.
  assert (Hpass : forall k, k <> "aria-label" -> k <> "href" ->
            lookup k (assign "aria-label" wishlistAriaLabel
                        (let a5 := if b then unassign "href" a2 else a2 in
                         if (tagName c =? "A")%string
                         then assign "href" wishlistPageUrl a5 else a5))
            = lookup k a2).
  { intros k K1 K2. rewrite lookup_assign_other by assumption. cbv zeta.
    destruct (tagName c =? "A")%string;
      [rewrite lookup_assign_other by assumption|];
      destruct b; try reflexivity; now apply lookup_unassign_other. }
  split; [reflexivity|]. split; [reflexivity|]. split; [|split].
  - unfold hasMarker, hasId, getAttribute. cbn [attrs].
    rewrite Hpass, Hother by discriminate. subst w1.
    cbn [setAttribute withAttrs attrs]. rewrite lookup_assign_same.
    apply String.eqb_refl.
  - unfold classList at 1. unfold getAttribute. cbn [attrs].
    rewrite Hpass by discriminate.
    change (match lookup "class" a2 with
            | Some v => parseTokens v | None => [] end)
      with (classList (withAttrs w1 a2)).
    rewrite <- Hrem, classList_remove_where. f_equal.
    apply classList_attrs. subst w1. unfold getAttribute.
    cbn [setAttribute withAttrs attrs]. now apply lookup_assign_other.
  - intros Htag. unfold getAttribute. cbn [attrs].
    rewrite lookup_assign_other by discriminate. cbv zeta. rewrite Htag.
    apply lookup_assign_same.
Qed.

(** No marker under the anchor, no marker under the clone. *)
Lemma modifyClone_descendants_unmarked base (cart : elem) :
  (forall x, In x (descendants cart) -> hasMarker x = false) ->
  count hasMarker (descendants (modifyClone (cloneNode base cart))) = 0.
Proof.
  intros H. apply count_zero. rewrite descendants_modifyClone.
  intros x Hx. apply in_map_iff in Hx. destruct Hx as (d & <- & Hd).
  specialize (H d Hd). unfold hasMarker, hasId in *.
  destruct (sanitizeDescendant_root (cloneNode base d))
    as (_ & _ & _ & [-> | ->]); [|reflexivity].
  destruct (cloneNode_root base d) as (_ & _ & Ha).
  unfold getAttribute in *. now rewrite Ha.
Qed.

Lemma substituteIcon_root base w0 o r w hs logs :
  substituteIcon base w0 o r = (w, hs, logs) ->
  (exists cs, w = withChildren w0 cs)
  /\ (count hasMarker (descendants w0) = 0 ->
      count hasMarker (descendants w) = 0)
  /\ exists s r', hs = Some s /\ createHeartSvg base r' = (Some s, []).
Proof.
  unfold substituteIcon.
  assert (Hself : w0 = withChildren w0 (children w0)) by now destruct w0.
  assert (Happend : forall s p,
            flatten s = [s; p] -> hasMarker s = false ->
            hasMarker p = false ->
            count hasMarker (descendants w0) = 0 ->
            count hasMarker (descendants (appendChild s w0)) = 0).
  { intros s p Hfl M1 M2 H0. rewrite descendants_eq.
    unfold appendChild. cbn [withChildren children].
    rewrite flat_map_app, count_app. rewrite <- descendants_eq, H0.
    cbn [flat_map]. rewrite app_nil_r, Hfl, !count_cons, M1, M2.
    reflexivity. }
  destruct o as [o|], r as [r|].
  1: destruct (createHeartSvg_fresh base (Some r))
       as (s & p & E & _ & _ & Hfl & _ & _ & _ & M1 & M2 & _).
  2-4: destruct (createHeartSvg_fresh base None)
       as (s & p & E & _ & _ & Hfl & _ & _ & _ & M1 & M2 & _).
  all: rewrite E.
  - unfold replaceChild.
    destruct (splice (nid o) (fun _ => [s]) w0) as [w'|] eqn:Es;
      intros [= <- <- <-].
    + split; [|split; [|eauto]].
      * rewrite splice_eq in Es.
        destruct (spliceList _ _ _ _) as [cs|]; [|discriminate].
        injection Es as <-. eauto.
      * intros H0.
        destruct (@splice_count _ _ _ (hasId_shallow wishlistButtonId)
                                _ _ Es)
          as (_ & c & _ & _ & Hc).
        unfold hasMarker in *. cbn [flat_map] in Hc.
        rewrite app_nil_r, Hfl in Hc. rewrite H0 in Hc.
        rewrite !count_cons, M1, M2 in Hc. cbn in Hc. lia.
    + split; [eauto|]. split; [auto|eauto].
  - intros [= <- <- <-]. split; [unfold appendChild; eauto|].
    split; [now apply (Happend s p)|eauto].
  - intros [= <- <- <-]. split; [unfold appendChild; eauto|].
    split; [now apply (Happend s p)|eauto].
  - intros [= <- <- <-]. split; [unfold appendChild; eauto|].
    split; [now apply (Happend s p)|eauto].
Qed.

(* ------------------------------------------------------------------ *)
(** ** The runs of inject *)

(** The run of [inject] that reaches the insertion. *)
Lemma inject_inserts h doc sel p anc cart :
  isEmpty sel = false ->
  resolves h doc sel (p :: anc) cart ->
  inserted doc = None ->
  exists w hs logs doc1,
    substituteIcon (S (maxId doc) + S (maxId doc))
      (modifyClone (cloneNode (S (maxId doc)) cart))
      (querySelector iconSelector
         (modifyClone (cloneNode (S (maxId doc)) cart)))
      (querySelector iconSelector cart) = (w, hs, logs)
    /\ insertBefore w (nid cart) doc = Some doc1
    /\ sameButTransform doc1 (fst (inject h doc (Some sel))).
Proof.
  intros Hsel (test & Hc & Hf) Hno.
  unfold inject. cbn [orEmpty]. rewrite Hsel. unfold injectBody.
  rewrite Hc, Hf. unfold inserted in Hno. rewrite Hno. cbv zeta.
  destruct (substituteIcon _ _ _ _) as [[w hs] logs] eqn:Esub.
  destruct (@splice_some (nid cart) (fun c => [w; c]) cart doc
              (walk_proper_descendant _ _ Hf) eq_refl) as [doc1 Hins].
  fold (insertBefore w (nid cart) doc) in Hins. rewrite Hins.
  exists w, hs, logs, doc1. split; [reflexivity|]. split; [exact Hins|].
  destruct (querySelector iconSelector cart) as [r|], hs as [s|];
    try (left; reflexivity).
  destruct (_matchIconScale h doc1 _ _ None) as [[doc2 l]|e] eqn:Em;
    [|left; reflexivity].
  cbn [fst]. exact (matchIconScale_doc _ _ _ _ _ Em).
Qed.

Lemma inserted_none_count (doc : elem) :
  inserted doc = None <-> countWhere hasMarker doc = 0.
Proof.
  unfold inserted, getElementById, countWhere. fold (flatten doc).
  rewrite count_zero. apply find_none_iff.
Qed.

(** What the inserting run leaves in the document: the clone as step 5
    left it, up to the transform the matcher may write, found by its
    marker, and no other marked element. *)
Lemma inject_inserted h doc sel p anc cart :
  isEmpty sel = false ->
  resolves h doc sel (p :: anc) cart ->
  inserted doc = None ->
  exists w hs logs w',
    substituteIcon (S (maxId doc) + S (maxId doc))
      (modifyClone (cloneNode (S (maxId doc)) cart))
      (querySelector iconSelector
         (modifyClone (cloneNode (S (maxId doc)) cart)))
      (querySelector iconSelector cart) = (w, hs, logs)
    /\ inserted (fst (inject h doc (Some sel))) = Some w'
    /\ sameButTransform w w'
    /\ countWhere hasMarker (fst (inject h doc (Some sel))) = 1.
Proof.
  intros Hsel Hres Hno.
  destruct (inject_inserts Hsel Hres Hno)
    as (w & hs & logs & doc1 & Hsub & Hins & Hsame).
  destruct (substituteIcon_root _ _ _ _ Hsub) as ([cs Hw] & Hdesc & _).
  destruct (modifyClone_root (cloneNode (S (maxId doc)) cart))
    as (_ & _ & Hmark & _).
  assert (Hwmark : hasMarker w = true) by now rewrite Hw.
  assert (Hall : forall x, In x (flatten doc) -> hasMarker x = false).
  { apply find_none_iff. exact Hno. }
  assert (Hcart : forall x, In x (descendants cart) -> hasMarker x = false).
  { destruct Hres as (test & _ & Hf). intros x Hx. apply Hall.
    apply (flatten_sub (walk_node _ _ Hf)). now right. }
  assert (Hw1 : count hasMarker (flatten w) = 1).
  { rewrite count_flatten, Hwmark, Hdesc; [reflexivity|].
    now apply modifyClone_descendants_unmarked. }
  assert (Hdoc1 : inserted doc1 = Some w).
  { unfold inserted, getElementById. fold (flatten doc1).
    rewrite (@insertBefore_find _ _ _ (hasId_shallow wishlistButtonId)
                                _ _ Hall Hins).
    unfold flatten. cbn [find]. fold hasMarker. now rewrite Hwmark. }
  destruct (sameButTransform_inserted Hsame Hdoc1) as (w' & Hw' & Hww').
  exists w, hs, logs, w'. repeat split; try assumption.
  rewrite (sameButTransform_count hasMarker hasMarker_updateNode Hsame).
  unfold insertBefore in Hins.
  destruct (@splice_count _ _ _ (hasId_shallow wishlistButtonId) _ _ Hins)
    as (Hroot & c & _ & _ & Hc).
  fold hasMarker in Hroot, Hc. cbn [flat_map] in Hc.
  rewrite app_nil_r, count_app in Hc.
  apply inserted_none_count in Hno. unfold countWhere in *.
  rewrite count_flatten in Hno. rewrite count_flatten, Hroot. lia.
Qed.

(** A call either leaves the document as it was or leaves a marked element
    in it. *)
Lemma inject_unchanged_or_marked h doc sel :
  fst (inject h doc sel) = doc \/ inserted (fst (inject h doc sel)) <> None.
Proof.
  destruct sel as [s|]; [|now left].
  destruct (isEmpty s) eqn:Hs.
  { left. unfold inject. cbn [orEmpty]. now rewrite Hs. }
  destruct (compileSelector h s) as [test|] eqn:Hc.
  2:{ left. unfold inject, injectBody. cbn [orEmpty]. now rewrite Hs, Hc. }
  destruct (find (fun ae => test (fst ae) (snd ae)) (walk [] doc))
    as [[anc cart]|] eqn:Hf.
  2:{ left. unfold inject, injectBody. cbn [orEmpty].
      now rewrite Hs, Hc, Hf. }
  destruct (inserted doc) as [m|] eqn:Hm.
  { left. unfold inject, injectBody. cbn [orEmpty]. unfold inserted in Hm.
    now rewrite Hs, Hc, Hf, Hm. }
  destruct anc as [|p anc].
  - left. unfold inject, injectBody. cbn [orEmpty]. unfold inserted in Hm.
    rewrite Hs, Hc, Hf, Hm. cbv zeta.
    now destruct (substituteIcon _ _ _ _) as [[w hs] logs].
  - right.
    assert (Hres : resolves h doc s (p :: anc) cart) by (exists test; auto).
    destruct (inject_inserted Hs Hres Hm) as (w & hs & logs & w' & _ & E & _).
    congruence.
Qed.

(** The guard: a marked element in the document, and nothing is changed. *)
Lemma inject_guard h doc sel :
  inserted doc <> None -> fst (inject h doc sel) = doc.
Proof.
  intros Hm. unfold inject.
  destruct (isEmpty (orEmpty sel)); [reflexivity|]. unfold injectBody.
  destruct (compileSelector h (orEmpty sel)) as [test|]; [|reflexivity].
  destruct (find _ (walk [] doc)) as [[anc cart]|]; [|reflexivity].
  unfold inserted in Hm.
  destruct (getElementById wishlistButtonId doc); [reflexivity|].
  now contradiction Hm.
Qed.

(* ------------------------------------------------------------------ *)
(** ** The nodes of the document after the insertion *)

Lemma size_descendant (x : elem) :
  forall e, In x (descendants e) -> size x < size e.
Proof.
  induction e as [n t a s o cs IH] using elem_induction.
  rewrite descendants_eq. cbn [children size]. intros Hin.
  apply in_flat_map in Hin. destruct Hin as (c & Hc & Hx).
  rewrite Forall_forall in IH.
  assert (Hle : size x <= size c).
  { destruct Hx as [->|Hx]; [lia|]. specialize (IH c Hc Hx). lia. }
  assert (Hsum : size c <= list_sum (map size cs)).
  { clear -Hc. induction cs as [|d r IHr]; [destruct Hc|].
    simpl. destruct Hc as [->|Hc]; [lia|].
    specialize (IHr Hc). lia. }
  lia.
Qed.

Lemma maxId_bound (x : elem) :
  forall e, In x (flatten e) -> nid x <= maxId e.
Proof.
  induction e as [n t a s o cs IH] using elem_induction.
  cbn [maxId nid children].
  assert (Hge : forall l, n <= fold_right Nat.max n l).
  { induction l as [|k l IHl]; cbn [fold_right]; lia. }
  intros [<-|Hin]; [apply Hge|].
  rewrite descendants_eq in Hin. cbn [children] in Hin.
  apply in_flat_map in Hin. destruct Hin as (c & Hc & Hx).
  rewrite Forall_forall in IH. specialize (IH c Hc Hx).
  clear -Hc IH. induction cs as [|d r IHr]; [destruct Hc|].
  cbn [map fold_right]. destruct Hc as [->|Hc]; [lia|].
  specialize (IHr Hc). lia.
Qed.

Lemma NoDup_map_inj {A B : Type} (f : A -> B) (l : list A) (a b : A) :
  NoDup (map f l) -> In a l -> In b l -> f a = f b -> a = b.
Proof.
  induction l as [|c l IH]; intros Hn Ha Hb E; [destruct Ha|].
  cbn [map] in Hn. inversion Hn as [|? ? Hnot Hrest]; subst.
  destruct Ha as [->|Ha], Hb as [->|Hb].
  - reflexivity.
  - exfalso. apply Hnot. rewrite E. now apply in_map.
  - exfalso. apply Hnot. rewrite <- E. now apply in_map.
  - now apply IH.
Qed.

(** Every node of the tree a splice gives is a node of the old tree, or a
    node of what was put, or an ancestor of the spliced node with new
    children. *)
Lemma splice_nodes (ref : nat) (put : elem -> list elem) (x : elem) :
  forall e e', splice ref put e = Some e' -> In x (flatten e') ->
  In x (flatten e)
  \/ (exists c, In c (descendants e) /\ nid c = ref
                /\ In x (flat_map flatten (put c)))
  \/ (exists y cs c, In y (flatten e) /\ x = withChildren y cs
                     /\ In c (descendants y) /\ nid c = ref).
Proof.
  induction e as [n t a s o cs IH] using elem_induction.
  intros e'. rewrite splice_eq. cbn [children].
  destruct (spliceList ref put (splice ref put) cs) as [cs'|] eqn:E;
    [|discriminate].
  cbn [option_map]. intros [= <-].
  set (e := Elem n t a s o cs).
  assert (Hlist : ((exists c, In c cs' /\ In x (flatten c)) ->
            (exists c, In c cs /\ In x (flatten c))
            \/ (exists c, In c (flat_map flatten cs) /\ nid c = ref
                          /\ In x (flat_map flatten (put c)))
            \/ (exists y cs0 c, In y (flat_map flatten cs)
                                /\ x = withChildren y cs0
                                /\ In c (descendants y) /\ nid c = ref))
           /\ exists c, In c (flat_map flatten cs) /\ nid c = ref).
  { clear e. revert cs' E. induction cs as [|c r IHr]; intros cs' E;
      [discriminate|].
    inversion IH as [|? ? IHc IHrest]; subst. cbn [spliceList] in E.
    destruct (nid c =? ref) eqn:Eid.
    - injection E as <-. apply Nat.eqb_eq in Eid. split.
      + intros (d & Hd & Hx). apply in_app_or in Hd.
        destruct Hd as [Hd|Hd].
        * right; left. exists c. split; [cbn; now left|].
          split; [exact Eid|]. apply in_flat_map. now exists d.
        * left. exists d. split; [now right|exact Hx].
      + exists c. split; [cbn; now left|exact Eid].
    - destruct (splice ref put c) as [c'|] eqn:Ec.
      + injection E as <-.
        assert (Hc : exists d, In d (descendants c) /\ nid d = ref).
        { destruct (@splice_count ref put (fun _ => true)
                      (fun _ _ => eq_refl) c c' Ec)
            as (_ & d & Hd & Hin & _). eauto. }
        split.
        * intros (d & [<-|Hd] & Hx).
          -- destruct (IHc c' eq_refl Hx)
               as [H|[(d & Hd & Hr & Hp)|(y & cs0 & d & Hy & -> & Hd & Hr)]].
             ++ left. exists c. split; [now left|exact H].
             ++ right; left. exists d. split; [|now split].
                cbn [flat_map]. apply in_or_app. left. now right.
             ++ right; right. exists y, cs0, d. split; [|now repeat split].
                cbn [flat_map]. apply in_or_app. now left.
          -- left. exists d. split; [now right|exact Hx].
        * destruct Hc as (d & Hd & Hr). exists d. split; [|exact Hr].
          cbn [flat_map]. apply in_or_app. left. now right.
      + destruct (spliceList ref put (splice ref put) r) as [r'|] eqn:Er;
          [|discriminate].
        injection E as <-. destruct (IHr IHrest r' eq_refl) as (Hr1 & Hr2).
        split.
        * intros (d & [<-|Hd] & Hx).
          -- left. exists c. split; [now left|exact Hx].
          -- destruct (Hr1 (ex_intro _ d (conj Hd Hx)))
               as [(d' & Hd' & Hx')|[(d' & Hd' & Hr & Hp)
                   |(y & cs0 & d' & Hy & -> & Hd' & Hr)]].
             ++ left. exists d'. split; [now right|exact Hx'].
             ++ right; left. exists d'. split; [|now split].
                cbn [flat_map]. apply in_or_app. now right.
             ++ right; right. exists y, cs0, d'. split; [|now repeat split].
                cbn [flat_map]. apply in_or_app. now right.
        * destruct Hr2 as (d & Hd & Hr). exists d. split; [|exact Hr].
          cbn [flat_map]. apply in_or_app. now right. }
  destruct Hlist as (Hl1 & c0 & Hc0 & Hr0).
  intros [<-|Hin].
  - right; right. exists e, cs', c0. split; [now left|].
    split; [reflexivity|]. split; [|exact Hr0].
    rewrite descendants_eq. exact Hc0.
  - rewrite descendants_eq in Hin. cbn [withChildren children] in Hin.
    apply in_flat_map in Hin.
    destruct (Hl1 Hin) as [(d & Hd & Hx)|[(d & Hd & Hr & Hp)
                          |(y & cs0 & d & Hy & -> & Hd & Hr)]].
    + left. right. rewrite descendants_eq. apply in_flat_map. now exists d.
    + right; left. exists d. split; [|now split].
      rewrite descendants_eq. exact Hd.
    + right; right. exists y, cs0, d. split; [|now repeat split].
      right. rewrite descendants_eq. exact Hy.
Qed.

Lemma deref_In (doc : elem) (k : nat) (e : elem) :
  deref doc (Some k) = Some e -> In e (flatten doc) /\ nid e = k.
Proof.
  unfold deref, nodeById.
  destruct (find _ (walk [] doc)) as [[anc x]|] eqn:E; [|discriminate].
  intros [= <-]. apply find_some in E. destruct E as [Hin Hk].
  split; [|now apply Nat.eqb_eq].
  rewrite <- (walk_snd doc []). apply in_map_iff. now exists (anc, x).
Qed.

Lemma nid_sanitizeDescendant (d : elem) : nid (sanitizeDescendant d) = nid d.
Proof.
  unfold sanitizeDescendant.
  destruct (mapTree_stripIf_root [[AttrContains "id" "cart"]] "id" d)
    as [cs1 ->].
  set (d1 := withChildren _ cs1).
  destruct (mapTree_stripIf_root [[HasAttr "data-cart-status"]]
              "data-cart-status" d1) as [cs2 ->].
  set (d2 := withChildren _ cs2).
  destruct (mapTree_stripIf_root aHrefCart "href" d2) as [cs3 ->].
  subst d2 d1.
  repeat match goal with
         | |- context [if ?b then _ else _] => destruct b
         end; reflexivity.
Qed.

(** The identities of the nodes of the clone: those of the anchor, moved
    by [base]. *)
Lemma modifyClone_ids base (cart y : elem) :
  In y (flatten (modifyClone (cloneNode base cart))) ->
  exists z, In z (flatten cart) /\ nid y = base + nid z.
Proof.
  intros [<-|Hin].
  - exists cart. split; [now left|].
    destruct (modifyClone_root (cloneNode base cart)) as (-> & _).
    now destruct (cloneNode_root base cart).
  - rewrite descendants_modifyClone in Hin. apply in_map_iff in Hin.
    destruct Hin as (d & <- & Hd). exists d. split; [now right|].
    rewrite nid_sanitizeDescendant. now destruct (cloneNode_root base d).
Qed.

(** The nodes of the clone after step 5: nodes with the identity of a node
    of the clone before it, and the nodes of the heart icon. *)
Lemma substituteIcon_nodes base w0 o r w s logs (x : elem) :
  substituteIcon base w0 o r = (w, Some s, logs) ->
  In x (flatten w) ->
  (exists y, In y (flatten w0) /\ nid x = nid y) \/ In x (flatten s).
Proof.
  unfold substituteIcon.
  assert (Happend : forall s0, In x (flatten (appendChild s0 w0)) ->
            (exists y, In y (flatten w0) /\ nid x = nid y)
            \/ In x (flatten s0)).
  { intros s0 [<-|Hin].
    - left. exists w0. split; [now left|reflexivity].
    - rewrite descendants_eq in Hin. unfold appendChild in Hin.
      cbn [withChildren children] in Hin. rewrite flat_map_app in Hin.
      apply in_app_or in Hin. destruct Hin as [Hin|Hin].
      + left. exists x. split; [|reflexivity]. right.
        now rewrite descendants_eq.
      + right. cbn [flat_map] in Hin. now rewrite app_nil_r in Hin. }
  destruct o as [o|], r as [r|].
  1: destruct (createHeartSvg_fresh base (Some r)) as (s0 & p & E & _).
  2-4: destruct (createHeartSvg_fresh base None) as (s0 & p & E & _).
  all: rewrite E.
  - unfold replaceChild.
    destruct (splice (nid o) (fun _ => [s0]) w0) as [w'|] eqn:Es;
      intros [= <- <- <-] Hin.
    + destruct (splice_nodes _ _ _ Es Hin)
        as [H|[(c & _ & _ & Hp)|(y & cs & c & Hy & -> & _)]].
      * left. exists x. now split.
      * right. cbn [flat_map] in Hp. now rewrite app_nil_r in Hp.
      * left. exists y. now split.
    + left. exists x. now split.
  - intros [= <- <- <-]. apply Happend.
  - intros [= <- <- <-]. apply Happend.
  - intros [= <- <- <-]. apply Happend.
Qed.

(** In a document whose nodes have distinct identities, the call
    [inject] makes of the matcher keeps the heart path out of the reference
    icon: the path is a new node, and the reference icon found in the
    document after the insertion is a node of the old document that is not
    an ancestor of the anchor. *)
Lemma inject_heart_path_outside_reference h doc sel p anc cart r :
  NoDup (ids doc) ->
  resolves h doc sel (p :: anc) cart ->
  querySelector iconSelector cart = Some r ->
  forall w s logs doc1 m referenceIcon,
    substituteIcon (S (maxId doc) + S (maxId doc))
      (modifyClone (cloneNode (S (maxId doc)) cart))
      (querySelector iconSelector
         (modifyClone (cloneNode (S (maxId doc)) cart)))
      (Some r) = (w, Some s, logs) ->
    insertBefore w (nid cart) doc = Some doc1 ->
    measures h doc1 (Some (nid r)) (Some (nid s)) m ->
    deref doc1 (Some (nid r)) = Some referenceIcon ->
    ~ In (nid (heartEl m)) (ids referenceIcon).
Proof.
  intros Hnd (test & _ & Hf) Hr w s logs doc1 m ri Hsub Hins Hm Hri.
  set (B := S (maxId doc)) in *.
  assert (Hcart : In cart (flatten doc)) by exact (@walk_node _ _ _ _ Hf).
  assert (Hrcart : In r (descendants cart)).
  { unfold querySelector in Hr. apply find_some in Hr. tauto. }
  assert (Hrdoc : In r (flatten doc)).
  { apply (@flatten_sub _ _ Hcart). now right. }
  assert (Hold : forall x, In x (flatten doc) -> nid x < B).
  { intros x Hx. pose proof (@maxId_bound _ _ Hx). unfold B. lia. }
  (* the heart icon *)
  destruct (@substituteIcon_root _ _ _ _ _ _ _ Hsub)
    as (_ & _ & s' & r' & Es & Eh).
  injection Es as <-.
  destruct (createHeartSvg_fresh (B + B) r')
    as (s0 & path & Eh' & Hsid & _ & Hfl & Hpid & _).
  rewrite Eh in Eh'. injection Eh' as <-.
  (* the nodes of the clone *)
  assert (Hw : forall x, In x (flatten w) ->
            (B <= nid x /\ nid x < B + B) \/ In x (flatten s)).
  { intros x Hx. destruct (@substituteIcon_nodes _ _ _ _ _ _ _ x Hsub Hx)
      as [(y & Hy & ->)|H]; [left|now right].
    destruct (@modifyClone_ids _ _ _ Hy) as (z & Hz & ->).
    pose proof (Hold z (@flatten_sub _ _ Hcart _ Hz)). lia. }
  (* the nodes of the document after the insertion *)
  assert (Hdoc1 : forall x, In x (flatten doc1) ->
            In x (flatten doc) \/ In x (flatten w)
            \/ exists y cs c, In y (flatten doc) /\ x = withChildren y cs
                              /\ In c (descendants y) /\ nid c = nid cart).
  { intros x Hx. unfold insertBefore in Hins.
    destruct (@splice_nodes _ _ _ _ _ Hins Hx) as [H|[(c & Hc & _ & Hp)|H]];
      [now left| |now right; right].
    cbn [flat_map] in Hp. rewrite app_nil_r in Hp.
    apply in_app_or in Hp. destruct Hp as [Hp|Hp]; [now right; left|].
    left. apply (@flatten_sub c doc); [now right|exact Hp]. }
  (* the heart path is the node B + B + 1 *)
  assert (Hpath : nid (heartEl m) = B + B + 1).
  { destruct Hm as (ri0 & hs & _ & Hs & _ & He & _).
    destruct (@deref_In _ _ _ Hs) as (Hin & Hid).
    assert (hs = s) as ->.
    { destruct (Hdoc1 hs Hin) as [H|[H|(y & cs & c & Hy & -> & _)]].
      - pose proof (Hold hs H). lia.
      - destruct (Hw hs H) as [H'|H']; [lia|]. rewrite Hfl in H'.
        destruct H' as [<-|[<-|[]]]; [reflexivity|lia].
      - pose proof (Hold y Hy). cbn [withChildren nid] in Hid. lia. }
    unfold querySelector in He. apply find_some in He.
    destruct He as [He _].
    assert (Hd : descendants s = [path]).
    { unfold flatten in Hfl. now injection Hfl. }
    rewrite Hd in He. destruct He as [<-|[]]. exact Hpid. }
  rewrite Hpath. intros Hin. unfold ids in Hin.
  apply in_map_iff in Hin. destruct Hin as (x & Hxid & Hx).
  destruct (@deref_In _ _ _ Hri) as (Hriin & Hriid).
  destruct (Hdoc1 ri Hriin) as [H|[H|(y & cs & c & Hy & -> & Hc & Hcid)]].
  - pose proof (Hold x (@flatten_sub _ _ H _ Hx)). lia.
  - pose proof (Hold r Hrdoc). destruct (Hw ri H) as [H'|H']; [lia|].
    rewrite Hfl in H'. destruct H' as [<-|[<-|[]]]; lia.
  - cbn [withChildren nid] in Hriid.
    assert (y = r) as ->
      by exact (@NoDup_map_inj _ _ nid _ _ _ Hnd Hy Hrdoc Hriid).
    assert (Hcdoc : In c (flatten doc)).
    { apply (@flatten_sub _ _ Hrdoc). now right. }
    assert (c = cart) as ->
      by exact (@NoDup_map_inj _ _ nid _ _ _ Hnd Hcdoc Hcart Hcid).
    pose proof (@size_descendant _ _ Hc).
    pose proof (@size_descendant _ _ Hrcart).
    lia.
Qed.

(** The document [inject] leaves when it inserts: the document after the
    insertion, handed to the matcher when there are a reference icon and a
    heart icon. *)
Lemma inject_run h doc sel p anc cart w hs logs doc1 :
  isEmpty sel = false ->
  resolves h doc sel (p :: anc) cart ->
  inserted doc = None ->
  substituteIcon (S (maxId doc) + S (maxId doc))
    (modifyClone (cloneNode (S (maxId doc)) cart))
    (querySelector iconSelector
       (modifyClone (cloneNode (S (maxId doc)) cart)))
    (querySelector iconSelector cart) = (w, hs, logs) ->
  insertBefore w (nid cart) doc = Some doc1 ->
  fst (inject h doc (Some sel))
  = match querySelector iconSelector cart, hs with
    | Some r, Some s =>
        match _matchIconScale h doc1 (Some (nid r)) (Some (nid s)) None with
        | Ok (doc2, _) => doc2
        | Throw _ => doc1
        end
    | _, _ => doc1
    end.
Proof.
  intros Hsel (test & Hc & Hf) Hno Hsub Hins.
  unfold inject. cbn [orEmpty]. rewrite Hsel. unfold injectBody.
  rewrite Hc, Hf. unfold inserted in Hno. rewrite Hno. cbv zeta.
  rewrite Hsub, Hins.
  destruct (querySelector iconSelector cart) as [r|], hs as [s|];
    try reflexivity.
  now destruct (_matchIconScale h doc1 _ _ None) as [[doc2 l]|e].
Qed.

(** In a document whose nodes have distinct identities, the reference icon
    is found after a run of [inject] as it was found after the insertion:
    the matcher [inject] calls does not touch it. *)
Lemma inject_leaves_reference_icon h doc sel p anc cart r w hs logs doc1 :
  NoDup (ids doc) ->
  isEmpty sel = false ->
  resolves h doc sel (p :: anc) cart ->
  inserted doc = None ->
  querySelector iconSelector cart = Some r ->
  substituteIcon (S (maxId doc) + S (maxId doc))
    (modifyClone (cloneNode (S (maxId doc)) cart))
    (querySelector iconSelector
       (modifyClone (cloneNode (S (maxId doc)) cart)))
    (Some r) = (w, hs, logs) ->
  insertBefore w (nid cart) doc = Some doc1 ->
  deref (fst (inject h doc (Some sel))) (Some (nid r))
  = deref doc1 (Some (nid r)).
Proof.
  intros Hnd Hsel Hres Hno Hr Hsub Hins.
  assert (Hsub' := Hsub). rewrite <- Hr in Hsub'.
  rewrite (inject_run Hsel Hres Hno Hsub' Hins), Hr.
  destruct hs as [s|]; [|reflexivity].
  destruct (matchIconScale_cases h doc1 (Some (nid r)) (Some (nid s)) None)
    as [[e He]|[[msg Hm]|(m & sv & Hmeas & T1 & T2 & T3 & T4 & Hsv)]].
  - now rewrite He.
  - now rewrite Hm.
  - rewrite (@matchIconScale_measured h doc1 _ _ None m sv Hmeas
               T1 T2 T3 T4 Hsv).
    unfold transformed. rewrite deref_updateNode.
    destruct (deref doc1 (Some (nid r))) as [ri|] eqn:Hri; [|reflexivity].
    cbn [option_map]. f_equal. apply updateNode_absent.
    exact (@inject_heart_path_outside_reference h doc sel p anc cart r
             Hnd Hres Hr w s logs doc1 m ri Hsub Hins Hmeas Hri).
Qed.

(* ------------------------------------------------------------------ *)
(** ** The claims *)






(** C3.  Idempotency of [inject].  (1) When an element carrying the
    identity marker is in the document, [inject] leaves the document as it
    is, whatever the selector.  (2) A second call in sequence changes
    nothing: the document after two calls is the document after one.
    (3) When the selector resolves to an element that has a parent and the
    document holds no marked element, the document holds exactly one marked
    element after the first call, and still exactly one after the
    second. *)
Theorem inject_idempotent (h : Host) (doc : elem) (sel : option string) :
  (inserted doc <> None -> fst (inject h doc sel) = doc)
  /\ fst (inject h (fst (inject h doc sel)) sel) = fst (inject h doc sel)
  /\ (forall s p anc cart,
        sel = Some s -> isEmpty s = false ->
        resolves h doc s (p :: anc) cart -> inserted doc = None ->
        countWhere hasMarker (fst (inject h doc sel)) = 1
        /\ countWhere hasMarker (fst (inject h (fst (inject h doc sel)) sel))
           = 1).
Proof.
  assert (Htwice : fst (inject h (fst (inject h doc sel)) sel)
                   = fst (inject h doc sel)).
  { destruct (inject_unchanged_or_marked h doc sel) as [E|M].
    - now rewrite E, E.
    - now apply inject_guard. }
  split; [apply inject_guard|]. split; [exact Htwice|].
  intros s p anc cart -> Hs Hres Hno.
  rewrite Htwice.
  destruct (inject_inserted Hs Hres Hno)
    as (w & hs & logs & w' & _ & _ & _ & H).
  now split.
Qed.

Lemma inject_idempotent_witness :
  isEmpty "cart-drawer-component" = false
  /\ resolves themeHost themeDoc "cart-drawer-component"
              [themeHeader; themeDoc] themeCart
  /\ inserted themeDoc = None
  /\ countWhere hasMarker
       (fst (inject themeHost themeDoc (Some "cart-drawer-component"))) = 1
  /\ countWhere hasMarker
       (fst (inject themeHost
               (fst (inject themeHost themeDoc
                       (Some "cart-drawer-component")))
               (Some "cart-drawer-component"))) = 1.
Proof.
  assert (Hres : resolves themeHost themeDoc "cart-drawer-component"
                          [themeHeader; themeDoc] themeCart).
  { eexists. split; reflexivity. }
  split; [reflexivity|]. split; [exact Hres|]. split; [reflexivity|].
  exact (proj2 (proj2 (inject_idempotent themeHost themeDoc
                         (Some "cart-drawer-component")))
               "cart-drawer-component" themeHeader [themeDoc] themeCart
               eq_refl eq_refl Hres eq_refl).
Defined.



(** C5 (as amended).  When the matcher applies a transform: the pivot is
    the centre of the viewport when the [viewBox] of the new icon is made of
    four numbers; it is (12, 12) when a [viewBox] is there but is not made
    of four numbers; without a [viewBox] (or with an empty one) it is the
    centre of the geometry-only bounding box of the path, or (12, 12) when
    there is none.  The heart path gets translate(cx cy) scale(f)
    translate(-cx -cy) followed by the transform it had, the other nodes of
    the document keep their attributes.  With the viewBox "0 0 24 24" the
    pivot is (12, 12) and the second translation is by (-12, -12),
    whatever the scale. *)
Theorem pivot_and_prepended_transform (h : Host) (doc : elem)
        (r s : option nat) (p : option Z) (m : measurement) (sv : elem) :
  measures h doc r s m ->
  truthy (refWidthPx m) = true -> truthy (heartWidthPx m) = true ->
  truthy (refHeightPx m) = true -> truthy (heartHeightPx m) = true ->
  svg (heart m) = Some sv ->
  exists cx cy f doc',
    pivotIn h m sv = (cx, cy)
    /\ (cx, cy)
       = match getAttribute "viewBox" sv with
         | Some v =>
             if isEmpty v then Spec.pivotOf None (bbox (heart m))
             else match Spec.declaredViewport h v with
                  | Some vp => Spec.pivotOf (Some vp) (bbox (heart m))
                  | None => (Fin 12, Fin 12)
                  end
         | None => Spec.pivotOf None (bbox (heart m))
         end
    /\ _matchIconScale h doc r s p
       = Ok (doc', [LogScaled f (centeredScale h cx cy f)])
    /\ In (heartEl m) (flatten doc)
    /\ flatten doc'
       = map (updateNode (nid (heartEl m))
                (setAttribute "transform"
                   (prepended (centeredScale h cx cy f)
                      (orEmpty (getAttribute "transform" (heartEl m))))))
             (flatten doc)
    /\ getAttribute "transform"
         (updateNode (nid (heartEl m))
            (setAttribute "transform"
               (prepended (centeredScale h cx cy f)
                  (orEmpty (getAttribute "transform" (heartEl m)))))
            (heartEl m))
       = Some (centeredScale h cx cy f
               ++ match getAttribute "transform" (heartEl m) with
                  | Some "" | None => ""
                  | Some existing => " " ++ existing
                  end)%string
    /\ centeredScale h cx cy f
       = ("translate(" ++ numToString h cx ++ " " ++ numToString h cy
          ++ ") scale(" ++ numToString h f
          ++ ") translate(" ++ numToString h (jneg cx) ++ " "
          ++ numToString h (jneg cy) ++ ")")%string
    /\ (getAttribute "viewBox" sv = Some "0 0 24 24" ->
        toNumber h "0" = Fin 0 -> toNumber h "24" = Fin 24 ->
        cx = Fin 12 /\ cy = Fin 12
        /\ jneg cx = Fin (-12 # 1) /\ jneg cy = Fin (-12 # 1)).
Proof.
  intros Hm T1 T2 T3 T4 Hsv.
  destruct (pivotIn h m sv) as [cx cy] eqn:Hp.
  exists cx, cy, (scaleOf h m p). eexists.
  split; [reflexivity|]. split.
  { rewrite <- Hp. unfold pivotIn. apply pivot_cases. }
  split.
  { rewrite (@matchIconScale_measured h doc r s p m sv Hm T1 T2 T3 T4 Hsv).
    rewrite Hp. reflexivity. }
  split; [exact (measures_heartEl Hm)|]. split.
  { unfold transformed. apply flatten_updateNode. }
  split.
  { unfold getAttribute. rewrite updateNode_attrs, Nat.eqb_refl.
    rewrite lookup_assign_same. unfold prepended, orEmpty.
    now destruct (lookup "transform" (attrs (heartEl m))) as [[|c e]|]. }
  split; [reflexivity|].
  intros Hvb H0 H24. unfold pivotIn in Hp. rewrite Hvb in Hp.
  unfold pivot in Hp. cbn [isEmpty] in Hp.
  change (splitViewBox false "" "0 0 24 24") with ["0"; "0"; "24"; "24"] in Hp.
  cbn [map] in Hp. rewrite H0, H24 in Hp. cbn in Hp.
  injection Hp as <- <-. repeat split.
Qed.

Lemma pivot_witness :
  exists m sv,
    measurementOf squareBoxHost (iconsDoc "0 0 24 24") (Some 1) (Some 3)
    = Some m
    /\ truthy (refWidthPx m) = true /\ truthy (heartWidthPx m) = true
    /\ truthy (refHeightPx m) = true /\ truthy (heartHeightPx m) = true
    /\ svg (heart m) = Some sv
    /\ getAttribute "viewBox" sv = Some "0 0 24 24"
    /\ toNumber squareBoxHost "0" = Fin 0
    /\ toNumber squareBoxHost "24" = Fin 24
    /\ exists cx cy f doc',
         pivotIn squareBoxHost m sv = (cx, cy)
         /\ cx = Fin 12 /\ cy = Fin 12
         /\ _matchIconScale squareBoxHost (iconsDoc "0 0 24 24")
              (Some 1) (Some 3) None
            = Ok (doc', [LogScaled f (centeredScale squareBoxHost cx cy f)]).
Proof.
  do 2 eexists. split; [reflexivity|].
  do 8 (split; [reflexivity|]).
  match goal with
  | |- context [pivotIn _ ?m ?sv] =>
      destruct (@pivot_and_prepended_transform squareBoxHost
                  (iconsDoc "0 0 24 24") (Some 1) (Some 3) None m sv
                  (@measurementOf_measures squareBoxHost
                     (iconsDoc "0 0 24 24") (Some 1) (Some 3) m eq_refl)
                  eq_refl eq_refl eq_refl eq_refl eq_refl)
        as (cx & cy & f & doc' & Hp & _ & Hrun & _ & _ & _ & _ & H24)
  end.
  destruct (H24 eq_refl eq_refl eq_refl) as (Hx & Hy & _).
  exists cx, cy, f, doc'. repeat split; assumption.
Defined.

(** C5, as stated, fails.  The [viewBox] of the new icon is "0 0 24", which
    declares no viewport, and the geometry box of the path is 10 by 10 at
    (2, 2), of centre (7, 7): the stated rule gives the pivot (7, 7), the
    matcher takes (12, 12). *)
Lemma pivot_ignores_bbox_under_bad_viewBox :
  exists m sv,
    measurementOf noRectHost (iconsDoc "0 0 24") (Some 1) (Some 3) = Some m
    /\ svg (heart m) = Some sv
    /\ getAttribute "viewBox" sv = Some "0 0 24"
    /\ Spec.declaredViewport noRectHost "0 0 24" = None
    /\ bbox (heart m) = Some (Box (Fin 2) (Fin 2) (Fin 10) (Fin 10))
    /\ Spec.pivotOf (Spec.declaredViewport noRectHost "0 0 24")
                    (bbox (heart m)) = (Fin 7, Fin 7)
    /\ pivotIn noRectHost m sv = (Fin 12, Fin 12).
Proof.
  do 2 eexists. repeat split; reflexivity.
Qed.





(** C8.  When the anchor has no icon-like descendant, [inject] inserts the
    clone with one heart icon appended as its last child: the icon is built
    without a reference (it has no class attribute), it is the only
    icon-like descendant of the inserted element, and its path carries no
    transform attribute.  The log is the warning about the missing icon,
    the success message and the warning that scaling was skipped: the
    matcher did not run. *)
Theorem fallback_icon_appended (h : Host) (doc : elem) (sel : string)
        (p : elem) (anc : list elem) (cart : elem) :
  isEmpty sel = false ->
  resolves h doc sel (p :: anc) cart ->
  inserted doc = None ->
  querySelector iconSelector cart = None ->
  exists heart path w doc1,
    createHeartSvg (S (maxId doc) + S (maxId doc)) None = (Some heart, [])
    /\ flatten heart = [heart; path]
    /\ getAttribute "class" heart = None
    /\ getAttribute "transform" path = None
    /\ w = appendChild heart (modifyClone (cloneNode (S (maxId doc)) cart))
    /\ insertBefore w (nid cart) doc = Some doc1
    /\ inject h doc (Some sel)
       = (doc1,
          [ Warn "Swym: Could not find an icon (svg, i, img) inside the cloned cart element.";
            Log "Swym: Wishlist icon injected successfully.";
            Warn "Swym Scaler: Could not scale icon, missing referenceIcon or heartSvg." ])
    /\ inserted doc1 = Some w
    /\ count (matches iconSelector) (descendants w) = 1.
Proof.
  intros Hs Hres Hno Hicon.
  destruct (createHeartSvg_fresh (S (maxId doc) + S (maxId doc)) None)
    as (heart & path & E & _ & Htag & Hfl & _ & Hptag & Htr & _ & _ & _ & Hc).
  set (w0 := modifyClone (cloneNode (S (maxId doc)) cart)).
  assert (Hsub : substituteIcon (S (maxId doc) + S (maxId doc)) w0
                   (querySelector iconSelector w0)
                   (querySelector iconSelector cart)
                 = (appendChild heart w0, Some heart,
                    [Warn "Swym: Could not find an icon (svg, i, img) inside the cloned cart element."])).
  { unfold substituteIcon. rewrite Hicon, E.
    now destruct (querySelector iconSelector w0). }
  destruct (inject_inserts Hs Hres Hno)
    as (w & hs & logs & doc1 & Hsub' & Hins & _).
  fold w0 in Hsub'. rewrite Hsub in Hsub'. injection Hsub' as <- <- <-.
  exists heart, path, (appendChild heart w0), doc1.
  repeat (split; [first [exact E|exact Hfl|exact Hc|exact Htr
                         |reflexivity|exact Hins]|]).
  split; [|split].
  - destruct Hres as (test & Hcomp & Hf). unfold inject. cbn [orEmpty].
    rewrite Hs. unfold injectBody. unfold inserted in Hno.
    rewrite Hcomp, Hf, Hno. cbv zeta. fold w0. rewrite Hsub, Hins, Hicon.
    reflexivity.
  - assert (Hall : forall x, In x (flatten doc) -> hasMarker x = false).
    { apply find_none_iff. exact Hno. }
    unfold inserted, getElementById. fold (flatten doc1).
    rewrite (@insertBefore_find _ _ _ (hasId_shallow wishlistButtonId)
                                _ _ Hall Hins).
    unfold flatten. cbn [find].
    destruct (modifyClone_root (cloneNode (S (maxId doc)) cart))
      as (_ & _ & Hmark & _).
    change (hasId wishlistButtonId (appendChild heart w0))
      with (hasMarker w0). unfold w0. now rewrite Hmark.
  - rewrite descendants_eq. unfold appendChild.
    cbn [withChildren children]. rewrite flat_map_app, count_app.
    rewrite <- descendants_eq.
    assert (H0 : count (matches iconSelector) (descendants w0) = 0).
    { apply count_zero, find_none_iff.
      now apply querySelector_modifyClone. }
    rewrite H0. cbn [flat_map]. rewrite app_nil_r, Hfl, !count_cons.
    unfold matches, iconSelector. cbn [existsb forallb matchSimple].
    rewrite Htag, Hptag. reflexivity.
Qed.

Lemma fallback_icon_witness :
  isEmpty "a" = false
  /\ resolves noLayout linkDoc "a" [linkNav; linkDoc] linkAnchor
  /\ inserted linkDoc = None
  /\ querySelector iconSelector linkAnchor = None
  /\ exists heart path w doc1,
       createHeartSvg (S (maxId linkDoc) + S (maxId linkDoc)) None
       = (Some heart, [])
       /\ flatten heart = [heart; path]
       /\ getAttribute "class" heart = None
       /\ getAttribute "transform" path = None
       /\ w = appendChild heart
                (modifyClone (cloneNode (S (maxId linkDoc)) linkAnchor))
       /\ insertBefore w (nid linkAnchor) linkDoc = Some doc1
       /\ inject noLayout linkDoc (Some "a")
          = (doc1,
             [ Warn "Swym: Could not find an icon (svg, i, img) inside the cloned cart element.";
               Log "Swym: Wishlist icon injected successfully.";
               Warn "Swym Scaler: Could not scale icon, missing referenceIcon or heartSvg." ])
       /\ inserted doc1 = Some w
       /\ count (matches iconSelector) (descendants w) = 1.
Proof.
  assert (Hres : resolves noLayout linkDoc "a" [linkNav; linkDoc] linkAnchor).
  { eexists. split; reflexivity. }
  split; [reflexivity|]. split; [exact Hres|]. split; [reflexivity|].
  split; [reflexivity|].
  exact (@fallback_icon_appended noLayout linkDoc "a" linkNav [linkDoc]
           linkAnchor eq_refl Hres eq_refl eq_refl).
Defined.

(** C9.  A call of the matcher that returns either leaves the document as
    it is, or changes one thing: the [transform] attribute of the nodes
    that have the identity of the heart path.  Node by node, in tree order,
    the document after the call is the document before it, each node
    keeping its identity, name, inline style, handler and attributes, but
    for the [transform] of the heart path.  A reference icon whose subtree
    does not hold the heart path is found unchanged after the call. *)
Theorem reference_icon_untouched (h : Host) (doc : elem)
        (r s : option nat) (p : option Z) (doc' : elem)
        (logs : list console) :
  _matchIconScale h doc r s p = Ok (doc', logs) ->
  doc' = doc
  \/ exists m v,
       measures h doc r s m
       /\ doc' = updateNode (nid (heartEl m))
                   (setAttribute "transform" v) doc
       /\ flatten doc'
          = map (updateNode (nid (heartEl m)) (setAttribute "transform" v))
                (flatten doc)
       /\ (forall x,
             shell (updateNode (nid (heartEl m))
                      (setAttribute "transform" v) x)
             = if nid x =? nid (heartEl m)
               then shell (setAttribute "transform" v x) else shell x)
       /\ (forall referenceIcon,
             deref doc r = Some referenceIcon ->
             ~ In (nid (heartEl m)) (ids referenceIcon) ->
             deref doc' r = Some referenceIcon).
Proof.
  intros H.
  destruct (matchIconScale_cases h doc r s p)
    as [[e He]|[[msg Hm]|(m & sv & Hmeas & T1 & T2 & T3 & T4 & Hsv)]].
  - congruence.
  - left. congruence.
  - right.
    rewrite (@matchIconScale_measured h doc r s p m sv Hmeas T1 T2 T3 T4 Hsv)
      in H.
    injection H as <- _.
    exists m. eexists. split; [exact Hmeas|]. unfold transformed.
    split; [reflexivity|]. split; [apply flatten_updateNode|].
    split; [intros x; apply shell_updateNode|].
    intros ri Hri Hnot. destruct r as [k|]; [|discriminate].
    rewrite deref_updateNode, Hri. cbn [option_map].
    now rewrite updateNode_absent.
Qed.

Lemma reference_untouched_witness :
  exists doc' logs,
    _matchIconScale squareBoxHost (iconsDoc "0 0 24 24")
      (Some 1) (Some 3) None = Ok (doc', logs)
    /\ (doc' = iconsDoc "0 0 24 24"
        \/ exists m v,
             measures squareBoxHost (iconsDoc "0 0 24 24")
                      (Some 1) (Some 3) m
             /\ doc' = updateNode (nid (heartEl m))
                         (setAttribute "transform" v)
                         (iconsDoc "0 0 24 24")
             /\ flatten doc'
                = map (updateNode (nid (heartEl m))
                         (setAttribute "transform" v))
                      (flatten (iconsDoc "0 0 24 24"))
             /\ (forall x,
                   shell (updateNode (nid (heartEl m))
                            (setAttribute "transform" v) x)
                   = if nid x =? nid (heartEl m)
                     then shell (setAttribute "transform" v x)
                     else shell x)
             /\ (forall referenceIcon,
                   deref (iconsDoc "0 0 24 24") (Some 1)
                   = Some referenceIcon ->
                   ~ In (nid (heartEl m)) (ids referenceIcon) ->
                   deref doc' (Some 1) = Some referenceIcon)).
Proof.
  do 2 eexists.
  refine ((fun Hrun => conj Hrun (reference_icon_untouched _ _ _ _ _ Hrun))
            _).
  reflexivity.
Defined.

(** C10.  Given a reference icon without a class attribute,
    [createHeartSvg] sets the class attribute of the new icon to the four
    letters null. *)
Theorem class_of_classless_reference (base : nat) (referenceIcon : elem) :
  getAttribute "class" referenceIcon = None ->
  exists newSvg,
    createHeartSvg base (Some referenceIcon) = (Some newSvg, [])
    /\ getAttribute "class" newSvg = Some "null".
Proof.
  intros Hnone.
  destruct (createHeartSvg_fresh base (Some referenceIcon))
    as (hs & p & E & _ & _ & _ & _ & _ & _ & _ & _ & _ & Hc).
  exists hs. split; [exact E|]. rewrite Hc. cbn [option_map].
  now rewrite Hnone.
Qed.

Lemma classless_reference_witness :
  getAttribute "class" (Elem 4 "path" [("d", "M0 0h40v40z")] [] None []) = None
  /\ exists newSvg,
       createHeartSvg 10
         (Some (Elem 4 "path" [("d", "M0 0h40v40z")] [] None []))
       = (Some newSvg, [])
       /\ getAttribute "class" newSvg = Some "null".
Proof.
  split; [reflexivity|].
  apply class_of_classless_reference. reflexivity.
Defined.

(* ================================================================== *)
(** * Further properties

    What the code shows beyond the numbered claims, from the runs of
    [inject] to the arithmetic of the matcher. *)

(* ------------------------------------------------------------------ *)
(** ** Sample documents *)

Lemma themeDoc_distinct : NoDup (ids themeDoc).
Proof.
  unfold ids. cbn. repeat constructor; cbn; intuition discriminate.
Qed.

Lemma imgDoc_distinct : NoDup (ids imgDoc).
Proof.
  unfold ids. cbn. repeat constructor; cbn; intuition discriminate.
Qed.

Lemma themeDoc_resolves :
  resolves themeHost themeDoc "cart-drawer-component"
           [themeHeader; themeDoc] themeCart.
Proof. eexists. split; reflexivity. Qed.

Lemma linkDoc_resolves :
  resolves noLayout linkDoc "a" [linkNav; linkDoc] linkAnchor.
Proof. eexists. split; reflexivity. Qed.

Lemma imgDoc_resolves :
  resolves noLayout imgDoc "a" [imgHeader; imgDoc] imgAnchor.
Proof. eexists. split; reflexivity. Qed.

(* ------------------------------------------------------------------ *)
(** ** The runs that stop and the run that inserts *)

(** What step 5 logs: nothing, or the warning about the missing icon. *)
Lemma substituteIcon_logs base w0 o r w hs logs :
  substituteIcon base w0 o r = (w, hs, logs) ->
  forall c, In c logs -> exists msg, c = Warn msg.
Proof.
  unfold substituteIcon.
  destruct o as [o|], r as [r|].
  1: destruct (createHeartSvg_fresh base (Some r)) as (s0 & p & E & _).
  2-4: destruct (createHeartSvg_fresh base None) as (s0 & p & E & _).
  all: rewrite E; intros [= <- <- <-] c Hc.
  - destruct Hc.
  - destruct Hc as [<-|[]]. eauto.
  - destruct Hc as [<-|[]]. eauto.
  - destruct Hc as [<-|[]]. eauto.
Qed.

(** The log of the run of [inject] that reaches the insertion. *)
Lemma inject_run_log h doc sel p anc cart w hs logs doc1 :
  isEmpty sel = false ->
  resolves h doc sel (p :: anc) cart ->
  inserted doc = None ->
  built doc cart = (w, hs, logs) ->
  insertBefore w (nid cart) doc = Some doc1 ->
  snd (inject h doc (Some sel))
  = (logs ++ [injectedMsg])
    ++ match querySelector iconSelector cart, hs with
       | Some r, Some s =>
           match _matchIconScale h doc1 (Some (nid r)) (Some (nid s)) None with
           | Ok (_, l) => l
           | Throw e => [ErrorCaught e]
           end
       | _, _ =>
           [Warn "Swym Scaler: Could not scale icon, missing referenceIcon or heartSvg."]
       end.
Proof.
  intros Hsel (test & Hc & Hf) Hno Hsub Hins.
  unfold inject. cbn [orEmpty]. rewrite Hsel. unfold injectBody.
  rewrite Hc, Hf. unfold inserted in Hno. rewrite Hno. cbv zeta.
  rewrite Hsub, Hins.
  destruct (querySelector iconSelector cart) as [r|], hs as [s|];
    try reflexivity.
  now destruct (_matchIconScale h doc1 _ _ None) as [[doc2 l]|e].
Qed.

(** The runs of [inject] that stop before the insertion: the document is
    returned as it was and the success message is not logged. *)
Lemma inject_stops h doc sel :
  (forall s p anc cart,
     sel = Some s -> isEmpty s = false ->
     resolves h doc s (p :: anc) cart -> inserted doc = None -> False) ->
  fst (inject h doc sel) = doc /\ ~ In injectedMsg (snd (inject h doc sel)).
Proof.
  intros Hnot. destruct sel as [s|].
  2:{ split; [reflexivity|]. cbn. intros [H|[]]; discriminate. }
  destruct (isEmpty s) eqn:Hs.
  { unfold inject. cbn [orEmpty]. rewrite Hs. split; [reflexivity|].
    cbn. intros [H|[]]; discriminate. }
  unfold inject, injectBody. cbn [orEmpty]. rewrite Hs.
  destruct (compileSelector h s) as [test|] eqn:Hc.
  2:{ split; [reflexivity|]. cbn. intros [H|[]]; discriminate. }
  destruct (find (fun ae => test (fst ae) (snd ae)) (walk [] doc))
    as [[anc cart]|] eqn:Hf.
  2:{ split; [reflexivity|]. cbn. intros [H|[]]; discriminate. }
  destruct (getElementById wishlistButtonId doc) as [m|] eqn:Hm.
  { split; [reflexivity|]. cbn. intros [H|[]]; discriminate. }
  destruct anc as [|p anc].
  2:{ exfalso. apply (Hnot s p anc cart eq_refl Hs); [|exact Hm].
      exists test. now split. }
  cbv zeta.
  destruct (substituteIcon _ _ _ _) as [[w hs] logs] eqn:Hsub.
  split; [reflexivity|]. cbn [snd]. intros Hin. apply in_app_or in Hin.
  destruct Hin as [Hin|[H|[]]]; [|discriminate].
  destruct (substituteIcon_logs _ _ _ _ Hsub _ Hin) as [msg H].
  discriminate.
Qed.

(** The run of [inject] that inserts changes the document and logs the
    success message. *)
Lemma inject_goes h doc sel p anc cart :
  isEmpty sel = false ->
  resolves h doc sel (p :: anc) cart ->
  inserted doc = None ->
  fst (inject h doc (Some sel)) <> doc
  /\ In injectedMsg (snd (inject h doc (Some sel))).
Proof.
  intros Hs Hres Hno. split.
  - destruct (inject_inserted Hs Hres Hno)
      as (w & hs & logs & w' & _ & Hfound & _).
    intros E. rewrite E in Hfound. congruence.
  - destruct (inject_inserts Hs Hres Hno)
      as (w & hs & logs & doc1 & Hsub & Hins & _).
    rewrite (inject_run_log Hs Hres Hno Hsub Hins).
    apply in_or_app. left. apply in_or_app. right. now left.
Qed.

(** Either a run stops, or it is the run that inserts. *)
Lemma inject_stops_or_goes h doc sel :
  (forall s p anc cart,
     sel = Some s -> isEmpty s = false ->
     resolves h doc s (p :: anc) cart -> inserted doc = None -> False)
  \/ exists s p anc cart,
       sel = Some s /\ isEmpty s = false
       /\ resolves h doc s (p :: anc) cart /\ inserted doc = None.
Proof.
  destruct sel as [s|]; [|left; intros; discriminate].
  destruct (isEmpty s) eqn:Hs; [left; intros; congruence|].
  destruct (compileSelector h s) as [test|] eqn:Hc.
  2:{ left. intros s' p anc cart [= <-] _ (t & Ht & _). congruence. }
  destruct (find (fun ae => test (fst ae) (snd ae)) (walk [] doc))
    as [[anc cart]|] eqn:Hf.
  2:{ left. intros s' p anc cart [= <-] _ (t & Ht & Hf').
      rewrite Hc in Ht. injection Ht as <-. congruence. }
  destruct (inserted doc) as [m|] eqn:Hm; [left; intros; congruence|].
  destruct anc as [|p anc].
  { left. intros s' p anc' cart' [= <-] _ (t & Ht & Hf').
    rewrite Hc in Ht. injection Ht as <-. congruence. }
  right. exists s, p, anc, cart. repeat split; try assumption.
  exists test. now split.
Qed.

(** X1.  A call of [inject] changes the document exactly when the selector
    is given and not empty, the host understands it, its first match is an
    element that has a parent, and no element carries the marker yet.  In
    every other case (missing or empty selector, selector that does not
    parse, no match, a match that is the root, marker present) the document
    is returned as it was. *)
Theorem inject_changes_document_iff (h : Host) (doc : elem)
        (sel : option string) :
  fst (inject h doc sel) <> doc
  <-> exists s p anc cart,
        sel = Some s /\ isEmpty s = false
        /\ resolves h doc s (p :: anc) cart /\ inserted doc = None.
Proof.
  split.
  - intros Hne. destruct (inject_stops_or_goes h doc sel) as [Hstop|Hgo];
      [|exact Hgo].
    destruct (inject_stops Hstop) as [E _]. contradiction.
  - intros (s & p & anc & cart & -> & Hs & Hres & Hno).
    exact (proj1 (inject_goes Hs Hres Hno)).
Qed.

Lemma inject_changes_document_witness :
  fst (inject themeHost themeDoc (Some "cart-drawer-component")) <> themeDoc.
Proof.
  apply (proj2 (inject_changes_document_iff themeHost themeDoc
                  (Some "cart-drawer-component"))).
  exists "cart-drawer-component", themeHeader, [themeDoc], themeCart.
  split; [reflexivity|]. split; [reflexivity|].
  split; [exact themeDoc_resolves|reflexivity].
Defined.

(** X2.  The success message is in the log of a call exactly when the
    call put the marked element into a document that had none: the message
    is never logged by a run that stops, whatever exception was caught. *)
Theorem success_logged_iff_inserted (h : Host) (doc : elem)
        (sel : option string) :
  In injectedMsg (snd (inject h doc sel))
  <-> inserted doc = None /\ inserted (fst (inject h doc sel)) <> None.
Proof.
  split.
  - intros Hin. destruct (inject_stops_or_goes h doc sel)
      as [Hstop|(s & p & anc & cart & -> & Hs & Hres & Hno)].
    + destruct (inject_stops Hstop) as [_ Hn]. contradiction.
    + split; [exact Hno|].
      destruct (inject_inserted Hs Hres Hno)
        as (w & hs & logs & w' & _ & Hfound & _). congruence.
  - intros [Hno Hyes]. destruct (inject_stops_or_goes h doc sel)
      as [Hstop|(s & p & anc & cart & -> & Hs & Hres & _)].
    + destruct (inject_stops Hstop) as [E _].
      rewrite E in Hyes. contradiction.
    + exact (proj2 (inject_goes Hs Hres Hno)).
Qed.

Lemma success_logged_witness :
  In injectedMsg (snd (inject themeHost themeDoc
                         (Some "cart-drawer-component"))).
Proof.
  apply (proj2 (success_logged_iff_inserted themeHost themeDoc
                  (Some "cart-drawer-component"))).
  split; [reflexivity|]. vm_compute. discriminate.
Defined.

(** X3.  When the selector resolves to the root of the document, which
    has no parent element, the clone is built but cannot be inserted: the
    document is unchanged and the log ends with the caught [TypeError]. *)
Theorem root_anchor_is_reported (h : Host) (doc : elem) (sel : string)
        (cart : elem) :
  isEmpty sel = false ->
  resolves h doc sel [] cart ->
  inserted doc = None ->
  fst (inject h doc (Some sel)) = doc
  /\ exists l, snd (inject h doc (Some sel)) = l ++ [ErrorCaught TypeError].
Proof.
  intros Hs (test & Hc & Hf) Hno.
  unfold inject, injectBody. cbn [orEmpty]. rewrite Hs, Hc, Hf.
  unfold inserted in Hno. rewrite Hno. cbv zeta.
  destruct (substituteIcon _ _ _ _) as [[w hs] logs].
  split; [reflexivity|]. now exists logs.
Qed.

Lemma root_anchor_witness :
  isEmpty "html" = false
  /\ resolves themeHost themeDoc "html" [] themeDoc
  /\ inserted themeDoc = None
  /\ fst (inject themeHost themeDoc (Some "html")) = themeDoc
  /\ exists l, snd (inject themeHost themeDoc (Some "html"))
               = l ++ [ErrorCaught TypeError].
Proof.
  assert (Hres : resolves themeHost themeDoc "html" [] themeDoc).
  { eexists. split; reflexivity. }
  split; [reflexivity|]. split; [exact Hres|]. split; [reflexivity|].
  exact (@root_anchor_is_reported themeHost themeDoc "html" themeDoc
           eq_refl Hres eq_refl).
Defined.

(* ------------------------------------------------------------------ *)
(** ** Splices, position by position *)

(** Where a splice succeeds, in tree order: the nodes before the spliced
    node keep their shells, the subtree of the spliced node gives way to
    what was put, the nodes after it are the same. *)
Lemma splice_shape (ref : nat) (put : elem -> list elem) :
  forall e e', splice ref put e = Some e' ->
  shell e' = shell e /\
  exists l1 l1' c l2,
    descendants e = l1 ++ flatten c ++ l2
    /\ descendants e' = l1' ++ flat_map flatten (put c) ++ l2
    /\ map shell l1' = map shell l1
    /\ nid c = ref
    /\ forall x, In x l1 -> nid x <> ref.
Proof.
  induction e as [n t a s o cs IH] using elem_induction.
  intros e'. rewrite splice_eq. cbn [children].
  destruct (spliceList ref put (splice ref put) cs) as [cs'|] eqn:E;
    [|discriminate].
  cbn [option_map]. intros [= <-]. split; [reflexivity|].
  rewrite !descendants_eq. unfold withChildren. cbn [children].
  clear n t a s o. revert cs' E.
  induction cs as [|c r IHr]; intros cs' E; [discriminate|].
  inversion IH as [|? ? IHc IHrest]; subst. cbn [spliceList] in E.
  destruct (nid c =? ref) eqn:Eid.
  - injection E as <-. apply Nat.eqb_eq in Eid.
    exists [], [], c, (flat_map flatten r).
    cbn [flat_map app map]. rewrite flat_map_app.
    repeat split; try assumption. intros x [].
  - apply Nat.eqb_neq in Eid.
    destruct (splice ref put c) as [c'|] eqn:Ec.
    + injection E as <-.
      destruct (IHc c' eq_refl)
        as (Hsh & l1 & l1' & x & l2 & Hd & Hd' & Hm & Hx & Hbefore).
      exists (c :: l1), (c' :: l1'), x, (l2 ++ flat_map flatten r).
      cbn [flat_map]. change (flatten c) with (c :: descendants c).
      change (flatten c') with (c' :: descendants c'). rewrite Hd, Hd'.
      cbn [map app]. rewrite Hsh, Hm, <- !app_assoc.
      repeat split; try assumption.
      intros y [<-|Hy]; [exact Eid|now apply Hbefore].
    + destruct (spliceList ref put (splice ref put) r) as [r'|] eqn:Er;
        [|discriminate].
      injection E as <-.
      destruct (IHr IHrest r' eq_refl)
        as (l1 & l1' & x & l2 & Hd & Hd' & Hm & Hx & Hbefore).
      exists (flatten c ++ l1), (flatten c ++ l1'), x, l2.
      cbn [flat_map]. rewrite Hd, Hd', !map_app, Hm, <- !app_assoc.
      repeat split; try assumption.
      intros y Hy. apply in_app_or in Hy. destruct Hy as [[<-|Hy]|Hy].
      * exact Eid.
      * intros Hid.
        destruct (@splice_some ref put y c Hy Hid) as [c' Hc'].
        congruence.
      * now apply Hbefore.
Qed.

(** Where a splice succeeds, some node of the new tree has among its
    children, side by side, what was put for the spliced node. *)
Lemma splice_parent (ref : nat) (put : elem -> list elem) :
  forall e e', splice ref put e = Some e' ->
  exists y k1 c k2,
    In y (flatten e') /\ children y = k1 ++ put c ++ k2
    /\ In c (descendants e) /\ nid c = ref.
Proof.
  induction e as [n t a s o cs IH] using elem_induction.
  intros e'. rewrite splice_eq. cbn [children].
  destruct (spliceList ref put (splice ref put) cs) as [cs'|] eqn:E;
    [|discriminate].
  cbn [option_map]. intros [= <-].
  set (e := Elem n t a s o cs).
  enough (H : (exists k1 c k2, cs' = k1 ++ put c ++ k2
                 /\ In c cs /\ nid c = ref)
              \/ exists y k1 c k2, In y (flat_map flatten cs')
                 /\ children y = k1 ++ put c ++ k2
                 /\ In c (flat_map flatten cs) /\ nid c = ref).
  { destruct H as [(k1 & c & k2 & -> & Hc & Hr)
                  |(y & k1 & c & k2 & Hy & Hch & Hc & Hr)].
    - exists (withChildren e (k1 ++ put c ++ k2)), k1, c, k2.
      split; [now left|]. split; [reflexivity|]. split; [|exact Hr].
      rewrite descendants_eq. cbn [children]. apply in_flat_map.
      exists c. split; [exact Hc|now left].
    - exists y, k1, c, k2. split.
      { right. rewrite descendants_eq. exact Hy. }
      split; [exact Hch|]. split; [|exact Hr].
      rewrite descendants_eq. exact Hc. }
  clear e n t a s o. revert cs' E.
  induction cs as [|c r IHr]; intros cs' E; [discriminate|].
  inversion IH as [|? ? IHc IHrest]; subst. cbn [spliceList] in E.
  destruct (nid c =? ref) eqn:Eid.
  - injection E as <-. apply Nat.eqb_eq in Eid. left.
    exists [], c, r. split; [reflexivity|]. split; [now left|exact Eid].
  - destruct (splice ref put c) as [c'|] eqn:Ec.
    + injection E as <-. right.
      destruct (IHc c' eq_refl) as (y & k1 & x & k2 & Hy & Hch & Hx & Hr).
      exists y, k1, x, k2. split.
      { cbn [flat_map]. apply in_or_app. now left. }
      split; [exact Hch|]. split; [|exact Hr].
      cbn [flat_map]. apply in_or_app. left. now right.
    + destruct (spliceList ref put (splice ref put) r) as [r'|] eqn:Er;
        [|discriminate].
      injection E as <-.
      destruct (IHr IHrest r' eq_refl)
        as [(k1 & x & k2 & -> & Hx & Hr)
           |(y & k1 & x & k2 & Hy & Hch & Hx & Hr)].
      * left. exists (c :: k1), x, k2. split; [reflexivity|].
        split; [now right|exact Hr].
      * right. exists y, k1, x, k2. split.
        { cbn [flat_map]. apply in_or_app. now right. }
        split; [exact Hch|]. split; [|exact Hr].
        cbn [flat_map]. apply in_or_app. now right.
Qed.

(** Whether a splice succeeds does not depend on what is put. *)
Lemma splice_none (ref : nat) (put put' : elem -> list elem) (e : elem) :
  splice ref put e = None -> splice ref put' e = None.
Proof.
  intros Hn. destruct (splice ref put' e) as [e'|] eqn:E; [|reflexivity].
  destruct (@splice_count ref put' (fun _ => true) (fun _ _ => eq_refl)
              e e' E) as (_ & c & Hr & Hc & _).
  destruct (@splice_some ref put c e Hc Hr) as [e'' He]. congruence.
Qed.

(** A write to a node that is not in the tree commutes with an insertion
    into the tree. *)
Lemma insertBefore_updateNode (n : nat) (v : string) (w : elem) (ref : nat) :
  forall e e', ~ In n (ids e) -> insertBefore w ref e = Some e' ->
  insertBefore (updateNode n (setAttribute "transform" v) w) ref e
  = Some (updateNode n (setAttribute "transform" v) e').
Proof.
  unfold insertBefore. set (U := updateNode n (setAttribute "transform" v)).
  induction e as [m t a s o cs IH] using elem_induction.
  intros e' Hn. rewrite !splice_eq. cbn [children].
  destruct (spliceList ref _ _ cs) as [cs'|] eqn:E; [|discriminate].
  cbn [option_map]. intros [= <-].
  assert (Hm : (m =? n) = false).
  { apply Nat.eqb_neq. intros ->. apply Hn. now left. }
  assert (Hcs : forall c, In c cs -> ~ In n (ids c)).
  { intros c Hc Hin. apply Hn. unfold ids in *. cbn [flatten map].
    right. rewrite descendants_eq. cbn [children]. rewrite map_flat_map.
    apply in_flat_map. now exists c. }
  enough (Hl : spliceList ref (fun c => [U w; c])
                 (splice ref (fun c => [U w; c])) cs = Some (map U cs')).
  { rewrite Hl. cbn [option_map]. f_equal. unfold U, updateNode.
    cbn [mapTree withChildren children nid]. now rewrite Hm. }
  clear Hn Hm m t a s o. revert cs' E.
  induction cs as [|c r IHr]; intros cs' E; [discriminate|].
  inversion IH as [|? ? IHc IHrest]; subst. cbn [spliceList] in E |- *.
  assert (Hr : map U r = r).
  { clear -Hcs. induction r as [|d r IHr]; [reflexivity|].
    cbn [map]. rewrite IHr.
    - f_equal. apply updateNode_absent. apply Hcs. right. now left.
    - intros x [<-|Hx]; apply Hcs; [now left|right; now right]. }
  destruct (nid c =? ref) eqn:Eid.
  - injection E as <-. cbn [map app]. rewrite Hr.
    do 3 f_equal. symmetry. apply updateNode_absent. apply Hcs. now left.
  - destruct (splice ref _ c) as [c'|] eqn:Ec.
    + injection E as <-.
      rewrite (IHc c' (Hcs c (or_introl eq_refl)) eq_refl).
      cbn [map]. now rewrite Hr.
    + rewrite (@splice_none _ _ (fun c => [U w; c]) _ Ec).
      destruct (spliceList ref _ _ r) as [r'|] eqn:Er; [|discriminate].
      injection E as <-.
      rewrite (IHr IHrest (fun x Hx => Hcs x (or_intror Hx)) r' eq_refl).
      cbn [option_map map]. do 2 f_equal. symmetry.
      apply updateNode_absent. apply Hcs. now left.
Qed.

(* ------------------------------------------------------------------ *)
(** ** The element [inject] builds *)

(** The identities of the nodes of the built element: those of the clone,
    between [base] and [base + base], and those of the heart icon. *)
Lemma built_ids doc cart w s logs (x : elem) :
  In cart (flatten doc) ->
  built doc cart = (w, Some s, logs) ->
  In x (flatten w) ->
  (S (maxId doc) <= nid x < S (maxId doc) + S (maxId doc))
  \/ In x (flatten s).
Proof.
  intros Hcart Hsub Hx.
  destruct (@substituteIcon_nodes _ _ _ _ _ _ _ x Hsub Hx)
    as [(y & Hy & ->)|H]; [left|now right].
  destruct (@modifyClone_ids _ _ _ Hy) as (z & Hz & ->).
  pose proof (@maxId_bound _ _ (@flatten_sub _ _ Hcart _ Hz)). lia.
Qed.

(** The heart icon of the built element: the two nodes made last. *)
Lemma built_heart doc cart w s logs :
  built doc cart = (w, Some s, logs) ->
  exists path,
    flatten s = [s; path]
    /\ nid s = S (maxId doc) + S (maxId doc)
    /\ nid path = S (maxId doc) + S (maxId doc) + 1
    /\ tagName s = "svg" /\ tagName path = "path"
    /\ getAttribute "viewBox" s = Some "0 0 24 24"
    /\ getAttribute "transform" path = None.
Proof.
  intros Hsub.
  destruct (@substituteIcon_root _ _ _ _ _ _ _ Hsub)
    as (_ & _ & s' & r' & Es & Eh).
  injection Es as <-.
  destruct (createHeartSvg_fresh (S (maxId doc) + S (maxId doc)) r')
    as (s0 & path & Eh' & Hsid & Hst & Hfl & Hpid & Hpt & Htr & _ & _ & Hvb & _).
  rewrite Eh in Eh'. injection Eh' as <-.
  exists path. repeat split; assumption.
Qed.

(** The built element carries the marker. *)
Lemma built_marked doc cart w hs logs :
  built doc cart = (w, hs, logs) -> hasMarker w = true.
Proof.
  intros Hsub.
  destruct (substituteIcon_root _ _ _ _ Hsub) as ([cs Hw] & _).
  destruct (modifyClone_root (cloneNode (S (maxId doc)) cart))
    as (_ & _ & Hmark & _).
  rewrite Hw. unfold hasMarker. now rewrite hasId_shallow.
Qed.

(** A marked element inserted into a document without one is the element
    [getElementById] finds. *)
Lemma inserted_insertBefore doc w ref d :
  inserted doc = None -> hasMarker w = true ->
  insertBefore w ref doc = Some d -> inserted d = Some w.
Proof.
  intros Hno Hm Hi. unfold inserted, getElementById. fold (flatten d).
  rewrite (@insertBefore_find _ _ _ (hasId_shallow wishlistButtonId)
             _ _ (proj1 (find_none_iff _ _) Hno) Hi).
  unfold flatten. cbn [find]. fold hasMarker. now rewrite Hm.
Qed.

(** The heart path the matcher measures, when [inject] calls it, is the
    path of the heart icon just made. *)
Lemma inject_heart_el h doc cart w s logs doc1 r0 m :
  In cart (flatten doc) ->
  built doc cart = (w, Some s, logs) ->
  insertBefore w (nid cart) doc = Some doc1 ->
  measures h doc1 r0 (Some (nid s)) m ->
  flatten s = [s; heartEl m]
  /\ nid (heartEl m) = S (maxId doc) + S (maxId doc) + 1
  /\ tagName (heartEl m) = "path"
  /\ getAttribute "transform" (heartEl m) = None
  /\ In s (flatten w).
Proof.
  intros Hcart Hsub Hins Hm.
  set (B := S (maxId doc)) in *.
  assert (Hold : forall x, In x (flatten doc) -> nid x < B).
  { intros x Hx. pose proof (@maxId_bound _ _ Hx). unfold B. lia. }
  destruct (@built_heart _ _ _ _ _ Hsub)
    as (path & Hfl & Hsid & Hpid & _ & Hpt & _ & Htr).
  fold B in Hsid, Hpid.
  destruct Hm as (ri0 & hs & _ & Hs & _ & He & _).
  destruct (@deref_In _ _ _ Hs) as (Hin & Hid).
  assert (Hhs : hs = s /\ In hs (flatten w)).
  { unfold insertBefore in Hins.
    destruct (@splice_nodes _ _ _ _ _ Hins Hin)
      as [H|[(c & Hc & _ & Hp)|(y & cs & c & Hy & -> & _)]].
    - pose proof (Hold hs H). lia.
    - cbn [flat_map] in Hp. rewrite app_nil_r in Hp.
      apply in_app_or in Hp. destruct Hp as [Hp|Hp].
      + split; [|exact Hp].
        destruct (@built_ids _ _ _ _ _ hs Hcart Hsub Hp) as [H'|H'];
          [fold B in H'; lia|].
        rewrite Hfl in H'. destruct H' as [<-|[<-|[]]]; [reflexivity|lia].
      + pose proof (Hold hs (@flatten_sub c doc (or_intror Hc) _ Hp)). lia.
    - pose proof (Hold y Hy). cbn [withChildren nid] in Hid. lia. }
  destruct Hhs as [-> Hsw].
  unfold querySelector in He. apply find_some in He. destruct He as [He _].
  assert (Hd : descendants s = [path]).
  { unfold flatten in Hfl. now injection Hfl. }
  rewrite Hd in He. destruct He as [<-|[]]. repeat split; assumption.
Qed.

Lemma inject_heart_path h doc cart w s logs doc1 r0 m :
  In cart (flatten doc) ->
  built doc cart = (w, Some s, logs) ->
  insertBefore w (nid cart) doc = Some doc1 ->
  measures h doc1 r0 (Some (nid s)) m ->
  nid (heartEl m) = S (maxId doc) + S (maxId doc) + 1.
Proof.
  intros Hcart Hsub Hins Hm.
  now destruct (inject_heart_el Hcart Hsub Hins Hm) as (_ & H & _ & _ & _).
Qed.

(** The document an inserting run leaves is the document it started from
    with one element inserted before the anchor: the built element, or the
    built element after the matcher has written the transform of the heart
    path.  The element is the one [getElementById] finds. *)
Lemma inject_result h doc sel p anc cart w hs logs :
  isEmpty sel = false ->
  resolves h doc sel (p :: anc) cart ->
  inserted doc = None ->
  built doc cart = (w, hs, logs) ->
  exists w',
    (w' = w
     \/ exists v,
          w' = updateNode (S (maxId doc) + S (maxId doc) + 1)
                          (setAttribute "transform" v) w)
    /\ insertBefore w' (nid cart) doc = Some (fst (inject h doc (Some sel)))
    /\ inserted (fst (inject h doc (Some sel))) = Some w'.
Proof.
  intros Hsel Hres Hno Hsub.
  destruct (inject_inserts Hsel Hres Hno)
    as (w0 & hs0 & logs0 & doc1 & Hsub0 & Hins & _).
  rewrite Hsub in Hsub0. injection Hsub0 as <- <- <-.
  assert (Hcart : In cart (flatten doc)).
  { destruct Hres as (test & _ & Hf). exact (@walk_node _ _ _ _ Hf). }
  pose proof (@built_marked _ _ _ _ _ Hsub) as Hwm.
  pose proof (@inserted_insertBefore _ _ _ _ Hno Hwm Hins) as Hfound.
  rewrite (inject_run Hsel Hres Hno Hsub Hins).
  destruct (querySelector iconSelector cart) as [r|] eqn:Hr, hs as [s|];
    try (exists w; repeat split; [now left|assumption|assumption]).
  destruct (matchIconScale_cases h doc1 (Some (nid r)) (Some (nid s)) None)
    as [[e He]|[[msg Hm]|(m & sv & Hmeas & T1 & T2 & T3 & T4 & Hsv)]].
  - rewrite He. exists w; repeat split; [now left|assumption|assumption].
  - rewrite Hm. exists w; repeat split; [now left|assumption|assumption].
  - rewrite (@matchIconScale_measured h doc1 _ _ None m sv Hmeas
               T1 T2 T3 T4 Hsv).
    unfold transformed. rewrite <- Hr in Hsub.
    rewrite (inject_heart_path Hcart Hsub Hins Hmeas).
    set (n := S (maxId doc) + S (maxId doc) + 1).
    set (v := prepended _ _).
    assert (Hn : ~ In n (ids doc)).
    { unfold ids. intros Hin. apply in_map_iff in Hin.
      destruct Hin as (x & Hx & Hin).
      pose proof (@maxId_bound _ _ Hin). unfold n in Hx. lia. }
    pose proof (@insertBefore_updateNode n v w (nid cart) doc doc1 Hn Hins)
      as Hins'.
    exists (updateNode n (setAttribute "transform" v) w).
    split; [right; now exists v|]. split; [exact Hins'|].
    apply (@inserted_insertBefore doc _ (nid cart) _ Hno); [|exact Hins'].
    now rewrite hasMarker_updateNode.
Qed.

(** The root of the clone after step 4, field by field. *)
Lemma modifyClone_fields (c : elem) :
  exists a2,
    (forall k, k <> "class" -> k <> "id" -> lookup k a2 = lookup k (attrs c))
    /\ lookup "id" a2 = Some wishlistButtonId
    /\ modifyClone c
       = Elem (nid c) (tagName c)
              (assign "aria-label" wishlistAriaLabel
                 (let a5 := if matches aHrefCart c
                            then unassign "href" a2 else a2 in
                  if (tagName c =? "A")%string
                  then assign "href" wishlistPageUrl a5 else a5))
              (if (tagName c =? "A")%string then inlineStyle c
               else assign "cursor" "pointer" (inlineStyle c))
              (if (tagName c =? "A")%string then onclick c
               else Some (NavigateTo wishlistPageUrl))
              (map sanitizeDescendant (children c)).
Proof.
  destruct c as [n t a s o cs].
  cbn [nid tagName attrs inlineStyle onclick children].
  unfold modifyClone. cbv zeta.
  set (w1 := setAttribute "id" wishlistButtonId (Elem n t a s o cs)).
  destruct (classList_remove_shape (filter isCartClass (classList w1)) w1)
    as (a2 & -> & Hother).
  subst w1. unfold setAttribute in *. unfold withAttrs in *.
  cbn [nid tagName attrs inlineStyle onclick children] in *.
  assert (Hk : forall k, k <> "class" -> k <> "id" ->
            lookup k a2 = lookup k a).
  { intros k K1 K2. rewrite (Hother k K1). now apply lookup_assign_other. }
  assert (Hid : lookup "id" a2 = Some wishlistButtonId).
  { rewrite Hother by discriminate. apply lookup_assign_same. }
  exists a2. split; [exact Hk|]. split; [exact Hid|].
  unfold stripWhere, mapDescendants, withChildren.
  cbn [nid tagName attrs inlineStyle onclick children].
  assert (Hm : forall cs1 cs2,
            matches aHrefCart (Elem n t a2 s o cs1)
            = matches aHrefCart (Elem n t a s o cs2)).
  { intros cs1 cs2. unfold matches, aHrefCart, matchSimple, getAttribute.
    cbn [existsb forallb tagName attrs].
    now rewrite Hk by discriminate. }
  rewrite (Hm _ cs).
  destruct (matches aHrefCart (Elem n t a s o cs)).
  all: unfold removeAttribute, withAttrs, withChildren.
  all: cbn [nid tagName attrs inlineStyle onclick children].
  all: destruct (t =? "A")%string.
  all: unfold setAttribute, withAttrs.
  all: cbn [nid tagName attrs inlineStyle onclick children].
  all: unfold sanitizeDescendant.
  all: rewrite !map_map.
  all: reflexivity.
Qed.

Lemma shell_withChildren (e : elem) cs : shell (withChildren e cs) = shell e.
Proof. now destruct e. Qed.

Lemma nid_shell (e : elem) : nid (shell e) = nid e.
Proof. now destruct e. Qed.

Lemma descendants_updateNode (n : nat) (v : string) (e : elem) :
  descendants (updateNode n (setAttribute "transform" v) e)
  = map (updateNode n (setAttribute "transform" v)) (descendants e).
Proof.
  pose proof (flatten_updateNode n v e) as H. unfold flatten in H.
  cbn [map] in H. now injection H.
Qed.

(** What the built element keeps of the clone after step 4: everything
    but the children. *)
Lemma built_root doc cart w hs logs :
  built doc cart = (w, hs, logs) ->
  shell w = shell (modifyClone (cloneNode (S (maxId doc)) cart)).
Proof.
  intros Hsub.
  destruct (substituteIcon_root _ _ _ _ Hsub) as ([cs ->] & _).
  apply shell_withChildren.
Qed.

(** The root of the inserted element is the root of the built element:
    the matcher writes to the heart path only. *)
Lemma inserted_root doc cart w hs logs w' :
  In cart (flatten doc) ->
  built doc cart = (w, hs, logs) ->
  (w' = w
   \/ exists v,
        w' = updateNode (S (maxId doc) + S (maxId doc) + 1)
                        (setAttribute "transform" v) w) ->
  shell w' = shell (modifyClone (cloneNode (S (maxId doc)) cart)).
Proof.
  intros Hcart Hsub [->|[v ->]]; [exact (built_root _ _ Hsub)|].
  rewrite shell_updateNode, (built_root _ _ Hsub).
  assert (E : shell w = shell (modifyClone (cloneNode (S (maxId doc)) cart)))
    by exact (built_root _ _ Hsub).
  assert (Hid : nid w = S (maxId doc) + nid cart).
  { rewrite <- (nid_shell w), E, nid_shell.
    destruct (modifyClone_root (cloneNode (S (maxId doc)) cart)) as (-> & _).
    now destruct (cloneNode_root (S (maxId doc)) cart). }
  pose proof (@maxId_bound _ _ Hcart).
  destruct (nid w =? _) eqn:En; [|reflexivity].
  apply Nat.eqb_eq in En. lia.
Qed.

(** What sanitizing leaves on a node: no identifier that contains "cart",
    no [data-cart-status], and no link to the cart. *)
Lemma sanitizeDescendant_clean (d : elem) :
  (forall v, getAttribute "id" (sanitizeDescendant d) = Some v ->
             includes "cart" v = false)
  /\ getAttribute "data-cart-status" (sanitizeDescendant d) = None
  /\ matches aHrefCart (sanitizeDescendant d) = false.
Proof.
  unfold sanitizeDescendant.
  destruct (mapTree_stripIf_root [[AttrContains "id" "cart"]] "id" d)
    as [cs1 ->].
  set (d1 := withChildren _ cs1).
  destruct (mapTree_stripIf_root [[HasAttr "data-cart-status"]]
              "data-cart-status" d1) as [cs2 ->].
  set (d2 := withChildren _ cs2).
  destruct (mapTree_stripIf_root aHrefCart "href" d2) as [cs3 ->].
  assert (H1 : forall v, getAttribute "id" d1 = Some v ->
                         includes "cart" v = false).
  { subst d1. destruct (matches _ d) eqn:Em; unfold getAttribute;
      cbn [withChildren removeAttribute withAttrs attrs tagName].
    - rewrite lookup_unassign_same. discriminate.
    - intros v Hv. unfold matches, matchSimple, getAttribute in Em.
      cbn [existsb forallb] in Em. rewrite Hv in Em.
      cbn [isEmpty negb andb orb] in Em.
      now destruct (includes "cart" v). }
  assert (H2 : getAttribute "data-cart-status" d2 = None
               /\ forall k, k <> "data-cart-status" ->
                            getAttribute k d2 = getAttribute k d1).
  { subst d2. destruct (matches _ d1) eqn:Em; unfold getAttribute;
      cbn [withChildren removeAttribute withAttrs attrs tagName].
    - split; [apply lookup_unassign_same|].
      intros k Hk. now apply lookup_unassign_other.
    - split; [|reflexivity].
      unfold matches, matchSimple, getAttribute in Em.
      cbn [existsb forallb] in Em.
      now destruct (lookup "data-cart-status" (attrs d1)). }
  destruct H2 as (S2 & K2).
  assert (H3 : forall k, k <> "href" ->
               getAttribute k (withChildren
                 (if matches aHrefCart d2 then removeAttribute "href" d2
                  else d2) cs3) = getAttribute k d2).
  { intros k Hk. destruct (matches _ d2); unfold getAttribute;
      cbn [withChildren removeAttribute withAttrs attrs tagName];
      [now apply lookup_unassign_other|reflexivity]. }
  split; [|split].
  - intros v. rewrite H3, K2 by discriminate. apply H1.
  - now rewrite H3 by discriminate.
  - rewrite matches_shallow. destruct (matches aHrefCart d2) eqn:Em;
      [|exact Em].
    unfold matches, aHrefCart, matchSimple, getAttribute.
    cbn [existsb forallb removeAttribute withAttrs attrs tagName].
    rewrite lookup_unassign_same. now rewrite andb_false_r.
Qed.

(** The nodes of the heart icon: an [svg] and a [path], with no
    identifier, no [data-cart-status] and no [href]. *)
Lemma createHeartSvg_nodes base r s l (x : elem) :
  createHeartSvg base r = (Some s, l) -> In x (flatten s) ->
  (tagName x = "svg" \/ tagName x = "path")
  /\ getAttribute "id" x = None
  /\ getAttribute "data-cart-status" x = None
  /\ getAttribute "href" x = None.
Proof.
  unfold createHeartSvg. cbn [heartIconSVG hd_error].
  destruct r as [r|]; intros [= <- <-] Hx;
    cbn [flatten descendants setAttribute withAttrs children flat_map app]
      in Hx;
    destruct Hx as [<-|[<-|[]]];
    unfold getAttribute;
    cbn [setAttribute withAttrs attrs tagName];
    rewrite ?lookup_assign_other by discriminate;
    (split; [auto|repeat split]).
Qed.

(** A shallow test that fails on the descendants of the clone and on the
    nodes of the heart icon fails on the descendants of the built
    element. *)
Lemma built_descendants (P : elem -> bool) doc cart w hs logs :
  shallow P ->
  (forall x, In x (descendants (modifyClone (cloneNode (S (maxId doc)) cart)))
             -> P x = false) ->
  (forall r s l x, createHeartSvg (S (maxId doc) + S (maxId doc)) r
                   = (Some s, l) -> In x (flatten s) -> P x = false) ->
  built doc cart = (w, hs, logs) ->
  forall x, In x (descendants w) -> P x = false.
Proof.
  intros HP Hd Hh.
  set (base := S (maxId doc) + S (maxId doc)) in *.
  set (w0 := modifyClone (cloneNode (S (maxId doc)) cart)) in *.
  unfold substituteIcon.
  assert (Happend : forall r s l, createHeartSvg base r = (Some s, l) ->
            forall x, In x (descendants (appendChild s w0)) -> P x = false).
  { intros r s l E x Hx. rewrite descendants_eq in Hx.
    unfold appendChild in Hx. cbn [withChildren children] in Hx.
    rewrite flat_map_app in Hx. apply in_app_or in Hx.
    destruct Hx as [Hx|Hx].
    - apply Hd. now rewrite descendants_eq.
    - cbn [flat_map] in Hx. rewrite app_nil_r in Hx.
      exact (Hh r s l x E Hx). }
  destruct (querySelector iconSelector w0) as [o|],
           (querySelector iconSelector cart) as [r|].
  1: destruct (createHeartSvg base (Some r)) as [[s|] l] eqn:E.
  3-5: destruct (createHeartSvg base None) as [[s|] l] eqn:E.
  - unfold replaceChild.
    destruct (splice (nid o) (fun _ => [s]) w0) as [w'|] eqn:Es;
      intros [= <- <- <-]; [|exact Hd].
    apply count_zero.
    destruct (@splice_count _ _ _ HP _ _ Es) as (_ & c & _ & _ & Hc).
    cbn [flat_map] in Hc. rewrite app_nil_r in Hc.
    rewrite (proj2 (count_zero P (descendants w0)) Hd) in Hc.
    rewrite (proj2 (count_zero P (flatten s)) (fun x => Hh _ _ _ x E)) in Hc.
    lia.
  - intros [= <- <- <-]. exact Hd.
  - intros [= <- <- <-]. exact (Happend _ _ _ E).
  - intros [= <- <- <-]. exact Hd.
  - intros [= <- <- <-]. exact (Happend _ _ _ E).
  - intros [= <- <- <-]. exact Hd.
  - intros [= <- <- <-]. exact (Happend _ _ _ E).
  - intros [= <- <- <-]. exact Hd.
Qed.

(** The same for the descendants of the inserted element, for a test that
    does not look at the [transform] attribute. *)
Lemma inserted_descendants (P : elem -> bool) doc cart w hs logs w' :
  shallow P ->
  (forall n v x, P (updateNode n (setAttribute "transform" v) x) = P x) ->
  (forall d, P (sanitizeDescendant d) = false) ->
  (forall r s l x, createHeartSvg (S (maxId doc) + S (maxId doc)) r
                   = (Some s, l) -> In x (flatten s) -> P x = false) ->
  built doc cart = (w, hs, logs) ->
  (w' = w
   \/ exists v,
        w' = updateNode (S (maxId doc) + S (maxId doc) + 1)
                        (setAttribute "transform" v) w) ->
  forall x, In x (descendants w') -> P x = false.
Proof.
  intros HP HU Hs Hh Hsub Hw'.
  assert (Hw : forall x, In x (descendants w) -> P x = false).
  { apply (@built_descendants P doc cart w hs logs HP); try assumption.
    intros x Hx. rewrite descendants_modifyClone in Hx.
    apply in_map_iff in Hx. destruct Hx as (d & <- & _). apply Hs. }
  destruct Hw' as [->|[v ->]]; [exact Hw|].
  intros x Hx.
  rewrite descendants_updateNode in Hx. apply in_map_iff in Hx. destruct Hx as (y & <- & Hy).
  rewrite HU. now apply Hw.
Qed.

(** The run of [inject] that inserts, summed up: the element found by its
    marker is the built element up to the transform of the heart path; the
    document is the old one with this element inserted before the
    anchor. *)
Lemma inject_element h doc sel p anc cart :
  isEmpty sel = false ->
  resolves h doc sel (p :: anc) cart ->
  inserted doc = None ->
  exists w hs logs w',
    built doc cart = (w, hs, logs)
    /\ (w' = w
        \/ exists v,
             w' = updateNode (S (maxId doc) + S (maxId doc) + 1)
                             (setAttribute "transform" v) w)
    /\ insertBefore w' (nid cart) doc = Some (fst (inject h doc (Some sel)))
    /\ inserted (fst (inject h doc (Some sel))) = Some w'
    /\ shell w' = shell (modifyClone (cloneNode (S (maxId doc)) cart)).
Proof.
  intros Hsel Hres Hno.
  destruct (built doc cart) as [[w hs] logs] eqn:Hsub.
  destruct (inject_result Hsel Hres Hno Hsub) as (w' & Hw' & Hins & Hfound).
  exists w, hs, logs, w'. repeat split; try assumption.
  destruct Hres as (test & _ & Hf).
  exact (@inserted_root doc cart w hs logs w' (@walk_node _ _ _ _ Hf)
           Hsub Hw').
Qed.

Lemma matches_updateNode (sel : selector) n v (x : elem) :
  Forall (Forall avoidsTransform) sel ->
  matches sel (updateNode n (setAttribute "transform" v) x) = matches sel x.
Proof.
  intros H. unfold matches.
  induction H as [|c sel Hc _ IH]; [reflexivity|].
  cbn [existsb]. rewrite IH. f_equal. clear IH.
  induction Hc as [|s c Hs _ IHc]; [reflexivity|].
  cbn [forallb]. rewrite IHc. f_equal.
  destruct s as [name|name|name sub]; cbn [matchSimple avoidsTransform] in *.
  - now rewrite updateNode_tagName.
  - now rewrite updateNode_getAttribute.
  - now rewrite updateNode_getAttribute.
Qed.

Lemma matches_shell (sel : selector) (e : elem) :
  matches sel (shell e) = matches sel e.
Proof. apply matches_shallow. Qed.

Lemma getAttribute_shell k (e : elem) :
  getAttribute k (shell e) = getAttribute k e.
Proof. now destruct e. Qed.

Lemma tagName_shell (e : elem) : tagName (shell e) = tagName e.
Proof. now destruct e. Qed.

Lemma onclick_shell (e : elem) : onclick (shell e) = onclick e.
Proof. now destruct e. Qed.

Lemma inlineStyle_shell (e : elem) : inlineStyle (shell e) = inlineStyle e.
Proof. now destruct e. Qed.

(** The attributes of the root of the clone after step 4. *)
Lemma modifyClone_attributes (c : elem) :
  getAttribute "id" (modifyClone c) = Some wishlistButtonId
  /\ getAttribute "aria-label" (modifyClone c) = Some wishlistAriaLabel
  /\ forall k, k <> "id" -> k <> "class" -> k <> "href" ->
               k <> "aria-label" ->
               getAttribute k (modifyClone c) = getAttribute k c.
Proof.
  destruct (modifyClone_fields c) as (a2 & Hk & Hid & ->).
  unfold getAttribute. cbn [attrs].
  assert (Hpass : forall k, k <> "aria-label" -> k <> "href" ->
            lookup k (assign "aria-label" wishlistAriaLabel
                        (let a5 := if matches aHrefCart c
                                   then unassign "href" a2 else a2 in
                         if (tagName c =? "A")%string
                         then assign "href" wishlistPageUrl a5 else a5))
            = lookup k a2).
  { intros k K1 K2. rewrite lookup_assign_other by assumption. cbv zeta.
    destruct (tagName c =? "A")%string;
      [rewrite lookup_assign_other by assumption|];
      destruct (matches aHrefCart _); try reflexivity;
      now apply lookup_unassign_other. }
  split; [now rewrite Hpass by discriminate|].
  split; [apply lookup_assign_same|].
  intros k K1 K2 K3 K4. rewrite Hpass by assumption. now apply Hk.
Qed.

(** The activation of the root of the clone after step 4, for an anchor
    that is not an [A] element. *)
Lemma modifyClone_activation (c : elem) :
  (tagName c =? "A")%string = false ->
  onclick (modifyClone c) = Some (NavigateTo wishlistPageUrl)
  /\ inlineStyle (modifyClone c)
     = assign "cursor" "pointer" (inlineStyle c).
Proof.
  intros Ht. destruct (modifyClone_fields c) as (a2 & _ & _ & ->).
  cbn [onclick inlineStyle]. now rewrite Ht.
Qed.

Lemma inlineStyle_cloneNode base (e : elem) :
  inlineStyle (cloneNode base e) = inlineStyle e.
Proof. now destruct e. Qed.

(** The activation of the inserted element for an anchor that is not an
    [A] element. *)
Lemma inserted_activation h doc sel p anc cart :
  isEmpty sel = false ->
  resolves h doc sel (p :: anc) cart ->
  inserted doc = None ->
  (tagName cart =? "A")%string = false ->
  exists w,
    inserted (fst (inject h doc (Some sel))) = Some w
    /\ tagName w = tagName cart
    /\ onclick w = Some (NavigateTo wishlistPageUrl)
    /\ inlineStyle w = assign "cursor" "pointer" (inlineStyle cart).
Proof.
  intros Hs Hres Hno Htag.
  destruct (inject_element Hs Hres Hno)
    as (w & hs & logs & w' & _ & _ & _ & Hfound & Hshell).
  exists w'. split; [exact Hfound|].
  destruct (cloneNode_root (S (maxId doc)) cart) as (_ & Ht & _).
  destruct (modifyClone_activation (cloneNode (S (maxId doc)) cart))
    as (Ho & Hst); [now rewrite Ht|].
  destruct (modifyClone_root (cloneNode (S (maxId doc)) cart))
    as (_ & Htag' & _).
  rewrite <- (onclick_shell w'), <- (inlineStyle_shell w'),
    <- (tagName_shell w'), Hshell,
    onclick_shell, inlineStyle_shell, tagName_shell, Ho, Hst,
    inlineStyle_cloneNode.
  repeat split. congruence.
Qed.

(* ------------------------------------------------------------------ *)
(** ** The inserted element *)

(** X4.  The document an inserting run leaves is the document it started
    from with one element, the one found by the marker, inserted before the
    anchor: whatever the matcher did afterwards, it changed nothing outside
    the inserted element. *)
Theorem inject_is_one_insertion (h : Host) (doc : elem) (sel : string)
        (p : elem) (anc : list elem) (cart : elem) :
  isEmpty sel = false ->
  resolves h doc sel (p :: anc) cart ->
  inserted doc = None ->
  exists w,
    inserted (fst (inject h doc (Some sel))) = Some w
    /\ insertBefore w (nid cart) doc = Some (fst (inject h doc (Some sel))).
Proof.
  intros Hs Hres Hno.
  destruct (inject_element Hs Hres Hno)
    as (w & hs & logs & w' & _ & _ & Hins & Hfound & _).
  exists w'. now split.
Qed.

Lemma one_insertion_witness :
  isEmpty "cart-drawer-component" = false
  /\ resolves themeHost themeDoc "cart-drawer-component"
              [themeHeader; themeDoc] themeCart
  /\ inserted themeDoc = None
  /\ exists w,
       inserted (fst (inject themeHost themeDoc
                        (Some "cart-drawer-component"))) = Some w
       /\ insertBefore w (nid themeCart) themeDoc
          = Some (fst (inject themeHost themeDoc
                         (Some "cart-drawer-component"))).
Proof.
  split; [reflexivity|]. split; [exact themeDoc_resolves|].
  split; [reflexivity|].
  exact (@inject_is_one_insertion themeHost themeDoc "cart-drawer-component"
           themeHeader [themeDoc] themeCart eq_refl themeDoc_resolves eq_refl).
Defined.

(** X5.  In a document whose nodes have distinct identities, the inserted
    element and the anchor are children of one node, the inserted element
    immediately before the anchor, and the anchor is there with its subtree
    as it was. *)
Theorem inserted_before_anchor (h : Host) (doc : elem) (sel : string)
        (p : elem) (anc : list elem) (cart : elem) :
  NoDup (ids doc) ->
  isEmpty sel = false ->
  resolves h doc sel (p :: anc) cart ->
  inserted doc = None ->
  exists w parent before after,
    inserted (fst (inject h doc (Some sel))) = Some w
    /\ In parent (flatten (fst (inject h doc (Some sel))))
    /\ children parent = before ++ w :: cart :: after.
Proof.
  intros Hnd Hs Hres Hno.
  destruct (inject_element Hs Hres Hno)
    as (w & hs & logs & w' & _ & _ & Hins & Hfound & _).
  unfold insertBefore in Hins.
  destruct (splice_parent _ _ _ Hins) as (y & k1 & c & k2 & Hy & Hch & Hc & Hid).
  destruct Hres as (test & _ & Hf).
  assert (c = cart) as ->.
  { apply (@NoDup_map_inj _ _ nid (flatten doc)); try assumption.
    - now right.
    - exact (@walk_node _ _ _ _ Hf). }
  exists w', y, k1, k2. repeat split; assumption.
Qed.

Lemma inserted_before_anchor_witness :
  NoDup (ids themeDoc)
  /\ isEmpty "cart-drawer-component" = false
  /\ resolves themeHost themeDoc "cart-drawer-component"
              [themeHeader; themeDoc] themeCart
  /\ inserted themeDoc = None
  /\ exists w parent before after,
       inserted (fst (inject themeHost themeDoc
                        (Some "cart-drawer-component"))) = Some w
       /\ In parent (flatten (fst (inject themeHost themeDoc
                                     (Some "cart-drawer-component"))))
       /\ children parent = before ++ w :: themeCart :: after.
Proof.
  split; [exact themeDoc_distinct|]. split; [reflexivity|].
  split; [exact themeDoc_resolves|]. split; [reflexivity|].
  exact (@inserted_before_anchor themeHost themeDoc "cart-drawer-component"
           themeHeader [themeDoc] themeCart themeDoc_distinct eq_refl
           themeDoc_resolves eq_refl).
Defined.

(** X6.  The root of the inserted element has the tag name of the anchor,
    the marker as [id], the wishlist label as [aria-label], and every other
    attribute of the anchor but [class], [href] and [style], with its
    value. *)
Theorem inserted_root_inherits_attributes (h : Host) (doc : elem)
        (sel : string) (p : elem) (anc : list elem) (cart : elem) :
  isEmpty sel = false ->
  resolves h doc sel (p :: anc) cart ->
  inserted doc = None ->
  exists w,
    inserted (fst (inject h doc (Some sel))) = Some w
    /\ tagName w = tagName cart
    /\ getAttribute "id" w = Some wishlistButtonId
    /\ getAttribute "aria-label" w = Some wishlistAriaLabel
    /\ forall k, k <> "id" -> k <> "class" -> k <> "href" ->
                 k <> "aria-label" -> k <> "style" ->
                 getAttribute k w = getAttribute k cart.
Proof.
  intros Hs Hres Hno.
  destruct (inject_element Hs Hres Hno)
    as (w & hs & logs & w' & _ & _ & _ & Hfound & Hshell).
  exists w'. split; [exact Hfound|].
  destruct (cloneNode_root (S (maxId doc)) cart) as (_ & Ht & Ha).
  destruct (modifyClone_root (cloneNode (S (maxId doc)) cart))
    as (_ & Htag & _).
  destruct (modifyClone_attributes (cloneNode (S (maxId doc)) cart))
    as (Hid & Hlabel & Hk).
  split; [rewrite <- (tagName_shell w'), Hshell, tagName_shell; congruence|].
  split; [now rewrite <- (getAttribute_shell _ w'), Hshell,
            getAttribute_shell|].
  split; [now rewrite <- (getAttribute_shell _ w'), Hshell,
            getAttribute_shell|].
  intros k K1 K2 K3 K4 _.
  rewrite <- (getAttribute_shell _ w'), Hshell, getAttribute_shell.
  rewrite (Hk k K1 K2 K3 K4). unfold getAttribute. now rewrite Ha.
Qed.

Lemma inherited_attributes_witness :
  isEmpty "cart-drawer-component" = false
  /\ resolves themeHost themeDoc "cart-drawer-component"
              [themeHeader; themeDoc] themeCart
  /\ inserted themeDoc = None
  /\ exists w,
       inserted (fst (inject themeHost themeDoc
                        (Some "cart-drawer-component"))) = Some w
       /\ tagName w = tagName themeCart
       /\ getAttribute "id" w = Some wishlistButtonId
       /\ getAttribute "aria-label" w = Some wishlistAriaLabel
       /\ forall k, k <> "id" -> k <> "class" -> k <> "href" ->
                    k <> "aria-label" -> k <> "style" ->
                    getAttribute k w = getAttribute k themeCart.
Proof.
  split; [reflexivity|]. split; [exact themeDoc_resolves|].
  split; [reflexivity|].
  exact (@inserted_root_inherits_attributes themeHost themeDoc
           "cart-drawer-component" themeHeader [themeDoc] themeCart
           eq_refl themeDoc_resolves eq_refl).
Defined.

(** X7.  When the anchor is not an [A] element, the inserted element
    carries the click handler that navigates to the wishlist page and the
    inline style [cursor: pointer]; the other inline declarations are those
    of the anchor. *)
Theorem non_link_anchor_gets_click_handler (h : Host) (doc : elem)
        (sel : string) (p : elem) (anc : list elem) (cart : elem) :
  isEmpty sel = false ->
  resolves h doc sel (p :: anc) cart ->
  inserted doc = None ->
  (tagName cart =? "A")%string = false ->
  exists w,
    inserted (fst (inject h doc (Some sel))) = Some w
    /\ onclick w = Some (NavigateTo wishlistPageUrl)
    /\ lookup "cursor" (inlineStyle w) = Some "pointer"
    /\ forall k, k <> "cursor" ->
                 lookup k (inlineStyle w) = lookup k (inlineStyle cart).
Proof.
  intros Hs Hres Hno Htag.
  destruct (inserted_activation Hs Hres Hno Htag)
    as (w & Hfound & _ & Ho & Hst).
  exists w. split; [exact Hfound|]. split; [exact Ho|]. rewrite Hst.
  split; [apply lookup_assign_same|].
  intros k Hk. now apply lookup_assign_other.
Qed.

Lemma non_link_anchor_witness :
  isEmpty "cart-drawer-component" = false
  /\ resolves themeHost themeDoc "cart-drawer-component"
              [themeHeader; themeDoc] themeCart
  /\ inserted themeDoc = None
  /\ (tagName themeCart =? "A")%string = false
  /\ exists w,
       inserted (fst (inject themeHost themeDoc
                        (Some "cart-drawer-component"))) = Some w
       /\ onclick w = Some (NavigateTo wishlistPageUrl)
       /\ lookup "cursor" (inlineStyle w) = Some "pointer"
       /\ forall k, k <> "cursor" ->
                    lookup k (inlineStyle w)
                    = lookup k (inlineStyle themeCart).
Proof.
  split; [reflexivity|]. split; [exact themeDoc_resolves|].
  split; [reflexivity|]. split; [reflexivity|].
  exact (@non_link_anchor_gets_click_handler themeHost themeDoc
           "cart-drawer-component" themeHeader [themeDoc] themeCart
           eq_refl themeDoc_resolves eq_refl eq_refl).
Defined.

(** X8.  No node of the inserted element, the root included, has an [id]
    that contains "cart": [[id*="cart"]] matches nothing there. *)
Theorem no_cart_identifier_in_inserted (h : Host) (doc : elem)
        (sel : string) (p : elem) (anc : list elem) (cart : elem) :
  isEmpty sel = false ->
  resolves h doc sel (p :: anc) cart ->
  inserted doc = None ->
  exists w,
    inserted (fst (inject h doc (Some sel))) = Some w
    /\ forall x, In x (flatten w) ->
                 matches [[AttrContains "id" "cart"]] x = false.
Proof.
  intros Hs Hres Hno.
  destruct (inject_element Hs Hres Hno)
    as (w & hs & logs & w' & Hsub & Hw' & _ & Hfound & Hshell).
  exists w'. split; [exact Hfound|]. intros x [<-|Hx].
  - rewrite <- matches_shell, Hshell, matches_shell.
    destruct (modifyClone_root (cloneNode (S (maxId doc)) cart))
      as (_ & _ & Hm & _).
    unfold hasMarker, hasId in Hm. unfold matches, matchSimple.
    cbn [existsb forallb].
    destruct (getAttribute "id" _) as [v|]; [|reflexivity].
    apply String.eqb_eq in Hm. subst v. reflexivity.
  - revert x Hx.
    apply (@inserted_descendants _ doc cart w hs logs w'
             (matches_shallow _)); try assumption.
    + intros n v x. apply matches_updateNode.
      repeat constructor. discriminate.
    + intros d. destruct (sanitizeDescendant_clean d) as (Hd & _).
      unfold matches, matchSimple. cbn [existsb forallb].
      destruct (getAttribute "id" _) as [v|]; [|reflexivity].
      now rewrite (Hd v eq_refl).
    + intros r s l x E Hx.
      destruct (@createHeartSvg_nodes _ _ _ _ x E Hx) as (_ & Hh & _).
      unfold matches, matchSimple. cbn [existsb forallb].
      now rewrite Hh.
Qed.

Lemma no_cart_identifier_witness :
  isEmpty "a" = false
  /\ resolves noLayout linkDoc "a" [linkNav; linkDoc] linkAnchor
  /\ inserted linkDoc = None
  /\ exists w,
       inserted (fst (inject noLayout linkDoc (Some "a"))) = Some w
       /\ forall x, In x (flatten w) ->
                    matches [[AttrContains "id" "cart"]] x = false.
Proof.
  split; [reflexivity|]. split; [exact linkDoc_resolves|].
  split; [reflexivity|].
  exact (@no_cart_identifier_in_inserted noLayout linkDoc "a" linkNav
           [linkDoc] linkAnchor eq_refl linkDoc_resolves eq_refl).
Defined.

(** X9.  No descendant of the inserted element has a [data-cart-status]
    attribute; the root keeps the one of the anchor, since
    [querySelectorAll] does not return the element it is called on. *)
Theorem cart_status_removed_below_root (h : Host) (doc : elem)
        (sel : string) (p : elem) (anc : list elem) (cart : elem) :
  isEmpty sel = false ->
  resolves h doc sel (p :: anc) cart ->
  inserted doc = None ->
  exists w,
    inserted (fst (inject h doc (Some sel))) = Some w
    /\ (forall x, In x (descendants w) ->
                  getAttribute "data-cart-status" x = None)
    /\ getAttribute "data-cart-status" w
       = getAttribute "data-cart-status" cart.
Proof.
  intros Hs Hres Hno.
  destruct (inject_element Hs Hres Hno)
    as (w & hs & logs & w' & Hsub & Hw' & _ & Hfound & Hshell).
  exists w'. split; [exact Hfound|]. split.
  - intros x Hx.
    enough (H : matches [[HasAttr "data-cart-status"]] x = false).
    { unfold matches, matchSimple in H. cbn [existsb forallb] in H.
      now destruct (getAttribute "data-cart-status" x). }
    revert x Hx.
    apply (@inserted_descendants _ doc cart w hs logs w'
             (matches_shallow _)); try assumption.
    + intros n v x. apply matches_updateNode.
      repeat constructor. discriminate.
    + intros d. destruct (sanitizeDescendant_clean d) as (_ & Hd & _).
      unfold matches, matchSimple. cbn [existsb forallb].
      now rewrite Hd.
    + intros r s l x E Hx.
      destruct (@createHeartSvg_nodes _ _ _ _ x E Hx) as (_ & _ & Hh & _).
      unfold matches, matchSimple. cbn [existsb forallb].
      now rewrite Hh.
  - destruct (cloneNode_root (S (maxId doc)) cart) as (_ & _ & Ha).
    destruct (modifyClone_attributes (cloneNode (S (maxId doc)) cart))
      as (_ & _ & Hk).
    rewrite <- (getAttribute_shell _ w'), Hshell, getAttribute_shell.
    rewrite Hk by discriminate. unfold getAttribute. now rewrite Ha.
Qed.

Lemma cart_status_witness :
  isEmpty "cart-drawer-component" = false
  /\ resolves themeHost themeDoc "cart-drawer-component"
              [themeHeader; themeDoc] themeCart
  /\ inserted themeDoc = None
  /\ exists w,
       inserted (fst (inject themeHost themeDoc
                        (Some "cart-drawer-component"))) = Some w
       /\ (forall x, In x (descendants w) ->
                     getAttribute "data-cart-status" x = None)
       /\ getAttribute "data-cart-status" w
          = getAttribute "data-cart-status" themeCart.
Proof.
  split; [reflexivity|]. split; [exact themeDoc_resolves|].
  split; [reflexivity|].
  exact (@cart_status_removed_below_root themeHost themeDoc
           "cart-drawer-component" themeHeader [themeDoc] themeCart
           eq_refl themeDoc_resolves eq_refl).
Defined.



(** The icon [querySelector] finds in the clone is the copy of the one it
    finds in the anchor. *)
Lemma querySelector_clone_icon base (cart r : elem) :
  querySelector iconSelector cart = Some r ->
  querySelector iconSelector (modifyClone (cloneNode base cart))
  = Some (sanitizeDescendant (cloneNode base r)).
Proof.
  unfold querySelector. rewrite descendants_modifyClone, find_map.
  intros H. rewrite (find_ext_in _ (matches iconSelector)); [now rewrite H|].
  intros x _. destruct (sanitizeDescendant_root (cloneNode base x))
    as (Ht & Hc & _). destruct (cloneNode_root base x) as (_ & Ht' & Ha').
  apply matches_tag_class; [congruence|].
  rewrite Hc. unfold getAttribute. now rewrite Ha'.
Qed.

(** After the first matching descendant has been replaced by a matching
    node, the first matching descendant is that node. *)
Lemma replaceChild_first (P : elem -> bool) (new o : elem) :
  shallow P ->
  forall e e', find P (descendants e) = Some o -> P new = true ->
  replaceChild new (nid o) e = Some e' ->
  find P (descendants e') = Some new.
Proof.
  intros HP e e' Hfind Hnew Hrep. unfold replaceChild in Hrep.
  destruct (splice_shape _ _ _ Hrep)
    as (_ & l1 & l1' & c & l2 & Hd & Hd' & Hm & Hc & Hbefore).
  rewrite Hd, find_app in Hfind.
  assert (H1 : find P l1 = None).
  { destruct (find P l1) as [x|] eqn:E; [|reflexivity].
    injection Hfind as ->. apply find_some in E.
    now destruct (Hbefore o (proj1 E)). }
  assert (H1' : find P l1' = None).
  { apply find_none_iff. intros x' Hx'.
    assert (Hin : In (shell x') (map shell l1)).
    { rewrite <- Hm. now apply in_map. }
    apply in_map_iff in Hin. destruct Hin as (x & Hsh & Hx).
    rewrite <- (HP x' []). fold (shell x'). rewrite <- Hsh.
    unfold shell. rewrite HP.
    exact (proj1 (find_none_iff P l1) H1 x Hx). }
  rewrite Hd', find_app, H1'. cbn [flat_map]. rewrite app_nil_r.
  unfold flatten. cbn [app find]. now rewrite Hnew.
Qed.

(** With an icon to replace, step 5 logs nothing and leaves the heart icon
    as the first icon of the element. *)
Lemma substituteIcon_with_icon base w0 o r w hs logs :
  querySelector iconSelector w0 = Some o ->
  substituteIcon base w0 (Some o) (Some r) = (w, hs, logs) ->
  exists s,
    hs = Some s /\ logs = []
    /\ createHeartSvg base (Some r) = (Some s, [])
    /\ querySelector iconSelector w = Some s.
Proof.
  intros Ho Hsub. unfold substituteIcon in Hsub.
  destruct (createHeartSvg_fresh base (Some r))
    as (s & path & E & _ & Ht & _).
  rewrite E in Hsub.
  assert (Hm : matches iconSelector s = true).
  { unfold matches, iconSelector, matchSimple. cbn [existsb forallb].
    now rewrite Ht. }
  exists s.
  destruct (replaceChild s (nid o) w0) as [w1|] eqn:Hrep.
  - injection Hsub as <- <- <-. repeat split; try assumption.
    exact (@replaceChild_first _ s _ (matches_shallow iconSelector)
             _ _ Ho Hm Hrep).
  - unfold querySelector in Ho. apply find_some in Ho.
    destruct (@splice_some _ (fun _ => [s]) _ _ (proj1 Ho) eq_refl)
      as [w1 Hw1].
    unfold replaceChild in Hrep. congruence.
Qed.

Lemma built_with_icon doc cart r w hs logs :
  querySelector iconSelector cart = Some r ->
  built doc cart = (w, hs, logs) ->
  exists s,
    hs = Some s /\ logs = []
    /\ createHeartSvg (S (maxId doc) + S (maxId doc)) (Some r) = (Some s, [])
    /\ querySelector iconSelector w = Some s.
Proof.
  intros Hr Hsub.
  pose proof (@querySelector_clone_icon (S (maxId doc)) _ _ Hr) as Ho.
  rewrite Hr in Hsub. rewrite Ho in Hsub at 1.
  exact (@substituteIcon_with_icon _ _ _ _ _ _ _ Ho Hsub).
Qed.

(** X11.  When the anchor holds an icon, the first icon-like descendant
    of the inserted element is the heart icon: an [svg] with the [viewBox]
    of the template whose [class] is the value read from the icon of the
    anchor. *)
Theorem heart_replaces_icon_in_place (h : Host) (doc : elem) (sel : string)
        (p : elem) (anc : list elem) (cart r : elem) :
  isEmpty sel = false ->
  resolves h doc sel (p :: anc) cart ->
  inserted doc = None ->
  querySelector iconSelector cart = Some r ->
  exists w s,
    inserted (fst (inject h doc (Some sel))) = Some w
    /\ querySelector iconSelector w = Some s
    /\ tagName s = "svg"
    /\ getAttribute "class" s = Some (toDOMString (getAttribute "class" r))
    /\ getAttribute "viewBox" s = Some "0 0 24 24".
Proof.
  intros Hs Hres Hno Hr.
  destruct (inject_element Hs Hres Hno)
    as (w & hs & logs & w' & Hsub & Hw' & _ & Hfound & _).
  destruct (@built_with_icon _ _ _ _ _ _ Hr Hsub) as (s & _ & _ & E & Hw).
  destruct (createHeartSvg_fresh (S (maxId doc) + S (maxId doc)) (Some r))
    as (s0 & path & E0 & _ & Ht & _ & _ & _ & _ & _ & _ & Hvb & Hcl).
  rewrite E in E0. injection E0 as <-.
  destruct Hw' as [->|[v ->]].
  - exists w, s. repeat split; assumption.
  - exists (updateNode (S (maxId doc) + S (maxId doc) + 1)
              (setAttribute "transform" v) w),
           (updateNode (S (maxId doc) + S (maxId doc) + 1)
              (setAttribute "transform" v) s).
    split; [exact Hfound|]. split.
    + unfold querySelector in *. rewrite descendants_updateNode, find_map.
      rewrite (find_ext_in _ (matches iconSelector)); [now rewrite Hw|].
      intros x _. apply matches_updateNode.
      repeat constructor; discriminate.
    + rewrite updateNode_tagName, !updateNode_getAttribute by discriminate.
      repeat split; assumption.
Qed.

Lemma heart_in_place_witness :
  isEmpty "cart-drawer-component" = false
  /\ resolves themeHost themeDoc "cart-drawer-component"
              [themeHeader; themeDoc] themeCart
  /\ inserted themeDoc = None
  /\ querySelector iconSelector themeCart
     = Some (Elem 3 "svg"
               [("class", "icon icon-cart"); ("viewBox", "0 0 40 40")]
               [] None
               [Elem 4 "path" [("d", "M0 0h40v40z")] [] None []])
  /\ exists w s,
       inserted (fst (inject themeHost themeDoc
                        (Some "cart-drawer-component"))) = Some w
       /\ querySelector iconSelector w = Some s
       /\ tagName s = "svg"
       /\ getAttribute "class" s = Some "icon icon-cart"
       /\ getAttribute "viewBox" s = Some "0 0 24 24".
Proof.
  split; [reflexivity|]. split; [exact themeDoc_resolves|].
  split; [reflexivity|]. split; [reflexivity|].
  exact (@heart_replaces_icon_in_place themeHost themeDoc
           "cart-drawer-component" themeHeader [themeDoc] themeCart _
           eq_refl themeDoc_resolves eq_refl eq_refl).
Defined.

(* ------------------------------------------------------------------ *)
(** ** The matcher as [inject] calls it *)

Lemma deref_find (doc : elem) (n : nat) :
  deref doc (Some n) = find (fun e => nid e =? n) (flatten doc).
Proof.
  unfold deref, nodeById. now rewrite <- (walk_snd doc []), find_map.
Qed.

(** A node of the document is found by its identity. *)
Lemma deref_some (doc x : elem) :
  In x (flatten doc) -> exists y, deref doc (Some (nid x)) = Some y.
Proof.
  intros Hx. rewrite deref_find.
  destruct (find _ (flatten doc)) as [y|] eqn:E; [eauto|].
  pose proof (proj1 (find_none_iff _ _) E x Hx) as H. cbv beta in H.
  now rewrite Nat.eqb_refl in H.
Qed.

(** The nodes of the inserted tree and those of the tree it was inserted
    before are nodes of the new document. *)
Lemma insertBefore_contains (w : elem) (ref : nat) (e e' : elem) :
  insertBefore w ref e = Some e' ->
  exists c, nid c = ref /\ In c (descendants e)
    /\ incl (flatten w) (descendants e') /\ incl (flatten c) (descendants e').
Proof.
  intros Hins. unfold insertBefore in Hins.
  destruct (splice_shape _ _ _ Hins)
    as (_ & l1 & l1' & c & l2 & Hd & Hd' & _ & Hc & _).
  exists c. split; [exact Hc|]. split.
  { rewrite Hd. apply in_or_app. right. apply in_or_app. left. now left. }
  cbn [flat_map] in Hd'. rewrite app_nil_r in Hd'. rewrite Hd'.
  split; intros x Hx; apply in_or_app; right; apply in_or_app; left;
    apply in_or_app; [now left|now right].
Qed.

(** In a document whose nodes have distinct identities, a node under the
    anchor is found by its identity after the insertion, as it was. *)
Lemma deref_under_anchor doc cart r w doc1 :
  NoDup (ids doc) ->
  In cart (descendants doc) ->
  In r (flatten cart) ->
  (forall x, In x (flatten w) -> nid x <> nid r) ->
  insertBefore w (nid cart) doc = Some doc1 ->
  deref doc1 (Some (nid r)) = Some r.
Proof.
  intros Hnd Hcart Hr Hw Hins.
  assert (Hcdoc : In cart (flatten doc)) by now right.
  assert (Hrdoc : In r (flatten doc)) by exact (@flatten_sub _ _ Hcdoc _ Hr).
  destruct (@insertBefore_contains _ _ _ _ Hins) as (c & Hcid & Hc & _ & Hsub).
  assert (c = cart) as ->.
  { apply (@NoDup_map_inj _ _ nid (flatten doc)); try assumption.
    now right. }
  assert (Hr1 : In r (flatten doc1)) by (right; now apply Hsub).
  destruct (@deref_some _ _ Hr1) as [y Hy]. rewrite Hy. f_equal.
  destruct (@deref_In _ _ _ Hy) as (Hin & Hid).
  unfold insertBefore in Hins.
  destruct (@splice_nodes _ _ _ _ _ Hins Hin)
    as [H|[(c & Hc' & Hcid' & Hp)|(z & cs & c & Hz & -> & Hcz & Hcid')]].
  - exact (@NoDup_map_inj _ _ nid _ _ _ Hnd H Hrdoc Hid).
  - cbn [flat_map] in Hp. rewrite app_nil_r in Hp.
    apply in_app_or in Hp. destruct Hp as [Hp|Hp].
    + now destruct (Hw y Hp).
    + assert (Hydoc : In y (flatten doc)).
      { apply (@flatten_sub c doc); [now right|exact Hp]. }
      exact (@NoDup_map_inj _ _ nid _ _ _ Hnd Hydoc Hrdoc Hid).
  - exfalso. cbn [withChildren nid] in Hid.
    assert (z = r) as ->
      by exact (@NoDup_map_inj _ _ nid _ _ _ Hnd Hz Hrdoc Hid).
    assert (c = cart) as ->.
    { apply (@NoDup_map_inj _ _ nid (flatten doc)); try assumption.
      apply (@flatten_sub _ _ Hrdoc). now right. }
    pose proof (@size_descendant _ _ Hcz).
    destruct Hr as [<-|Hr]; [lia|].
    pose proof (@size_descendant _ _ Hr). lia.
Qed.

(** X12.  When the icon of the anchor holds no [path] (an [img] or an
    icon font), in a document whose nodes have distinct identities: the log
    is the success message followed by the warning that no path was found
    in the reference icon, and the path of the heart icon in the inserted
    element has no [transform]. *)
Theorem reference_without_path_is_not_scaled (h : Host) (doc : elem)
        (sel : string) (p : elem) (anc : list elem) (cart r : elem) :
  NoDup (ids doc) ->
  isEmpty sel = false ->
  resolves h doc sel (p :: anc) cart ->
  inserted doc = None ->
  querySelector iconSelector cart = Some r ->
  querySelector pathSel r = None ->
  snd (inject h doc (Some sel)) = [injectedMsg; noPathMsg]
  /\ exists w s path,
       inserted (fst (inject h doc (Some sel))) = Some w
       /\ querySelector iconSelector w = Some s
       /\ querySelector pathSel s = Some path
       /\ getAttribute "transform" path = None.
Proof.
  intros Hnd Hs Hres Hno Hr Hpath.
  destruct (inject_inserts Hs Hres Hno)
    as (w & hs & logs & doc1 & Hsub & Hins & _).
  destruct (@built_with_icon _ _ _ _ _ _ Hr Hsub) as (s & -> & -> & E & Hw).
  destruct (createHeartSvg_fresh (S (maxId doc) + S (maxId doc)) (Some r))
    as (s0 & path & E0 & Hsid & _ & Hfl & Hpid & Hpt & Htr & _).
  rewrite E in E0. injection E0 as <-.
  assert (Hcart : In cart (descendants doc)).
  { destruct Hres as (test & _ & Hf).
    exact (@walk_proper_descendant _ _ _ _ _ Hf). }
  assert (Hrcart : In r (flatten cart)).
  { right. unfold querySelector in Hr. apply find_some in Hr. tauto. }
  assert (Hrdoc : In r (flatten doc)).
  { apply (@flatten_sub cart doc); [now right|exact Hrcart]. }
  assert (Hwr : forall x, In x (flatten w) -> nid x <> nid r).
  { intros x Hx. pose proof (@maxId_bound _ _ Hrdoc).
    destruct (@built_ids _ _ _ _ _ x (or_intror Hcart) Hsub Hx) as [H'|H'];
      [lia|].
    rewrite Hfl in H'. destruct H' as [<-|[<-|[]]]; lia. }
  pose proof (deref_under_anchor Hnd Hcart Hrcart Hwr Hins) as Hdr.
  assert (Hs1 : In s (flatten doc1)).
  { destruct (@insertBefore_contains _ _ _ _ Hins) as (c & _ & _ & Hin & _).
    right. apply Hin. right. unfold querySelector in Hw.
    apply find_some in Hw. tauto. }
  destruct (@deref_some _ _ Hs1) as [y Hy].
  assert (Hm : _matchIconScale h doc1 (Some (nid r)) (Some (nid s)) None
               = Ok (doc1, [noPathMsg])).
  { unfold _matchIconScale. now rewrite Hdr, Hy, Hpath. }
  split.
  - rewrite (inject_run_log Hs Hres Hno Hsub Hins), Hr, Hm. reflexivity.
  - exists w, s, path.
    rewrite (inject_run Hs Hres Hno Hsub Hins), Hr, Hm.
    split; [exact (@inserted_insertBefore _ _ _ _ Hno
                    (@built_marked _ _ _ _ _ Hsub) Hins)|].
    split; [exact Hw|]. split; [|exact Htr].
    unfold querySelector. unfold flatten in Hfl. injection Hfl as ->.
    cbn [find]. unfold matches, pathSel, matchSimple. cbn [existsb forallb].
    now rewrite Hpt.
Qed.

Lemma reference_without_path_witness :
  NoDup (ids imgDoc)
  /\ isEmpty "a" = false
  /\ resolves noLayout imgDoc "a" [imgHeader; imgDoc] imgAnchor
  /\ inserted imgDoc = None
  /\ querySelector iconSelector imgAnchor
     = Some (Elem 3 "IMG" [("src", "/cart.png"); ("class", "cart-img")]
                  [] None [])
  /\ snd (inject noLayout imgDoc (Some "a")) = [injectedMsg; noPathMsg]
  /\ exists w s path,
       inserted (fst (inject noLayout imgDoc (Some "a"))) = Some w
       /\ querySelector iconSelector w = Some s
       /\ querySelector pathSel s = Some path
       /\ getAttribute "transform" path = None.
Proof.
  split; [exact imgDoc_distinct|]. split; [reflexivity|].
  split; [exact imgDoc_resolves|]. split; [reflexivity|].
  split; [reflexivity|].
  exact (@reference_without_path_is_not_scaled noLayout imgDoc "a"
           imgHeader [imgDoc] imgAnchor _ imgDoc_distinct eq_refl
           imgDoc_resolves eq_refl eq_refl eq_refl).
Defined.

Lemma walk_lift (e : elem) :
  forall anc, walk anc e = map (liftAnc anc) (walk [] e).
Proof.
  induction e as [n t a s o cs IH] using elem_induction.
  intros anc. set (e := Elem n t a s o cs).
  change (walk anc e) with ((anc, e) :: flat_map (walk (e :: anc)) cs).
  change (walk [] e) with (([], e) :: flat_map (walk [e]) cs).
  cbn [map]. unfold liftAnc at 1. cbn [fst snd app]. f_equal.
  clearbody e. clear n t a s o.
  induction cs as [|c r IHr]; [reflexivity|].
  inversion IH as [|? ? IHc IHrest]; subst.
  cbn [flat_map]. rewrite map_app, <- (IHr IHrest). f_equal.
  rewrite (IHc (e :: anc)), (IHc [e]), map_map.
  apply map_ext. intros [a x]. unfold liftAnc. cbn [fst snd].
  now rewrite <- app_assoc.
Qed.

Lemma find_walk_absent (n : nat) (e : elem) (anc : list elem) :
  ~ In n (ids e) -> find (hasNid n) (walk anc e) = None.
Proof.
  intros Hn. apply find_none_iff. intros [a x] Hin.
  unfold hasNid. cbn [snd]. apply Nat.eqb_neq. intros E. apply Hn.
  unfold ids. rewrite <- (walk_snd e anc), map_map.
  apply in_map_iff. exists (a, x). now split.
Qed.

Lemma find_walk_forest_absent (n : nat) (l : list elem) (anc : list elem) :
  (forall c, In c l -> ~ In n (ids c)) ->
  find (hasNid n) (flat_map (walk anc) l) = None.
Proof.
  induction l as [|c r IH]; intros H; [reflexivity|].
  cbn [flat_map]. rewrite find_app, find_walk_absent by (apply H; now left).
  apply IH. intros x Hx. apply H. now right.
Qed.

Lemma find_walk_lift (n : nat) (e : elem) (anc : list elem) :
  find (hasNid n) (walk anc e)
  = option_map (liftAnc anc) (find (hasNid n) (walk [] e)).
Proof. rewrite (walk_lift e anc), find_map. reflexivity. Qed.

(** Where a new tree is spliced into a tree that does not hold the
    identity [n], the node of identity [n] is found in the new tree, under
    its ancestors there followed by others. *)
Lemma nodeById_spliced (n : nat) (new : elem) (keep : bool) (ref : nat) :
  forall e e', ~ In n (ids e) ->
  splice ref (fun c => new :: (if keep then [c] else [])) e = Some e' ->
  forall anc, exists anc',
    find (hasNid n) (walk anc e')
    = option_map (liftAnc anc') (find (hasNid n) (walk [] new)).
Proof.
  set (put := fun c : elem => new :: (if keep then [c] else [])).
  induction e as [m t a s o cs IH] using elem_induction.
  intros e' Hn. rewrite splice_eq. cbn [children].
  destruct (spliceList ref put (splice ref put) cs) as [cs'|] eqn:E;
    [|discriminate].
  cbn [option_map]. intros [= <-] anc.
  assert (Hm : (m =? n) = false).
  { apply Nat.eqb_neq. intros ->. apply Hn. now left. }
  assert (Hcs : forall c, In c cs -> ~ In n (ids c)).
  { intros c Hc Hin. apply Hn. unfold ids in *. cbn [flatten map].
    right. rewrite descendants_eq. cbn [children]. rewrite map_flat_map.
    apply in_flat_map. now exists c. }
  set (e' := withChildren (Elem m t a s o cs) cs').
  change (walk anc e') with ((anc, e') :: flat_map (walk (e' :: anc)) cs').
  cbn [find]. unfold hasNid at 1. cbn [snd e' withChildren nid].
  rewrite Hm. generalize (e' :: anc) as A. clear e' Hm Hn anc.
  clear m t a s o. revert cs' E.
  induction cs as [|c r IHr]; intros cs' E A; [discriminate|].
  inversion IH as [|? ? IHc IHrest]; subst. cbn [spliceList] in E.
  assert (Hr : find (hasNid n) (flat_map (walk A) r) = None).
  { apply find_walk_forest_absent. intros x Hx. apply Hcs. now right. }
  assert (Hc : find (hasNid n) (walk A c) = None).
  { apply find_walk_absent. apply Hcs. now left. }
  destruct (nid c =? ref) eqn:Eid.
  - injection E as <-. exists A. unfold put. cbn [app flat_map].
    rewrite find_app, find_walk_lift.
    destruct (find (hasNid n) (walk [] new)); [reflexivity|].
    cbn [option_map]. destruct keep; cbn [app flat_map]; [|exact Hr].
    now rewrite find_app, Hc.
  - destruct (splice ref put c) as [c'|] eqn:Ec.
    + injection E as <-.
      destruct (IHc c' (Hcs c (or_introl eq_refl)) eq_refl A) as [anc' H].
      exists anc'. cbn [flat_map]. rewrite find_app, H.
      destruct (find (hasNid n) (walk [] new)); [reflexivity|exact Hr].
    + destruct (spliceList ref put (splice ref put) r) as [r'|] eqn:Er;
        [|discriminate].
      injection E as <-.
      destruct (IHr IHrest (fun x Hx => Hcs x (or_intror Hx)) r' eq_refl A)
        as [anc' H].
      exists anc'. cbn [flat_map]. now rewrite find_app, Hc.
Qed.

(** The walk of the heart icon: the icon, then its path under it. *)
Lemma walk_heart base r s l :
  createHeartSvg base r = (Some s, l) ->
  exists path,
    flatten s = [s; path] /\ walk [] s = [([], s); ([s], path)]
    /\ nid s = base /\ nid path = base + 1.
Proof.
  unfold createHeartSvg. cbn [heartIconSVG hd_error].
  destruct r as [r|]; intros [= <- <-]; eexists; repeat split.
Qed.

(** After step 5 the node made last is found under the heart icon. *)
Lemma substituteIcon_heart_ancestors base w0 o r w s logs :
  (forall y, In y (flatten w0) -> nid y < base) ->
  substituteIcon base w0 o r = (w, Some s, logs) ->
  In s (flatten w) ->
  exists path anc',
    flatten s = [s; path]
    /\ find (hasNid (base + 1)) (walk [] w) = Some (s :: anc', path).
Proof.
  intros Hlt Hsub Hsw. set (n := base + 1).
  assert (Hw0 : ~ In n (ids w0)).
  { unfold ids. intros Hin. apply in_map_iff in Hin.
    destruct Hin as (y & Hy & Hin). specialize (Hlt y Hin).
    unfold n in Hy. lia. }
  assert (Hheart : forall r0 s1 l1,
            createHeartSvg base r0 = (Some s1, l1) ->
            exists path, flatten s1 = [s1; path] /\ nid s1 = base
              /\ find (hasNid n) (walk [] s1) = Some ([s1], path)).
  { intros r0 s1 l1 E.
    destruct (@walk_heart _ _ _ _ E) as (path & Hfl & Hwalk & Hsid & Hp).
    exists path. split; [exact Hfl|]. split; [exact Hsid|].
    rewrite Hwalk. cbn [find]. unfold hasNid. cbn [snd].
    rewrite Hsid, Hp. fold n. rewrite Nat.eqb_refl.
    replace (base =? n) with false; [reflexivity|].
    symmetry. apply Nat.eqb_neq. unfold n. lia. }
  assert (Happend : forall s1 path,
            find (hasNid n) (walk [] s1) = Some ([s1], path) ->
            find (hasNid n) (walk [] (appendChild s1 w0))
            = Some ([s1; appendChild s1 w0], path)).
  { intros s1 path Hs. destruct w0 as [m t a st oc cs].
    unfold appendChild, withChildren.
    cbn [nid tagName attrs inlineStyle onclick children].
    set (e := Elem m t a st oc (cs ++ [s1])).
    change (walk [] e) with (([], e) :: flat_map (walk [e]) (cs ++ [s1])).
    cbn [find]. unfold hasNid at 1. cbn [snd e nid].
    replace (m =? n) with false.
    2:{ symmetry. apply Nat.eqb_neq. intros E. apply Hw0. left. exact E. }
    rewrite flat_map_app, find_app, find_walk_forest_absent.
    2:{ intros c Hc Hin. apply Hw0. unfold ids in *. cbn [flatten map].
        right. rewrite descendants_eq, map_flat_map.
        apply in_flat_map. now exists c. }
    cbn [flat_map]. rewrite app_nil_r, find_walk_lift, Hs. reflexivity. }
  unfold substituteIcon in Hsub.
  destruct o as [o|], r as [r|].
  1: destruct (createHeartSvg base (Some r)) as [[s1|] l1] eqn:E.
  3-5: destruct (createHeartSvg base None) as [[s1|] l1] eqn:E.
  all: try discriminate.
  all: destruct (Hheart _ _ _ E) as (path & Hfl & Hsid & Hs).
  - unfold replaceChild in Hsub.
    destruct (splice (nid o) (fun _ => [s1]) w0) as [w1|] eqn:Hrep.
    + injection Hsub as <- <- _. exists path.
      destruct (@nodeById_spliced n s1 false (nid o) w0 w1 Hw0 Hrep [])
        as [anc' H].
      rewrite H, Hs. exists ([] ++ anc'). split; [exact Hfl|reflexivity].
    + injection Hsub as <- <- _. exfalso.
      specialize (Hlt s1 Hsw). lia.
  - injection Hsub as <- <- _. exists path, [appendChild s1 w0].
    split; [exact Hfl|]. now apply Happend.
  - injection Hsub as <- <- _. exists path, [appendChild s1 w0].
    split; [exact Hfl|]. now apply Happend.
  - injection Hsub as <- <- _. exists path, [appendChild s1 w0].
    split; [exact Hfl|]. now apply Happend.
Qed.

(** In the built element, the node made last is found under the heart
    icon. *)
Lemma built_heart_ancestors doc cart w s logs :
  In cart (flatten doc) ->
  built doc cart = (w, Some s, logs) ->
  In s (flatten w) ->
  exists path anc',
    flatten s = [s; path]
    /\ find (hasNid (S (maxId doc) + S (maxId doc) + 1)) (walk [] w)
       = Some (s :: anc', path).
Proof.
  intros Hcart Hsub Hsw.
  refine (@substituteIcon_heart_ancestors _ _ _ _ _ _ _ _ Hsub Hsw).
  intros y Hin. destruct (@modifyClone_ids _ _ _ Hin) as (z & Hz & E).
  pose proof (@maxId_bound _ _ (@flatten_sub _ _ Hcart _ Hz)). lia.
Qed.

Lemma getIconInfo_svg h doc e i :
  _getIconInfo h doc (Some e) = Ok (Some i) ->
  svg i = svgOf doc e /\ bbox i = getBBox h doc (nid e).
Proof.
  unfold _getIconInfo. destruct (svgOf doc e) as [s|].
  - destruct (getBoundingClientRect h doc (nid s)); [|discriminate].
    cbn [bind]. now intros [= <-].
  - cbn [bind]. now intros [= <-].
Qed.

(** The heart icon in the document after the insertion: it is found by
    its identity, it holds one path, and the svg of that path is the heart
    icon. *)
Lemma heart_in_document doc cart w s logs doc1 :
  In cart (flatten doc) ->
  built doc cart = (w, Some s, logs) ->
  In s (flatten w) ->
  insertBefore w (nid cart) doc = Some doc1 ->
  deref doc1 (Some (nid s)) = Some s
  /\ exists path,
       flatten s = [s; path]
       /\ querySelector pathSel s = Some path
       /\ svgOf doc1 path = Some s.
Proof.
  intros Hcart Hsub Hsw Hins.
  set (B := S (maxId doc)) in *.
  assert (Hold : forall x, In x (flatten doc) -> nid x < B).
  { intros x Hx. pose proof (@maxId_bound _ _ Hx). unfold B. lia. }
  destruct (@built_heart _ _ _ _ _ Hsub)
    as (path & Hfl & Hsid & Hpid & Hst & Hpt & _).
  fold B in Hsid, Hpid.
  split.
  { assert (Hs1 : In s (flatten doc1)).
    { destruct (@insertBefore_contains _ _ _ _ Hins)
        as (c & _ & _ & Hin & _). right. now apply Hin. }
    destruct (@deref_some _ _ Hs1) as [y Hy]. rewrite Hy. f_equal.
    destruct (@deref_In _ _ _ Hy) as (Hin & Hid).
    unfold insertBefore in Hins.
    destruct (@splice_nodes _ _ _ _ _ Hins Hin)
      as [H|[(c & Hc & _ & Hp)|(z & cs & c & Hz & -> & _)]].
    - pose proof (Hold y H). lia.
    - cbn [flat_map] in Hp. rewrite app_nil_r in Hp.
      apply in_app_or in Hp. destruct Hp as [Hp|Hp].
      + destruct (@built_ids _ _ _ _ _ y Hcart Hsub Hp) as [H'|H'];
          [fold B in H'; lia|].
        rewrite Hfl in H'. destruct H' as [<-|[<-|[]]]; [reflexivity|lia].
      + pose proof (Hold y (@flatten_sub c doc (or_intror Hc) _ Hp)). lia.
    - pose proof (Hold z Hz). cbn [withChildren nid] in Hid. lia. }
  exists path. split; [exact Hfl|]. split.
  { unfold querySelector. unfold flatten in Hfl. injection Hfl as ->.
    cbn [find]. unfold matches, pathSel, matchSimple. cbn [existsb forallb].
    now rewrite Hpt. }
  destruct (built_heart_ancestors Hcart Hsub Hsw)
    as (path' & anc2 & Hfl' & Hfind).
  rewrite Hfl in Hfl'. injection Hfl' as <-.
  fold B in Hfind. set (n := B + B + 1) in *.
  assert (Hn : ~ In n (ids doc)).
  { unfold ids. intros Hin. apply in_map_iff in Hin.
    destruct Hin as (x & Hx & Hin). specialize (Hold x Hin).
    unfold n in Hx. lia. }
  unfold insertBefore in Hins.
  destruct (@nodeById_spliced n w true (nid cart) doc doc1 Hn Hins [])
    as [anc1 H1].
  rewrite Hfind in H1. cbn [option_map] in H1. unfold liftAnc in H1.
  cbn [fst snd app] in H1.
  unfold svgOf, ancestorsOf, nodeById. rewrite Hpid.
  change (fun ae : list elem * elem => nid (snd ae) =? n) with (hasNid n).
  rewrite H1. cbn [find].
  unfold isSvg, matches, matchSimple. cbn [existsb forallb].
  now rewrite Hst.
Qed.

(** The svg the matcher takes for the heart path, when [inject] calls
    it, is the heart icon just made. *)
Lemma inject_heart_svg h doc cart w s logs doc1 r0 m :
  In cart (flatten doc) ->
  built doc cart = (w, Some s, logs) ->
  insertBefore w (nid cart) doc = Some doc1 ->
  measures h doc1 r0 (Some (nid s)) m ->
  svg (heart m) = Some s.
Proof.
  intros Hcart Hsub Hins Hm.
  destruct (inject_heart_el Hcart Hsub Hins Hm)
    as (Hfl & _ & _ & _ & Hsw).
  destruct (heart_in_document Hcart Hsub Hsw Hins)
    as (_ & path & Hfl' & _ & Hsvg).
  rewrite Hfl in Hfl'. injection Hfl' as <-.
  destruct Hm as (_ & _ & _ & _ & _ & _ & _ & Hinfo & _).
  destruct (getIconInfo_svg _ _ _ Hinfo) as [-> _]. exact Hsvg.
Qed.

(** X13.  When the anchor holds an icon, in a document whose nodes have
    distinct identities, the log of the inserting run is the success message
    followed by one entry: the caught exception of a measurement, the warning
    that the reference icon has no path, the warning that the sizes could not
    be determined, or the record of the scaling.  The other warnings of the
    matcher (missing icon, no path in the heart icon, heart svg not found)
    and a [TypeError] cannot occur there. *)
Theorem inject_log_with_icon (h : Host) (doc : elem) (sel : string)
        (p : elem) (anc : list elem) (cart r : elem) :
  NoDup (ids doc) ->
  isEmpty sel = false ->
  resolves h doc sel (p :: anc) cart ->
  inserted doc = None ->
  querySelector iconSelector cart = Some r ->
  exists last,
    snd (inject h doc (Some sel)) = [injectedMsg; last]
    /\ (last = ErrorCaught HostError \/ last = noPathMsg \/ last = sizesMsg
        \/ exists f t, last = LogScaled f t).
Proof.
  intros Hnd Hs Hres Hno Hr.
  destruct (inject_inserts Hs Hres Hno)
    as (w & hs & logs & doc1 & Hsub & Hins & _).
  destruct (@built_with_icon _ _ _ _ _ _ Hr Hsub) as (s & -> & -> & E & Hw).
  assert (Hcart : In cart (descendants doc)).
  { destruct Hres as (test & _ & Hf).
    exact (@walk_proper_descendant _ _ _ _ _ Hf). }
  assert (Hrcart : In r (flatten cart)).
  { right. unfold querySelector in Hr. apply find_some in Hr. tauto. }
  assert (Hrdoc : In r (flatten doc)).
  { apply (@flatten_sub cart doc); [now right|exact Hrcart]. }
  assert (Hsw : In s (flatten w)).
  { right. unfold querySelector in Hw. apply find_some in Hw. tauto. }
  destruct (heart_in_document (or_intror Hcart) Hsub Hsw Hins)
    as (Hds & path & Hfl & Hpath & Hsvg).
  assert (Hwr : forall x, In x (flatten w) -> nid x <> nid r).
  { intros x Hx. pose proof (@maxId_bound _ _ Hrdoc).
    destruct (@built_heart _ _ _ _ _ Hsub)
      as (path' & Hfl' & Hsid & Hpid & _).
    destruct (@built_ids _ _ _ _ _ x (or_intror Hcart) Hsub Hx) as [H'|H'];
      [lia|].
    rewrite Hfl' in H'. destruct H' as [<-|[<-|[]]]; lia. }
  pose proof (deref_under_anchor Hnd Hcart Hrcart Hwr Hins) as Hdr.
  rewrite (inject_run_log Hs Hres Hno Hsub Hins), Hr. cbn [app].
  enough (H : exists last,
            match _matchIconScale h doc1 (Some (nid r)) (Some (nid s)) None
            with Ok (_, l) => l | Throw e => [ErrorCaught e] end = [last]
            /\ (last = ErrorCaught HostError \/ last = noPathMsg
                \/ last = sizesMsg \/ exists f t, last = LogScaled f t)).
  { destruct H as (last & -> & H). now exists last. }
  unfold _matchIconScale. rewrite Hdr, Hds.
  destruct (querySelector pathSel r) as [refEl|].
  2:{ exists noPathMsg. split; [reflexivity|]. auto. }
  rewrite Hpath.
  destruct (getIconInfo_some h doc1 refEl) as [[ir ->]| ->].
  2:{ exists (ErrorCaught HostError). split; [reflexivity|]. auto. }
  cbn [bind].
  destruct (getIconInfo_some h doc1 path) as [[ih Hih]|Hih]; rewrite Hih.
  2:{ exists (ErrorCaught HostError). split; [reflexivity|]. auto. }
  cbn [bind].
  destruct (getIconInfo_svg _ _ _ Hih) as [Hsv _]. rewrite Hsvg in Hsv.
  destruct (renderedSize width ir), (renderedSize width ih),
           (renderedSize height ir), (renderedSize height ih);
    try (exists sizesMsg; split; [reflexivity|]; auto; fail).
  destruct (negb _ || _ || _ || _).
  { exists sizesMsg. split; [reflexivity|]. auto. }
  destruct (strokeOf h (cstyle ih)) as [sw ve]. rewrite Hsv.
  destruct (pivot h _ _) as [cx cy].
  eexists. split; [reflexivity|]. right; right; right. eauto.
Qed.

Lemma log_with_icon_witness :
  NoDup (ids themeDoc)
  /\ isEmpty "cart-drawer-component" = false
  /\ resolves themeHost themeDoc "cart-drawer-component"
              [themeHeader; themeDoc] themeCart
  /\ inserted themeDoc = None
  /\ exists last,
       snd (inject themeHost themeDoc (Some "cart-drawer-component"))
       = [injectedMsg; last]
       /\ (last = ErrorCaught HostError \/ last = noPathMsg
           \/ last = sizesMsg \/ exists f t, last = LogScaled f t).
Proof.
  split; [exact themeDoc_distinct|]. split; [reflexivity|].
  split; [exact themeDoc_resolves|]. split; [reflexivity|].
  exact (@inject_log_with_icon themeHost themeDoc "cart-drawer-component"
           themeHeader [themeDoc] themeCart _ themeDoc_distinct eq_refl
           themeDoc_resolves eq_refl eq_refl).
Defined.

(** X14.  When the log of an inserting run records a scaling, the
    transform it records is the whole [transform] attribute of the path of
    the heart icon in the inserted element: the new path had no transform
    before. *)
Theorem logged_transform_is_applied (h : Host) (doc : elem) (sel : string)
        (p : elem) (anc : list elem) (cart : elem) (f : jsnum) (t : string) :
  isEmpty sel = false ->
  resolves h doc sel (p :: anc) cart ->
  inserted doc = None ->
  In (LogScaled f t) (snd (inject h doc (Some sel))) ->
  exists w s path,
    inserted (fst (inject h doc (Some sel))) = Some w
    /\ querySelector iconSelector w = Some s
    /\ querySelector pathSel s = Some path
    /\ getAttribute "transform" path = Some t.
Proof.
  intros Hs Hres Hno Hlog.
  destruct (inject_inserts Hs Hres Hno)
    as (w & hs & logs & doc1 & Hsub & Hins & _).
  assert (Hcart : In cart (flatten doc)).
  { destruct Hres as (test & _ & Hf). exact (@walk_node _ _ _ _ Hf). }
  rewrite (inject_run_log Hs Hres Hno Hsub Hins) in Hlog.
  rewrite (inject_run Hs Hres Hno Hsub Hins).
  apply in_app_or in Hlog. destruct Hlog as [Hlog|Hlog].
  { apply in_app_or in Hlog. destruct Hlog as [Hlog|[Hlog|[]]];
      [|discriminate].
    destruct (substituteIcon_logs _ _ _ _ Hsub _ Hlog) as [msg H].
    discriminate. }
  destruct (querySelector iconSelector cart) as [r|] eqn:Hr;
    [|destruct Hlog as [Hlog|[]]; discriminate].
  rewrite <- Hr in Hsub.
  destruct (@built_with_icon _ _ _ _ _ _ Hr Hsub) as (s & -> & -> & _ & Hw).
  destruct (matchIconScale_cases h doc1 (Some (nid r)) (Some (nid s)) None)
    as [[e He]|[[msg Hm]|(m & sv & Hmeas & T1 & T2 & T3 & T4 & Hsv)]].
  { rewrite He in Hlog. destruct Hlog as [Hlog|[]]; discriminate. }
  { rewrite Hm in Hlog. destruct Hlog as [Hlog|[]]; discriminate. }
  rewrite (@matchIconScale_measured h doc1 _ _ None m sv Hmeas
             T1 T2 T3 T4 Hsv) in Hlog |- *.
  destruct Hlog as [[= <- <-]|[]].
  destruct (inject_heart_el Hcart Hsub Hins Hmeas)
    as (Hfl & Hpid & Hpt & Htr & _).
  unfold transformed. rewrite Htr, Hpid. cbn [orEmpty].
  unfold prepended. cbn [isEmpty]. rewrite append_empty.
  set (t := centeredScale _ _ _ _).
  set (n := S (maxId doc) + S (maxId doc) + 1).
  set (U := updateNode n (setAttribute "transform" t)).
  assert (Hn : ~ In n (ids doc)).
  { unfold ids. intros Hin. apply in_map_iff in Hin.
    destruct Hin as (x & Hx & Hin).
    pose proof (@maxId_bound _ _ Hin). unfold n in Hx. lia. }
  pose proof (@insertBefore_updateNode n t w (nid cart) doc doc1 Hn Hins)
    as Hins'.
  exists (U w), (U s), (U (heartEl m)).
  split.
  { apply (@inserted_insertBefore doc (U w) (nid cart) _ Hno);
      [|exact Hins'].
    unfold U. rewrite hasMarker_updateNode.
    exact (@built_marked _ _ _ _ _ Hsub). }
  split.
  { unfold querySelector in *. unfold U.
    rewrite descendants_updateNode, find_map.
    rewrite (find_ext_in _ (matches iconSelector)); [now rewrite Hw|].
    intros x _. apply matches_updateNode.
    repeat constructor; discriminate. }
  split.
  { unfold querySelector, U. rewrite descendants_updateNode.
    unfold flatten in Hfl. injection Hfl as ->.
    cbn [map find]. unfold matches, pathSel, matchSimple.
    cbn [existsb forallb]. now rewrite updateNode_tagName, Hpt. }
  unfold getAttribute, U. rewrite updateNode_attrs.
  unfold n. rewrite <- Hpid, Nat.eqb_refl. apply lookup_assign_same.
Qed.

Lemma logged_transform_witness :
  isEmpty "cart-drawer-component" = false
  /\ resolves themeHost themeDoc "cart-drawer-component"
              [themeHeader; themeDoc] themeCart
  /\ inserted themeDoc = None
  /\ In (LogScaled (Fin (6 # 5))
                   "translate(12 12) scale(1.2) translate(-12 -12)")
        (snd (inject themeHost themeDoc (Some "cart-drawer-component")))
  /\ exists w s path,
       inserted (fst (inject themeHost themeDoc
                        (Some "cart-drawer-component"))) = Some w
       /\ querySelector iconSelector w = Some s
       /\ querySelector pathSel s = Some path
       /\ getAttribute "transform" path
          = Some "translate(12 12) scale(1.2) translate(-12 -12)".
Proof.
  assert (Hlog : In (LogScaled (Fin (6 # 5))
                       "translate(12 12) scale(1.2) translate(-12 -12)")
                    (snd (inject themeHost themeDoc
                            (Some "cart-drawer-component")))).
  { vm_compute. right. left. reflexivity. }
  split; [reflexivity|]. split; [exact themeDoc_resolves|].
  split; [reflexivity|]. split; [exact Hlog|].
  exact (@logged_transform_is_applied themeHost themeDoc
           "cart-drawer-component" themeHeader [themeDoc] themeCart _ _
           eq_refl themeDoc_resolves eq_refl Hlog).
Defined.

(** X15.  On a host for which [Number("0")] is 0 and [Number("24")] is
    24, every scaling an inserting run records is about the point (12, 12),
    the centre of the [viewBox] of the template: the svg taken for the heart
    path is the heart icon just made. *)
Theorem inject_scales_about_centre (h : Host) (doc : elem) (sel : string)
        (p : elem) (anc : list elem) (cart : elem) (f : jsnum) (t : string) :
  isEmpty sel = false ->
  resolves h doc sel (p :: anc) cart ->
  inserted doc = None ->
  toNumber h "0" = Fin 0 ->
  toNumber h "24" = Fin 24 ->
  In (LogScaled f t) (snd (inject h doc (Some sel))) ->
  t = centeredScale h (Fin 12) (Fin 12) f.
Proof.
  intros Hs Hres Hno H0 H24 Hlog.
  destruct (inject_inserts Hs Hres Hno)
    as (w & hs & logs & doc1 & Hsub & Hins & _).
  assert (Hcart : In cart (flatten doc)).
  { destruct Hres as (test & _ & Hf). exact (@walk_node _ _ _ _ Hf). }
  rewrite (inject_run_log Hs Hres Hno Hsub Hins) in Hlog.
  apply in_app_or in Hlog. destruct Hlog as [Hlog|Hlog].
  { apply in_app_or in Hlog. destruct Hlog as [Hlog|[Hlog|[]]];
      [|discriminate].
    destruct (substituteIcon_logs _ _ _ _ Hsub _ Hlog) as [msg H].
    discriminate. }
  destruct (querySelector iconSelector cart) as [r|] eqn:Hr;
    [|destruct Hlog as [Hlog|[]]; discriminate].
  rewrite <- Hr in Hsub.
  destruct hs as [s|]; [|destruct Hlog as [Hlog|[]]; discriminate].
  destruct (matchIconScale_cases h doc1 (Some (nid r)) (Some (nid s)) None)
    as [[e He]|[[msg Hm]|(m & sv & Hmeas & T1 & T2 & T3 & T4 & Hsv)]].
  { rewrite He in Hlog. destruct Hlog as [Hlog|[]]; discriminate. }
  { rewrite Hm in Hlog. destruct Hlog as [Hlog|[]]; discriminate. }
  rewrite (@matchIconScale_measured h doc1 _ _ None m sv Hmeas
             T1 T2 T3 T4 Hsv) in Hlog.
  destruct Hlog as [[= <- <-]|[]].
  rewrite (inject_heart_svg Hcart Hsub Hins Hmeas) in Hsv.
  injection Hsv as <-.
  destruct (@built_heart _ _ _ _ _ Hsub) as (_ & _ & _ & _ & _ & _ & Hvb & _).
  unfold pivotIn. rewrite Hvb. unfold pivot. cbn [isEmpty].
  change (splitViewBox false "" "0 0 24 24") with ["0"; "0"; "24"; "24"].
  cbn [map]. rewrite H0, H24. reflexivity.
Qed.

Lemma scales_about_centre_witness :
  isEmpty "cart-drawer-component" = false
  /\ resolves themeHost themeDoc "cart-drawer-component"
              [themeHeader; themeDoc] themeCart
  /\ inserted themeDoc = None
  /\ toNumber themeHost "0" = Fin 0
  /\ toNumber themeHost "24" = Fin 24
  /\ In (LogScaled (Fin (6 # 5))
                   "translate(12 12) scale(1.2) translate(-12 -12)")
        (snd (inject themeHost themeDoc (Some "cart-drawer-component")))
  /\ "translate(12 12) scale(1.2) translate(-12 -12)"
     = centeredScale themeHost (Fin 12) (Fin 12) (Fin (6 # 5)).
Proof.
  assert (Hlog : In (LogScaled (Fin (6 # 5))
                       "translate(12 12) scale(1.2) translate(-12 -12)")
                    (snd (inject themeHost themeDoc
                            (Some "cart-drawer-component")))).
  { vm_compute. right. left. reflexivity. }
  split; [reflexivity|]. split; [exact themeDoc_resolves|].
  split; [reflexivity|]. split; [reflexivity|]. split; [reflexivity|].
  split; [exact Hlog|].
  exact (@inject_scales_about_centre themeHost themeDoc
           "cart-drawer-component" themeHeader [themeDoc] themeCart _ _
           eq_refl themeDoc_resolves eq_refl eq_refl eq_refl Hlog).
Defined.

(** X16.  The call at the end of the script, on a host that reads
    [cart-drawer-component] as a type selector and a document without
    marked element: either the document is unchanged, or the marked element
    is a [cart-drawer-component] that navigates by its click handler and
    shows the pointer cursor. *)
Theorem script_run_inserts_click_button (h : Host) (doc : elem) :
  typeSelector h themeSelector ->
  inserted doc = None ->
  match inserted (fst (main h doc)) with
  | Some w =>
      toLowerCase (tagName w) = themeSelector
      /\ onclick w = Some (NavigateTo wishlistPageUrl)
      /\ lookup "cursor" (inlineStyle w) = Some "pointer"
  | None => fst (main h doc) = doc
  end.
Proof.
  intros (test & Hc & Htest) Hno. unfold main.
  destruct (inject_stops_or_goes h doc (Some themeSelector))
    as [Hstop|(s & p & anc & cart & [= <-] & Hs & Hres & _)].
  - destruct (inject_stops Hstop) as [E _]. now rewrite E, Hno.
  - assert (Hname : toLowerCase (tagName cart) = themeSelector).
    { destruct Hres as (t & Ht & Hf). rewrite Hc in Ht. injection Ht as <-.
      apply find_some in Hf. destruct Hf as [_ Hf]. cbn [fst snd] in Hf.
      rewrite Htest in Hf. now apply String.eqb_eq. }
    assert (Htag : (tagName cart =? "A")%string = false).
    { destruct (tagName cart =? "A")%string eqn:E; [|reflexivity].
      apply String.eqb_eq in E. rewrite E in Hname. discriminate. }
    destruct (inserted_activation Hs Hres Hno Htag)
      as (w & -> & Ht & Ho & Hst).
    rewrite Ht, Hst. split; [exact Hname|]. split; [exact Ho|].
    apply lookup_assign_same.
Qed.

Lemma script_run_witness :
  typeSelector themeHost themeSelector
  /\ inserted themeDoc = None
  /\ match inserted (fst (main themeHost themeDoc)) with
     | Some w =>
         toLowerCase (tagName w) = themeSelector
         /\ onclick w = Some (NavigateTo wishlistPageUrl)
         /\ lookup "cursor" (inlineStyle w) = Some "pointer"
     | None => fst (main themeHost themeDoc) = themeDoc
     end.
Proof.
  assert (Ht : typeSelector themeHost themeSelector).
  { eexists. split; [reflexivity|]. intros anc e. reflexivity. }
  split; [exact Ht|]. split; [reflexivity|].
  exact (@script_run_inserts_click_button themeHost themeDoc Ht eq_refl).
Defined.

(* ------------------------------------------------------------------ *)
(** ** The scale *)











(* ------------------------------------------------------------------ *)
(** ** The [viewBox] *)

Lemma split_piece (t : string) :
  piece t ->
  forall inWs cur rest,
    splitViewBox inWs cur (t ++ rest) = splitViewBox false (revStr cur t) rest.
Proof.
  intros [Hne Hall]. induction t as [|c t IH]; [congruence|].
  intros inWs cur rest. cbn [chars] in Hall.
  inversion Hall as [|? ? [Hws Hc] Hrest]; subst.
  cbn [append splitViewBox revStr]. rewrite Hws, Hc.
  destruct t as [|c' t']; [reflexivity|].
  apply IH; [discriminate|exact Hrest].
Qed.

Lemma split_run (s : string) :
  Forall (fun c => isJsWs c = true) (chars s) ->
  forall rest, splitViewBox true "" (s ++ rest) = splitViewBox true "" rest.
Proof.
  induction s as [|c s IH]; intros Hall rest; [reflexivity|].
  cbn [chars] in Hall. inversion Hall as [|? ? Hws Hrest]; subst.
  cbn [append splitViewBox]. rewrite Hws. now apply IH.
Qed.

Lemma split_separator (s : string) :
  separator s ->
  forall cur rest,
    exists inWs,
      splitViewBox false cur (s ++ rest)
      = revStr "" cur :: splitViewBox inWs "" rest.
Proof.
  intros [->|[Hne Hall]] cur rest.
  - exists false. reflexivity.
  - exists true. destruct s as [|c s]; [congruence|].
    cbn [chars] in Hall. inversion Hall as [|? ? Hws Hrest]; subst.
    cbn [append splitViewBox]. rewrite Hws. f_equal.
    now apply split_run.
Qed.

Lemma split_separator_piece (s t : string) :
  separator s -> piece t ->
  forall cur rest,
    splitViewBox false cur (s ++ t ++ rest)
    = revStr "" cur :: splitViewBox false (revStr "" t) rest.
Proof.
  intros Hs Ht cur rest.
  destruct (split_separator Hs cur (t ++ rest)) as [inWs ->].
  now rewrite (split_piece Ht).
Qed.

Lemma split_last_piece (t : string) :
  piece t ->
  forall inWs cur, splitViewBox inWs cur t = [revStr "" (revStr cur t)].
Proof.
  intros Ht inWs cur. rewrite <- (append_empty t) at 1.
  now rewrite (split_piece Ht).
Qed.

Lemma split_four_pieces (a b c d s1 s2 s3 : string) :
  piece a -> piece b -> piece c -> piece d ->
  separator s1 -> separator s2 -> separator s3 ->
  splitViewBox false "" (a ++ s1 ++ b ++ s2 ++ c ++ s3 ++ d) = [a; b; c; d].
Proof.
  intros Ha Hb Hc Hd H1 H2 H3.
  rewrite (split_piece Ha).
  rewrite (split_separator_piece H1 Hb), (split_separator_piece H2 Hc).
  destruct (split_separator H3 (revStr "" c) d) as [inWs ->].
  rewrite (split_last_piece Hd). now rewrite !revStr_involutive.
Qed.

(** X20.  A [viewBox] made of four pieces that [Number] reads, each two
    separated by one comma or by a run of white space, gives the pivot
    (min-x + width / 2, min-y + height / 2), whatever the bounding box. *)
Theorem pivot_reads_separated_viewBox (h : Host)
        (a b c d s1 s2 s3 : string) (bbox : option box) :
  piece a -> piece b -> piece c -> piece d ->
  separator s1 -> separator s2 -> separator s3 ->
  isNaN (toNumber h a) = false -> isNaN (toNumber h b) = false ->
  isNaN (toNumber h c) = false -> isNaN (toNumber h d) = false ->
  pivot h (Some (a ++ s1 ++ b ++ s2 ++ c ++ s3 ++ d)%string) bbox
  = (jadd (toNumber h a) (jdiv (toNumber h c) (Fin 2)),
     jadd (toNumber h b) (jdiv (toNumber h d) (Fin 2))).
Proof.
  intros Ha Hb Hc Hd H1 H2 H3 Na Nb Nc Nd. unfold pivot.
  assert (Hne : isEmpty (a ++ s1 ++ b ++ s2 ++ c ++ s3 ++ d) = false).
  { destruct Ha as [Hne _]. destruct a; [congruence|reflexivity]. }
  rewrite Hne, (split_four_pieces Ha Hb Hc Hd H1 H2 H3).
  cbn [map forallb]. now rewrite Na, Nb, Nc, Nd.
Qed.

Lemma pivot_reads_viewBox_witness :
  piece "0" /\ piece "24" /\ separator "," /\ separator " "
  /\ separator "  "
  /\ pivot themeHost (Some "0,0 24  24") None = (Fin 12, Fin 12).
Proof.
  assert (P0 : piece "0") by (split; [discriminate|repeat constructor]).
  assert (P24 : piece "24") by (split; [discriminate|repeat constructor]).
  assert (S1 : separator ",") by (left; reflexivity).
  assert (S2 : separator " ")
    by (right; split; [discriminate|repeat constructor]).
  assert (S3 : separator "  ")
    by (right; split; [discriminate|repeat constructor]).
  split; [exact P0|]. split; [exact P24|]. split; [exact S1|].
  split; [exact S2|]. split; [exact S3|].
  exact (@pivot_reads_separated_viewBox themeHost "0" "0" "24" "24"
           "," " " "  " None P0 P0 P24 P24 S1 S2 S3
           eq_refl eq_refl eq_refl eq_refl).
Defined.

(** X21.  A [viewBox] whose four pieces are separated by a comma followed
    by a space splits into seven parts, three of them empty: the pivot is
    the default (12, 12), whatever the numbers and the bounding box. *)
Theorem comma_space_viewBox_gives_default_pivot (h : Host)
        (a b c d : string) (bbox : option box) :
  piece a -> piece b -> piece c -> piece d ->
  pivot h (Some (a ++ ", " ++ b ++ ", " ++ c ++ ", " ++ d)%string) bbox
  = (Fin 12, Fin 12).
Proof.
  intros Ha Hb Hc Hd.
  assert (Hsplit : forall t rest cur, piece t ->
            splitViewBox false cur (", " ++ t ++ rest)
            = revStr "" cur :: "" :: splitViewBox false (revStr "" t) rest).
  { intros t rest cur Ht.
    change (", " ++ t ++ rest)%string
      with (String "," (String " " (t ++ rest))).
    cbn [splitViewBox]. cbn [isJsWs code]. cbn. f_equal. f_equal.
    now rewrite (split_piece Ht). }
  unfold pivot.
  assert (Hne : isEmpty (a ++ ", " ++ b ++ ", " ++ c ++ ", " ++ d) = false).
  { destruct Ha as [Hne _]. destruct a; [congruence|reflexivity]. }
  rewrite Hne, (split_piece Ha), !Hsplit by assumption.
  change (", " ++ d)%string with (String "," (String " " d)).
  cbn [splitViewBox]. cbn [isJsWs code]. cbn [nat_of_ascii].
  rewrite (split_last_piece Hd). reflexivity.
Qed.

Lemma comma_space_viewBox_witness :
  piece "0" /\ piece "48"
  /\ pivot themeHost (Some "0, 0, 48, 48") None = (Fin 12, Fin 12).
Proof.
  assert (P0 : piece "0") by (split; [discriminate|repeat constructor]).
  assert (P48 : piece "48") by (split; [discriminate|repeat constructor]).
  split; [exact P0|]. split; [exact P48|].
  exact (@comma_space_viewBox_gives_default_pivot themeHost "0" "0" "48" "48"
           None P0 P0 P48 P48).
Defined.
